(** * Crossword CSP solver (crossword/generate.py): shallow embedding

    The class [CrosswordCreator] is embedded as a record holding the
    problem graph ([self.crossword]) and the domain store
    ([self.domains]); its methods are state transformers over that
    record which may raise a Python exception.

    - A Python [set] or [dict] is a list that carries its iteration
      order: the domains, the variables and the vocabulary are lists
      without duplicates, a removal keeps the order of what remains, and
      a dict is an association list in insertion order.
    - A set built during a run ([neighbors(var)], the set of the
      unassigned variables) iterates in the order of the hashes of its
      elements, which the stored orders do not fix.  The methods iterate
      it in the stored order; [solve_in] and the methods it is made of
      take that order as a parameter, and [solve_deterministic] says
      what of a run depends on it.
    - [s[i]] on a string raises [IndexError] out of range, a lookup of
      an absent key raises [KeyError], unpacking [None] raises
      [TypeError], [min] of nothing raises [ValueError].
    - The [while] loop of [ac3] and the recursion of [backtrack] run on
      a bound computed from the store; the bound is shown never to be
      the reason of a failure ([ac3_fuel_free], [backtrack_fuel_free]).
    - crossword.py ([Variable], [Crossword]) is not among the sources:
      the problem graph is the interface the specification gives. *)

From Stdlib Require Import List String Ascii Arith Bool Lia PeanoNat Permutation Sorted.
Import ListNotations.
Local Open Scope list_scope.

(** ** Exceptions and results *)

Inductive exn : Type :=
| IndexError   (* string index out of range *)
| TypeError    (* unpacking None *)
| KeyError     (* dict lookup or set.remove of an absent element *)
| ValueError   (* min() of an empty sequence *)
| OutOfFuel.   (* artefact of the embedding: recursion bound exhausted *)

Inductive res (A : Type) : Type :=
| Ok (a : A)
| Raise (e : exn).
Arguments Ok {A} a.
Arguments Raise {A} e.

Definition rbind {A B} (m : res A) (k : A -> res B) : res B :=
  match m with
  | Ok a => k a
  | Raise e => Raise e
  end.

Notation "'do' x <- m ; k" := (rbind m (fun x => k))
  (at level 10, x pattern, m at level 100, k at level 200).

(** ** Problem graph (crossword.py is not among the sources) *)

Inductive Direction : Type := ACROSS | DOWN.

(** Modelled from the spec: the class [Variable] of crossword.py, a
    placement with start coordinates, a fixed length and an orientation;
    two variables are equal iff all four fields match. *)
Record Var : Type := mkVar {
  var_i : nat;
  var_j : nat;
  var_direction : Direction;
  var_length : nat
}.

Definition Direction_eq_dec (a b : Direction) : {a = b} + {a <> b}.
Proof. decide equality. Defined.

Definition Var_eq_dec (a b : Var) : {a = b} + {a <> b}.
Proof. decide equality; try apply Nat.eq_dec; apply Direction_eq_dec. Defined.

Definition var_eqb (a b : Var) : bool := if Var_eq_dec a b then true else false.

(** words are Python strings *)
Abbreviation word := string.

(** Modelled from the spec: the class [Crossword] of crossword.py as the
    core consumes it: the variables, the vocabulary and the overlap
    function [overlap(x, y) -> Option<(index_in_x, index_in_y)>]. *)
Record Crossword : Type := mkCrossword {
  variables : list Var;
  words : list word;
  overlaps : Var -> Var -> option (nat * nat)
}.

Definition is_some {A} (o : option A) : bool :=
  match o with Some _ => true | None => false end.

(** Modelled from the spec: [Crossword.neighbors], the variables sharing
    a defined overlap with [var] (the overlap map is over pairs of
    distinct variables). *)
Definition neighbors (cw : Crossword) (var : Var) : list Var :=
  filter (fun v => negb (var_eqb v var) && is_some (overlaps cw v var))
         (variables cw).

(** ** Dicts keyed by variables, in insertion order *)

Section Dict.
Context {A : Type}.

Fixpoint dict_get (d : list (Var * A)) (k : Var) : option A :=
  match d with
  | [] => None
  | (k', a) :: d' => if Var_eq_dec k' k then Some a else dict_get d' k
  end.

Fixpoint dict_set (d : list (Var * A)) (k : Var) (a : A) : list (Var * A) :=
  match d with
  | [] => [(k, a)]
  | (k', a') :: d' =>
      if Var_eq_dec k' k then (k', a) :: d' else (k', a') :: dict_set d' k a
  end.

Definition dict_keys (d : list (Var * A)) : list Var := map fst d.
Definition dict_values (d : list (Var * A)) : list A := map snd d.

Definition dict_mem (d : list (Var * A)) (k : Var) : bool :=
  is_some (dict_get d k).
End Dict.

Definition mem_var (v : Var) (l : list Var) : bool :=
  if in_dec Var_eq_dec v l then true else false.

Definition mem_word (w : word) (l : list word) : bool :=
  if in_dec string_dec w l then true else false.

(** [s[i]] for a non-negative index *)
Definition index (s : word) (i : nat) : res ascii :=
  match String.get i s with
  | Some c => Ok c
  | None => Raise IndexError
  end.

Definition ascii_eqb (a b : ascii) : bool :=
  if ascii_dec a b then true else false.

(** ** The solver object *)

Definition assignment := list (Var * word).

Record CrosswordCreator : Type := mkCreator {
  crossword : Crossword;
  domains : list (Var * list word)
}.

(** [__init__] *)
Definition init (cw : Crossword) : CrosswordCreator :=
  {| crossword := cw;
     domains := map (fun var => (var, words cw)) (variables cw) |}.

(** Methods: state transformers over the object, which may raise. *)
Definition M (A : Type) : Type := CrosswordCreator -> res (A * CrosswordCreator).

Definition ret {A} (a : A) : M A := fun self => Ok (a, self).

Definition bind {A B} (m : M A) (k : A -> M B) : M B :=
  fun self =>
    match m self with
    | Ok (a, self') => k a self'
    | Raise e => Raise e
    end.

Definition raise {A} (e : exn) : M A := fun _ => Raise e.

Definition lift {A} (r : res A) : M A :=
  fun self => match r with Ok a => Ok (a, self) | Raise e => Raise e end.

(** reading through [self] *)
Definition reads {A} (f : CrosswordCreator -> res A) : M A :=
  fun self => match f self with Ok a => Ok (a, self) | Raise e => Raise e end.

Notation "x <- m ;; k" := (bind m (fun x => k))
  (at level 200, m at level 100, k at level 200, right associativity).
Notation "m ;; k" := (bind m (fun _ => k))
  (at level 200, k at level 200, right associativity).

(** [self.domains[x]] *)
Definition get_domain (self : CrosswordCreator) (x : Var) : res (list word) :=
  match dict_get (domains self) x with
  | Some d => Ok d
  | None => Raise KeyError
  end.

Definition domain (x : Var) : M (list word) := reads (fun self => get_domain self x).

(** [self.domains[x].remove(w)] *)
Definition remove_word (x : Var) (w : word) : M unit :=
  fun self =>
    match dict_get (domains self) x with
    | None => Raise KeyError
    | Some d =>
        if mem_word w d
        then Ok (tt, {| crossword := crossword self;
                        domains := dict_set (domains self) x (remove string_dec w d) |})
        else Raise KeyError
    end.

(** [for a in l: body a] *)
Fixpoint for_each {A} (l : list A) (body : A -> M unit) : M unit :=
  match l with
  | [] => ret tt
  | a :: l' => body a ;; for_each l' body
  end.

(** a [for] loop that updates a local *)
Fixpoint for_acc {A B} (l : list A) (body : A -> B -> M B) (b : B) : M B :=
  match l with
  | [] => ret b
  | a :: l' => b' <- body a b ;; for_acc l' body b'
  end.

(** ** Consistency engine *)

(** the body of the inner loop of [enforce_node_consistency] *)
Definition node_body (var : Var) (w : word) : M unit :=
  if negb (Nat.eqb (String.length w) (var_length var))
  then remove_word var w
  else ret tt.

(** [enforce_node_consistency]: for each variable, over a copy of its domain *)
Definition enforce_node_consistency : M unit :=
  fun self =>
    for_each (dict_keys (domains self)) (fun var =>
      d <- domain var ;;
      for_each d (node_body var)) self.

(** [any(x_word[ox] == y_word[oy] for y_word in dy)] *)
Fixpoint any_match (x_word : word) (ox oy : nat) (dy : list word) : res bool :=
  match dy with
  | [] => Ok false
  | y_word :: dy' =>
      do cx <- index x_word ox;
      do cy <- index y_word oy;
      if ascii_eqb cx cy then Ok true else any_match x_word ox oy dy'
  end.

(** the body of the loop of [revise] *)
Definition revise_body (x y : Var) (overlaps_x overlaps_y : nat)
    (x_word : word) (revised : bool) : M bool :=
  dy <- domain y ;;
  supported <- lift (any_match x_word overlaps_x overlaps_y dy) ;;
  if negb supported
  then remove_word x x_word ;; ret true
  else ret revised.

(** [revise]: over a copy of [x]'s domain, reading [y]'s domain as it is *)
Definition revise (x y : Var) : M bool :=
  fun self =>
    match overlaps (crossword self) x y with
    | None => Ok (false, self)
    | Some (overlaps_x, overlaps_y) =>
        (dx <- domain x ;;
         for_acc dx (revise_body x y overlaps_x overlaps_y) false) self
    end.

Definition arc : Type := Var * Var.

(** [get_arc_queue(var=None)]: the arcs into [var], or every arc when
    no variable is given *)
Definition get_arc_queue (var : option Var) : M (list arc) :=
  fun self =>
    let cw := crossword self in
    match var with
    | Some var =>
        Ok (map (fun neighbor => (neighbor, var)) (neighbors cw var), self)
    | None =>
        Ok (flat_map (fun var => map (fun neighbor => (var, neighbor)) (neighbors cw var))
                     (variables cw), self)
    end.

(** the number of words in the store *)
Fixpoint total_size (ds : list (Var * list word)) : nat :=
  match ds with
  | [] => 0
  | (_, d) :: ds' => List.length d + total_size ds'
  end.

(** the arcs [(neighbor, x)] appended after a revision of [(x, y)] *)
Definition enqueued (cw : Crossword) (x y : Var) : list arc :=
  map (fun neighbor => (neighbor, x))
      (filter (fun neighbor => negb (var_eqb neighbor y)) (neighbors cw x)).

(** The [while arcs:] loop of [ac3]; [arcs] is the deque, popped at the
    front and appended at the back. *)
Fixpoint ac3_loop (fuel : nat) (arcs : list arc) : M bool :=
  match fuel with
  | 0 => raise OutOfFuel
  | S fuel' =>
      match arcs with
      | [] => ret true
      | (x, y) :: arcs' =>
          revised <- revise x y ;;
          if revised
          then
            dx <- domain x ;;
            if Nat.eqb (List.length dx) 0
            then ret false
            else
              fun self => ac3_loop fuel' (arcs' ++ enqueued (crossword self) x y) self
          else ac3_loop fuel' arcs'
      end
  end.

(** A bound on the iterations of the loop: every revision that changes
    something removes a word and enqueues at most one arc per variable. *)
Definition ac3_fuel (self : CrosswordCreator) (arcs : list arc) : nat :=
  total_size (domains self) * S (List.length (variables (crossword self)))
  + List.length arcs + 1.

(** [ac3(arcs=None)] *)
Definition ac3 (arcs : option (list arc)) : M bool :=
  arcs <- match arcs with
          | None => get_arc_queue None
          | Some arcs => ret arcs
          end ;;
  fun self => ac3_loop (ac3_fuel self arcs) arcs self.

(** ** Search engine *)

(** [assignment_complete] *)
Definition assignment_complete (a : assignment) : M bool :=
  fun self =>
    Ok (Nat.eqb (List.length (dict_keys a)) (List.length (variables (crossword self))), self).

(** [assignment[var]] *)
Definition lookup (a : assignment) (var : Var) : res word :=
  match dict_get a var with
  | Some w => Ok w
  | None => Raise KeyError
  end.

(** the inner loop of [consistent]; [Ok false] is the early [return False] *)
Fixpoint consistent_neighbors (cw : Crossword) (a : assignment) (var : Var)
    (ns : list Var) : res bool :=
  match ns with
  | [] => Ok true
  | neighbor :: ns' =>
      if dict_mem a neighbor
      then
        match overlaps cw var neighbor with
        | None => Raise TypeError
        | Some (i, j) =>
            do wv <- lookup a var;
            do ci <- index wv i;
            do wn <- lookup a neighbor;
            do cj <- index wn j;
            if negb (ascii_eqb ci cj) then Ok false
            else consistent_neighbors cw a var ns'
        end
      else consistent_neighbors cw a var ns'
  end.

(** the outer loop of [consistent], over the variables of the assignment *)
Fixpoint consistent_vars (cw : Crossword) (a : assignment) (vs : list Var) : res bool :=
  match vs with
  | [] => Ok true
  | var :: vs' =>
      do wv <- lookup a var;
      if negb (Nat.eqb (var_length var) (String.length wv)) then Ok false
      else
        do ok <- consistent_neighbors cw a var (neighbors cw var);
        if ok then consistent_vars cw a vs' else Ok false
  end.

(** [consistent]: first the test that the values are distinct, then the loop *)
Definition consistent (cw : Crossword) (a : assignment) : res bool :=
  if List.length (nodup string_dec (dict_values a)) <? List.length (dict_values a)
  then Ok false
  else consistent_vars cw a (dict_keys a).

(** [eliminated.add(value)] *)
Definition set_add (value : word) (s : list word) : list word :=
  if mem_word value s then s else s ++ [value].

(** the loop of [eliminate_values] over [neighbor_dom] *)
Fixpoint eliminate_scan (option : word) (i j : nat) (neighbor_dom : list word)
    (eliminated : list word) : res (list word) :=
  match neighbor_dom with
  | [] => Ok eliminated
  | value :: rest =>
      do co <- index option i;
      do cv <- index value j;
      eliminate_scan option i j rest
        (if negb (ascii_eqb co cv) then set_add value eliminated else eliminated)
  end.

(** the loop of [eliminate_values] over the unassigned neighbors; the
    set [eliminated] is shared by all of them *)
Fixpoint eliminate_neighbors (self : CrosswordCreator) (var : Var) (option : word)
    (ns : list Var) (eliminated : list word) : res (list word) :=
  match ns with
  | [] => Ok eliminated
  | neighbor :: ns' =>
      match overlaps (crossword self) var neighbor with
      | None => Raise TypeError
      | Some (i, j) =>
          do d <- get_domain self neighbor;
          let neighbor_dom := filter (fun w => negb (mem_word w eliminated)) d in
          do eliminated' <- eliminate_scan option i j neighbor_dom eliminated;
          eliminate_neighbors self var option ns' eliminated'
      end
  end.

(** [eliminate_values]: the size of [eliminated] *)
Definition eliminate_values (self : CrosswordCreator) (var : Var) (option : word)
    (a : assignment) : res nat :=
  let ns := filter (fun n => negb (dict_mem a n)) (neighbors (crossword self) var) in
  do eliminated <- eliminate_neighbors self var option ns [];
  Ok (List.length eliminated).

(** [sorted(..., key=...)]: stable, ascending; the keys are computed
    once per element, in order. *)
Fixpoint insert_by_key (p : nat * word) (l : list (nat * word)) : list (nat * word) :=
  match l with
  | [] => [p]
  | q :: l' => if fst p <=? fst q then p :: l else q :: insert_by_key p l'
  end.

Fixpoint sort_by_key (l : list (nat * word)) : list (nat * word) :=
  match l with
  | [] => []
  | p :: l' => insert_by_key p (sort_by_key l')
  end.

Fixpoint with_keys (key : word -> res nat) (l : list word) : res (list (nat * word)) :=
  match l with
  | [] => Ok []
  | w :: l' =>
      do k <- key w;
      do ks <- with_keys key l';
      Ok ((k, w) :: ks)
  end.

(** [order_domain_values] *)
Definition order_domain_values (self : CrosswordCreator) (var : Var) (a : assignment)
    : res (list word) :=
  do domain_values <- get_domain self var;
  do keyed <- with_keys (fun option => eliminate_values self var option a) domain_values;
  Ok (map snd (sort_by_key keyed)).

(** the key [(len(self.domains[var]), -len(neighbors(var)))], kept as
    (size, degree) and compared accordingly *)
Definition select_key (self : CrosswordCreator) (var : Var) : res (nat * nat) :=
  do d <- get_domain self var;
  Ok (List.length d, List.length (neighbors (crossword self) var)).

Definition key_lt (k1 k2 : nat * nat) : bool :=
  (fst k1 <? fst k2) || ((fst k1 =? fst k2) && (snd k2 <? snd k1)).

(** [min(..., key=...)] keeps the first minimal element *)
Fixpoint min_by_key (self : CrosswordCreator) (best : Var) (kbest : nat * nat)
    (vs : list Var) : res Var :=
  match vs with
  | [] => Ok best
  | v :: vs' =>
      do k <- select_key self v;
      if key_lt k kbest then min_by_key self v k vs'
      else min_by_key self best kbest vs'
  end.

(** [self.domains.keys() - assignment.keys()] *)
Definition unassigned (self : CrosswordCreator) (a : assignment) : list Var :=
  filter (fun v => negb (dict_mem a v)) (dict_keys (domains self)).

(** [select_unassigned_variable] *)
Definition select_unassigned_variable (self : CrosswordCreator) (a : assignment)
    : res Var :=
  match unassigned self a with
  | [] => Raise ValueError
  | v :: vs => do k <- select_key self v; min_by_key self v k vs
  end.

(** a [for] loop whose body may [return] a value *)
Definition first_some {A R} (body : A -> M (option R)) : list A -> M (option R) :=
  fix go (l : list A) : M (option R) :=
    match l with
    | [] => ret None
    | a :: l' =>
        r <- body a ;;
        match r with
        | Some v => ret (Some v)
        | None => go l'
        end
    end.

(** the body of [backtrack], with the recursive call as a parameter; its
    first test is the expression of [assignment_complete], which the
    source repeats inline *)
Definition backtrack_body (backtrack : assignment -> M (option assignment))
    (a : assignment) : M (option assignment) :=
  complete <- assignment_complete a ;;
  if complete then ret (Some a)
  else
    variable <- reads (fun self => select_unassigned_variable self a) ;;
    d <- domain variable ;;
    first_some (fun w =>
      let new_assignment := dict_set a variable w in
      ok <- reads (fun self => consistent (crossword self) new_assignment) ;;
      if ok then backtrack new_assignment
      else ret None) d.

Fixpoint backtrack_rec (fuel : nat) (a : assignment) : M (option assignment) :=
  match fuel with
  | 0 => raise OutOfFuel
  | S fuel' => backtrack_body (backtrack_rec fuel') a
  end.

(** Each call assigns one more variable, so the depth of the recursion
    is bounded by the number of variables not yet assigned. *)
Definition backtrack (a : assignment) : M (option assignment) :=
  fun self => backtrack_rec (S (List.length (unassigned self a))) a self.

(** [solve]: the result of [ac3] is dropped *)
Definition solve : M (option assignment) :=
  enforce_node_consistency ;;
  ac3 None ;;
  backtrack [].

(** ** Notions used by the statements *)

(** the domain of a variable as a list of words (empty when absent) *)
Definition dom_of (self : CrosswordCreator) (v : Var) : list word :=
  match dict_get (domains self) v with
  | Some d => d
  | None => []
  end.

(** character [i] of [w] exists and equals character [j] of [v] *)
Definition agree (w : word) (i : nat) (v : word) (j : nat) : Prop :=
  exists c, String.get i w = Some c /\ String.get j v = Some c.

Definition agree_b (w : word) (i : nat) (v : word) (j : nat) : bool :=
  match String.get i w, String.get j v with
  | Some a, Some b => ascii_eqb a b
  | _, _ => false
  end.

Definition supported_b (w : word) (i j : nat) (dy : list word) : bool :=
  existsb (fun v => agree_b w i v j) dy.

Definition fits (var : Var) (w : word) : bool :=
  Nat.eqb (String.length w) (var_length var).

Definition node_consistent (self : CrosswordCreator) : Prop :=
  forall v d w, dict_get (domains self) v = Some d -> In w d ->
                String.length w = var_length v.

Definition arc_consistent (self : CrosswordCreator) : Prop :=
  forall x y ix iy,
    In x (variables (crossword self)) -> In y (variables (crossword self)) ->
    x <> y -> overlaps (crossword self) x y = Some (ix, iy) ->
    forall w, In w (dom_of self x) ->
              exists v, In v (dom_of self y) /\ agree w ix v iy.

(** the overlap map is symmetric, with the indices swapped *)
Definition symmetric_overlaps (cw : Crossword) : Prop :=
  forall x y i j, In x (variables cw) -> In y (variables cw) ->
                  overlaps cw x y = Some (i, j) -> overlaps cw y x = Some (j, i).

(** the store has exactly the crossword's variables as keys *)
Definition creator_ok (self : CrosswordCreator) : Prop :=
  dict_keys (domains self) = variables (crossword self).

(** the arcs of a worklist join distinct variables of the crossword *)
Definition arcs_ok (cw : Crossword) (q : list arc) : Prop :=
  forall x y, In (x, y) q -> In x (variables cw) /\ In y (variables cw) /\ x <> y.

(** every word of [x]'s domain has a partner in [y]'s domain *)
Definition arc_ok (self : CrosswordCreator) (x y : Var) (ix iy : nat) : Prop :=
  forall w, In w (dom_of self x) ->
            exists v, In v (dom_of self y) /\ agree w ix v iy.

(** the invariant of the worklist loop: an arc is pending or consistent *)
Definition arc_inv (self : CrosswordCreator) (q : list arc) : Prop :=
  forall x y ix iy,
    In x (variables (crossword self)) -> In y (variables (crossword self)) ->
    x <> y -> overlaps (crossword self) x y = Some (ix, iy) ->
    In (x, y) q \/ arc_ok self x y ix iy.

(** the result is not the embedding's own failure *)
Definition fuel_free {A} (r : res A) : Prop := r <> Raise OutOfFuel.

(** what the search maintains of a partial assignment: its keys are
    distinct variables of the store and [consistent] accepts it *)
Definition assignment_ok (self : CrosswordCreator) (a : assignment) : Prop :=
  NoDup (dict_keys a) /\
  incl (dict_keys a) (dict_keys (domains self)) /\
  consistent (crossword self) a = Ok true.

(** character [i] of [option] and character [j] of [value] exist and differ *)
Definition differ (option : word) (i : nat) (value : word) (j : nat) : Prop :=
  exists a b, String.get i option = Some a /\ String.get j value = Some b /\ a <> b.

Definition differ_b (option : word) (i : nat) (value : word) (j : nat) : bool :=
  match String.get i option, String.get j value with
  | Some a, Some b => negb (ascii_eqb a b)
  | _, _ => false
  end.

(** [value] is in the domain of an unassigned neighbor of [var] and is
    ruled out there by the choice of [option] for [var] *)
Definition ruled_out (self : CrosswordCreator) (var : Var) (option : word)
    (a : assignment) (value : word) : Prop :=
  exists neighbor i j,
    In neighbor (neighbors (crossword self) var) /\
    ~ In neighbor (dict_keys a) /\
    overlaps (crossword self) var neighbor = Some (i, j) /\
    In value (dom_of self neighbor) /\
    differ option i value j.

(** The least-constraining-value score as the specification words it:
    the eliminations are counted neighbor by neighbor and added up. *)
Definition per_neighbor_score (self : CrosswordCreator) (var : Var) (option : word)
    (a : assignment) : nat :=
  list_sum
    (map (fun neighbor =>
            match overlaps (crossword self) var neighbor with
            | Some (i, j) =>
                List.length (filter (fun value => differ_b option i value j)
                                    (dom_of self neighbor))
            | None => 0
            end)
         (filter (fun n => negb (dict_mem a n)) (neighbors (crossword self) var))).

(** The search as the specification words it: the candidates of the
    selected variable are tried in the order of [order_domain_values]. *)
Fixpoint backtrack_lcv_rec (fuel : nat) (a : assignment) : M (option assignment) :=
  match fuel with
  | 0 => raise OutOfFuel
  | S fuel' =>
      complete <- assignment_complete a ;;
      if complete then ret (Some a)
      else
        variable <- reads (fun self => select_unassigned_variable self a) ;;
        candidates <- reads (fun self => order_domain_values self variable a) ;;
        first_some (fun w =>
          let new_assignment := dict_set a variable w in
          ok <- reads (fun self => consistent (crossword self) new_assignment) ;;
          if ok then backtrack_lcv_rec fuel' new_assignment
          else ret None) candidates
  end.

Definition backtrack_lcv (a : assignment) : M (option assignment) :=
  fun self => backtrack_lcv_rec (S (List.length (unassigned self a))) a self.

(** what a caller observes of a run: the value returned or the
    exception raised *)
Definition outcome {A} (r : res (A * CrosswordCreator)) : res A :=
  match r with
  | Ok (a, _) => Ok a
  | Raise e => Raise e
  end.

(** the overlap indices of two variables lie within their lengths *)
Definition in_range_overlaps (cw : Crossword) : Prop :=
  forall x y i j, In x (variables cw) -> In y (variables cw) ->
                  overlaps cw x y = Some (i, j) ->
                  i < var_length x /\ j < var_length y.

(** what the problem graph guarantees: its variables and its vocabulary
    are sets, and its overlaps are symmetric and within the slots *)
Definition well_formed (cw : Crossword) : Prop :=
  NoDup (variables cw) /\ NoDup (words cw) /\
  symmetric_overlaps cw /\ in_range_overlaps cw.

(** every domain of the store is a set *)
Definition store_is_set (self : CrosswordCreator) : Prop :=
  forall v d, dict_get (domains self) v = Some d -> NoDup d.

(** what the search maintains of the words of a partial assignment *)
Definition assignment_fits (cw : Crossword) (a : assignment) : Prop :=
  NoDup (dict_keys a) /\
  incl (dict_keys a) (variables cw) /\
  forall v w, dict_get a v = Some w -> String.length w = var_length v.

(** the invariant of the store through the passes of [solve] *)
Definition store_inv (cw : Crossword) (s : CrosswordCreator) : Prop :=
  crossword s = cw /\ creator_ok s /\ store_is_set s /\ node_consistent s.

(** a checker for the range of the overlap indices *)
Definition in_range_overlaps_b (cw : Crossword) : bool :=
  forallb (fun x =>
    forallb (fun y =>
      match overlaps cw x y with
      | None => true
      | Some (i, j) => (i <? var_length x) && (j <? var_length y)
      end) (variables cw)) (variables cw).

(** a checker for the symmetry of the overlap map *)
Definition symmetric_overlaps_b (cw : Crossword) : bool :=
  forallb (fun x =>
    forallb (fun y =>
      match overlaps cw x y with
      | None => true
      | Some (i, j) =>
          match overlaps cw y x with
          | Some (j', i') => Nat.eqb i i' && Nat.eqb j j'
          | None => false
          end
      end) (variables cw)) (variables cw).

(** ** Worked instances *)

Module Example.
(** two crossing slots of length 3 sharing their first cell *)
Definition x : Var := mkVar 0 0 ACROSS 3.
Definition y : Var := mkVar 0 0 DOWN 3.

Definition overlap_table (table : list (Var * Var * (nat * nat))) (a b : Var)
    : option (nat * nat) :=
  match find (fun e => var_eqb (fst (fst e)) a && var_eqb (snd (fst e)) b) table with
  | Some e => Some (snd e)
  | None => None
  end.

Definition cw : Crossword :=
  mkCrossword [x; y]
    ["abc"; "ade"; "bcd"; "bef"; "bgh"; "toolong"]%string
    (overlap_table [(x, y, (0, 0)); (y, x, (0, 0))]).

(** the store after node consistency (and after [ac3], which removes
    nothing here) *)
Definition pruned : CrosswordCreator :=
  {| crossword := cw;
     domains := [(x, ["abc"; "ade"; "bcd"; "bef"; "bgh"]%string);
                 (y, ["abc"; "ade"; "bcd"; "bef"; "bgh"]%string)] |}.

Definition solution : assignment := [(x, "abc"%string); (y, "ade"%string)].

(** a slot of length 3 crossing a slot of length 2 whose words clash *)
Definition u : Var := mkVar 0 0 ACROSS 3.
Definition v : Var := mkVar 0 0 DOWN 2.
Definition clash : Crossword :=
  mkCrossword [u; v] ["abc"; "xy"]%string
    (overlap_table [(u, v, (0, 0)); (v, u, (0, 0))]).
Definition clash_checked : CrosswordCreator :=
  {| crossword := clash;
     domains := [(u, ["abc"]%string); (v, ["xy"]%string)] |}.
Definition clash_failed : CrosswordCreator :=
  {| crossword := clash;
     domains := [(u, []); (v, ["xy"]%string)] |}.

(** an across slot crossed by two down slots, at its first and last cell *)
Definition top : Var := mkVar 0 0 ACROSS 3.
Definition left : Var := mkVar 0 0 DOWN 3.
Definition right : Var := mkVar 0 2 DOWN 3.
Definition fork : Crossword :=
  mkCrossword [top; left; right] ["aba"; "bab"]%string
    (overlap_table [(top, left, (0, 0)); (left, top, (0, 0));
                    (top, right, (2, 0)); (right, top, (0, 2))]).
End Example.

(** ** Rendering: [letter_grid] *)

(** [l[n] = a] on a Python list *)
Fixpoint list_set {A} (l : list A) (n : nat) (a : A) : res (list A) :=
  match l, n with
  | [], _ => Raise IndexError
  | _ :: l', 0 => Ok (a :: l')
  | x :: l', S n' => do l'' <- list_set l' n' a; Ok (x :: l'')
  end.

(** [l[n]] on a Python list *)
Definition list_get {A} (l : list A) (n : nat) : res A :=
  match nth_error l n with
  | Some a => Ok a
  | None => Raise IndexError
  end.

(** the 2D array of [letter_grid]: a cell holds None or a letter *)
Definition grid : Type := list (list (option ascii)).

(** [letters[i][j] = c] *)
Definition set_cell (letters : grid) (i j : nat) (c : ascii) : res grid :=
  do row <- list_get letters i;
  do row' <- list_set row j (Some c);
  list_set letters i row'.

(** the cell of the [k]-th letter of a variable *)
Definition cell_of (variable : Var) (k : nat) : nat * nat :=
  (var_i variable + match var_direction variable with DOWN => k | ACROSS => 0 end,
   var_j variable + match var_direction variable with ACROSS => k | DOWN => 0 end).

(** the loop [for k in range(len(word))] of [letter_grid], at letter [k]
    with [chars] the letters of the word from [k] on *)
Fixpoint place_word (variable : Var) (chars : list ascii) (k : nat) (letters : grid)
    : res grid :=
  match chars with
  | [] => Ok letters
  | c :: rest =>
      let (i, j) := cell_of variable k in
      do letters' <- set_cell letters i j c;
      place_word variable rest (S k) letters'
  end.

(** the loop [for variable, word in assignment.items()] of [letter_grid] *)
Fixpoint place_words (a : assignment) (letters : grid) : res grid :=
  match a with
  | [] => Ok letters
  | (variable, word) :: a' =>
      do letters' <- place_word variable (list_ascii_of_string word) 0 letters;
      place_words a' letters'
  end.

(** [letter_grid]; [width] and [height] are the fields of the crossword
    that the problem graph of this development does not carry *)
Definition letter_grid (width height : nat) (a : assignment) : res grid :=
  place_words a (repeat (repeat None width) height).

(** ** Notions used by the further properties *)

(** [letters[i][j]] read back, None outside of the array *)
Definition cell (letters : grid) (i j : nat) : option (option ascii) :=
  match nth_error letters i with
  | Some row => nth_error row j
  | None => None
  end.

(** the slot of a word lies within the array *)
Definition in_grid (width height : nat) (variable : Var) (w : word) : Prop :=
  forall k, k < String.length w ->
            fst (cell_of variable k) < height /\ snd (cell_of variable k) < width.

(** some entry of the assignment writes [c] to the cell [(i, j)] *)
Definition writes (a : assignment) (i j : nat) (c : ascii) : Prop :=
  exists variable w k,
    In (variable, w) a /\ String.get k w = Some c /\ cell_of variable k = (i, j).

(** a choice of one word per variable *)
Definition choice : Type := Var -> word.

(** the words of the choice are in the domains of the store *)
Definition supports (self : CrosswordCreator) (f : choice) : Prop :=
  forall v, In v (variables (crossword self)) -> In (f v) (dom_of self v).

(** the assignment is a part of the choice *)
Definition part_of (a : assignment) (f : choice) : Prop :=
  forall v w, dict_get a v = Some w -> w = f v.

(** the binary constraints: overlapping variables agree at the overlap *)
Definition overlaps_agree (cw : Crossword) (f : choice) : Prop :=
  forall x y i j,
    In x (variables cw) -> In y (variables cw) -> x <> y ->
    overlaps cw x y = Some (i, j) -> agree (f x) i (f y) j.

(** a solution of the crossword: distinct words of the right lengths
    that agree at the overlaps *)
Definition solution (cw : Crossword) (f : choice) : Prop :=
  (forall v1 v2, In v1 (variables cw) -> In v2 (variables cw) ->
                 f v1 = f v2 -> v1 = v2) /\
  (forall v, In v (variables cw) -> String.length (f v) = var_length v) /\
  overlaps_agree cw f.

(** the store [s'] is the store [s] with words removed: same graph,
    same keys, and every domain a filtered copy of what it was *)
Definition pruned_from (s s' : CrosswordCreator) : Prop :=
  crossword s' = crossword s /\
  dict_keys (domains s') = dict_keys (domains s) /\
  forall v, exists removed,
    dict_get (domains s') v =
    option_map (filter (fun w => negb (mem_word w removed))) (dict_get (domains s) v).

(** the score of a candidate as [order_domain_values] computes it
    (0 when [eliminate_values] raises) *)
Definition lcv_score (self : CrosswordCreator) (var : Var) (a : assignment)
    (option : word) : nat :=
  match eliminate_values self var option a with
  | Ok n => n
  | Raise _ => 0
  end.

(** the array has [height] rows of [width] cells *)
Definition shape (width height : nat) (letters : grid) : Prop :=
  List.length letters = height /\
  Forall (fun row => List.length row = width) letters.

(** a write [letters[i][j] = c] *)
Definition stroke : Type := (nat * nat * ascii)%type.

(** the writes of one word, letter [k] onwards, in the order of the loop *)
Fixpoint strokes_of (variable : Var) (chars : list ascii) (k : nat) : list stroke :=
  match chars with
  | [] => []
  | c :: rest => (cell_of variable k, c) :: strokes_of variable rest (S k)
  end.

(** the writes of [letter_grid] on an assignment, in the order of its loops *)
Definition strokes (a : assignment) : list stroke :=
  flat_map (fun e => strokes_of (fst e) (list_ascii_of_string (snd e)) 0) a.

(** a sequence of writes *)
Fixpoint draw (l : list stroke) (letters : grid) : res grid :=
  match l with
  | [] => Ok letters
  | (i, j, c) :: l' => do letters' <- set_cell letters i j c; draw l' letters'
  end.

(** ** Further worked instances *)

Module Cases.
(** [Example.cw] after the domain of [x] has been cut down to two words *)
Definition narrowed : CrosswordCreator :=
  {| crossword := Example.cw;
     domains := [(Example.x, ["abc"; "ade"]%string);
                 (Example.y, ["abc"; "ade"; "bcd"; "bef"; "bgh"]%string)] |}.

(** and after propagation from [x] *)
Definition narrowed_done : CrosswordCreator :=
  {| crossword := Example.cw;
     domains := [(Example.x, ["abc"; "ade"]%string);
                 (Example.y, ["abc"; "ade"]%string)] |}.

(** the choice of [Example.solution] *)
Definition pick : choice :=
  fun variable => if var_eqb variable Example.x then "abc"%string else "ade"%string.

(** two choices of words for [Example.fork] *)
Definition all_aba : choice := fun _ => "aba"%string.
Definition fill : choice :=
  fun variable => if var_eqb variable Example.top then "bab"%string else "aba"%string.

(** [Example.solution] on a 3 by 3 array *)
Definition grid3 : grid :=
  [[Some "a"%char; Some "b"%char; Some "c"%char];
   [Some "d"%char; None; None];
   [Some "e"%char; None; None]].
End Cases.

(** ** The iteration order of the sets built during a run

    [self.crossword.neighbors(var)] and
    [self.domains.keys() - assignment.keys()] are sets built afresh at
    each call.  A set iterates in the order of the hashes of its
    elements, which neither the order of [variables] nor that of the
    dicts determines, and which changes from one interpreter process to
    the next.  The definitions above iterate these sets in the stored
    order; the definitions of this section are the same methods with
    the two orders as parameters:
    - [nb cw var] is the list in which [cw.neighbors(var)] iterates;
    - [sel l] is the list in which the set of the elements of [l]
      iterates. *)

Section Orders.
Variable nb : Crossword -> Var -> list Var.
Variable sel : list Var -> list Var.

(** [get_arc_queue(var=None)] *)
Definition get_arc_queue_in (var : option Var) : M (list arc) :=
  fun self =>
    let cw := crossword self in
    match var with
    | Some var =>
        Ok (map (fun neighbor => (neighbor, var)) (nb cw var), self)
    | None =>
        Ok (flat_map (fun var => map (fun neighbor => (var, neighbor)) (nb cw var))
                     (variables cw), self)
    end.

(** the arcs [(neighbor, x)] appended after a revision of [(x, y)] *)
Definition enqueued_in (cw : Crossword) (x y : Var) : list arc :=
  map (fun neighbor => (neighbor, x))
      (filter (fun neighbor => negb (var_eqb neighbor y)) (nb cw x)).

(** the [while arcs:] loop of [ac3] *)
Fixpoint ac3_loop_in (fuel : nat) (arcs : list arc) : M bool :=
  match fuel with
  | 0 => raise OutOfFuel
  | S fuel' =>
      match arcs with
      | [] => ret true
      | (x, y) :: arcs' =>
          revised <- revise x y ;;
          if revised
          then
            dx <- domain x ;;
            if Nat.eqb (List.length dx) 0
            then ret false
            else
              fun self => ac3_loop_in fuel' (arcs' ++ enqueued_in (crossword self) x y) self
          else ac3_loop_in fuel' arcs'
      end
  end.

(** [ac3(arcs=None)] *)
Definition ac3_in (arcs : option (list arc)) : M bool :=
  arcs <- match arcs with
          | None => get_arc_queue_in None
          | Some arcs => ret arcs
          end ;;
  fun self => ac3_loop_in (ac3_fuel self arcs) arcs self.

(** the outer loop of [consistent] *)
Fixpoint consistent_vars_in (cw : Crossword) (a : assignment) (vs : list Var)
    : res bool :=
  match vs with
  | [] => Ok true
  | var :: vs' =>
      do wv <- lookup a var;
      if negb (Nat.eqb (var_length var) (String.length wv)) then Ok false
      else
        do ok <- consistent_neighbors cw a var (nb cw var);
        if ok then consistent_vars_in cw a vs' else Ok false
  end.

(** [consistent] *)
Definition consistent_in (cw : Crossword) (a : assignment) : res bool :=
  if List.length (nodup string_dec (dict_values a)) <? List.length (dict_values a)
  then Ok false
  else consistent_vars_in cw a (dict_keys a).

(** [select_unassigned_variable]: [min] keeps the first minimal element
    in the order in which the set of the unassigned variables iterates
    (the key takes the number of neighbors only, which no order
    changes) *)
Definition select_unassigned_variable_in (self : CrosswordCreator) (a : assignment)
    : res Var :=
  match sel (unassigned self a) with
  | [] => Raise ValueError
  | v :: vs => do k <- select_key self v; min_by_key self v k vs
  end.

(** the body of [backtrack] *)
Definition backtrack_body_in (backtrack : assignment -> M (option assignment))
    (a : assignment) : M (option assignment) :=
  complete <- assignment_complete a ;;
  if complete then ret (Some a)
  else
    variable <- reads (fun self => select_unassigned_variable_in self a) ;;
    d <- domain variable ;;
    first_some (fun w =>
      let new_assignment := dict_set a variable w in
      ok <- reads (fun self => consistent_in (crossword self) new_assignment) ;;
      if ok then backtrack new_assignment
      else ret None) d.

Fixpoint backtrack_rec_in (fuel : nat) (a : assignment) : M (option assignment) :=
  match fuel with
  | 0 => raise OutOfFuel
  | S fuel' => backtrack_body_in (backtrack_rec_in fuel') a
  end.

(** [backtrack], on the same bound as above *)
Definition backtrack_in (a : assignment) : M (option assignment) :=
  fun self => backtrack_rec_in (S (List.length (unassigned self a))) a self.

(** [solve] *)
Definition solve_in : M (option assignment) :=
  enforce_node_consistency ;;
  ac3_in None ;;
  backtrack_in [].
End Orders.

(** [nb] lists the neighbors of each variable of [cw], in some order *)
Definition neighbors_order (cw : Crossword) (nb : Crossword -> Var -> list Var) : Prop :=
  forall var, Permutation (nb cw var) (neighbors cw var).

(** [sel] lists the elements it is given, in some order *)
Definition set_order (sel : list Var -> list Var) : Prop :=
  forall l, Permutation (sel l) l.

(** the stored order, and its reverse *)
Definition stored_order : list Var -> list Var := fun l => l.
Definition reverse_order : list Var -> list Var := fun l => rev l.
Definition reverse_neighbors : Crossword -> Var -> list Var :=
  fun cw var => rev (neighbors cw var).

(** two orders that agree on the sets of variables of [cw] *)
Definition same_order (cw : Crossword) (sel1 sel2 : list Var -> list Var) : Prop :=
  forall l, incl l (variables cw) -> sel1 l = sel2 l.

(** the crossword has a solution in its vocabulary *)
Definition solvable (cw : Crossword) : Prop :=
  exists f, (forall v, In v (variables cw) -> In (f v) (words cw)) /\ solution cw f.

(** the store holds an empty domain *)
Definition has_empty (s : CrosswordCreator) : Prop :=
  exists x, In x (dict_keys (domains s)) /\ dom_of s x = [].

(** the domains of [r] are within those of [s] *)
Definition within (r s : CrosswordCreator) : Prop :=
  forall v, incl (dom_of r v) (dom_of s v).

(** the choice that an assignment makes *)
Definition choice_of (a : assignment) : choice :=
  fun v => match dict_get a v with Some w => w | None => EmptyString end.

(** the store that holds the words of a choice and nothing else *)
Definition store_of (cw : Crossword) (f : choice) : CrosswordCreator :=
  {| crossword := cw; domains := map (fun v => (v, [f v])) (variables cw) |}.

(** * Verification *)

(** ** Facts on dicts *)

Section DictFacts.
Context {A : Type}.
Implicit Types (d : list (Var * A)) (k : Var) (a : A).

Lemma dict_get_set_eq d k a : dict_get (dict_set d k a) k = Some a.
Proof.
  induction d as [|[k' a'] d IH]; simpl.
  - destruct (Var_eq_dec k k); congruence.
  - destruct (Var_eq_dec k' k) as [E|E]; simpl;
      destruct (Var_eq_dec k' k); congruence.
Qed.

Lemma dict_get_set_neq d k k' a :
  k' <> k -> dict_get (dict_set d k a) k' = dict_get d k'.
Proof.
  intros Hne. induction d as [|[k0 a0] d IH]; simpl.
  - destruct (Var_eq_dec k k'); congruence.
  - destruct (Var_eq_dec k0 k) as [E|E]; simpl;
      destruct (Var_eq_dec k0 k'); congruence.
Qed.

Lemma dict_get_in_keys d k a : dict_get d k = Some a -> In k (dict_keys d).
Proof.
  induction d as [|[k0 a0] d IH]; simpl; [discriminate|].
  destruct (Var_eq_dec k0 k); auto.
Qed.

Lemma dict_get_None d k : dict_get d k = None <-> ~ In k (dict_keys d).
Proof.
  induction d as [|[k0 a0] d IH]; simpl.
  - tauto.
  - destruct (Var_eq_dec k0 k); split; intros; try discriminate; try tauto.
Qed.

Lemma in_keys_dict_get d k : In k (dict_keys d) -> exists a, dict_get d k = Some a.
Proof.
  intros Hin. destruct (dict_get d k) eqn:E; eauto.
  apply dict_get_None in E. contradiction.
Qed.

Lemma dict_keys_set_present d k a a0 :
  dict_get d k = Some a0 -> dict_keys (dict_set d k a) = dict_keys d.
Proof.
  induction d as [|[k0 a1] d IH]; simpl; [discriminate|].
  destruct (Var_eq_dec k0 k); simpl; intros; [reflexivity|].
  f_equal. auto.
Qed.

Lemma dict_keys_set_absent d k a :
  dict_get d k = None -> dict_keys (dict_set d k a) = dict_keys d ++ [k].
Proof.
  induction d as [|[k0 a1] d IH]; simpl; [reflexivity|].
  destruct (Var_eq_dec k0 k); simpl; intros; [discriminate|].
  f_equal. auto.
Qed.

Lemma dict_mem_true d k : dict_mem d k = true <-> In k (dict_keys d).
Proof.
  unfold dict_mem. split.
  - destruct (dict_get d k) eqn:E; simpl; [|discriminate].
    intros _. eapply dict_get_in_keys; eauto.
  - intros H. apply in_keys_dict_get in H as [a ->]. reflexivity.
Qed.

Lemma dict_mem_false d k : dict_mem d k = false <-> ~ In k (dict_keys d).
Proof.
  rewrite <- dict_mem_true. destruct (dict_mem d k); intuition congruence.
Qed.

Lemma dict_get_in d k a : dict_get d k = Some a -> In (k, a) d.
Proof.
  induction d as [|[k0 a0] d IH]; simpl; [discriminate|].
  destruct (Var_eq_dec k0 k); intros H; [left; congruence | right; auto].
Qed.
End DictFacts.

Lemma mem_word_true w l : mem_word w l = true <-> In w l.
Proof. unfold mem_word. destruct (in_dec string_dec w l); intuition congruence. Qed.

Lemma mem_word_false w l : mem_word w l = false <-> ~ In w l.
Proof. unfold mem_word. destruct (in_dec string_dec w l); intuition congruence. Qed.

Lemma var_eqb_true a b : var_eqb a b = true <-> a = b.
Proof. unfold var_eqb. destruct (Var_eq_dec a b); intuition congruence. Qed.

Lemma var_eqb_false a b : var_eqb a b = false <-> a <> b.
Proof. unfold var_eqb. destruct (Var_eq_dec a b); intuition congruence. Qed.

Lemma ascii_eqb_true a b : ascii_eqb a b = true <-> a = b.
Proof. unfold ascii_eqb. destruct (ascii_dec a b); intuition congruence. Qed.

Lemma in_neighbors cw var v :
  In v (neighbors cw var) <->
  In v (variables cw) /\ v <> var /\ overlaps cw v var <> None.
Proof.
  unfold neighbors. rewrite filter_In, andb_true_iff, negb_true_iff, var_eqb_false.
  destruct (overlaps cw v var); simpl; intuition congruence.
Qed.

Lemma neighbors_length cw var :
  List.length (neighbors cw var) <= List.length (variables cw).
Proof. apply filter_length_le. Qed.

(** ** Inversion of monadic steps *)

Lemma bind_Ok {A B} (m : M A) (k : A -> M B) s b s' :
  bind m k s = Ok (b, s') ->
  exists a s1, m s = Ok (a, s1) /\ k a s1 = Ok (b, s').
Proof.
  unfold bind. destruct (m s) as [[a s1]|e]; [eauto | discriminate].
Qed.

Lemma reads_Ok {A} (f : CrosswordCreator -> res A) s a s' :
  reads f s = Ok (a, s') -> f s = Ok a /\ s' = s.
Proof. unfold reads. destruct (f s); intros H; inversion H; auto. Qed.

Lemma lift_Ok {A} (r : res A) s a s' :
  lift r s = Ok (a, s') -> r = Ok a /\ s' = s.
Proof. unfold lift. destruct r; intros H; inversion H; auto. Qed.

Lemma ret_Ok {A} (a : A) s b s' : ret a s = Ok (b, s') -> b = a /\ s' = s.
Proof. unfold ret. intros H; inversion H; auto. Qed.

Lemma domain_Ok x s d s' :
  domain x s = Ok (d, s') -> dict_get (domains s) x = Some d /\ s' = s.
Proof.
  unfold domain. intros H. apply reads_Ok in H as [H ->]. split; [|reflexivity].
  unfold get_domain in H. destruct (dict_get (domains s) x); congruence.
Qed.

Lemma domain_of_get x s d :
  dict_get (domains s) x = Some d -> domain x s = Ok (d, s).
Proof. unfold domain, reads, get_domain. intros ->. reflexivity. Qed.

Lemma remove_word_Ok x w s u s' :
  remove_word x w s = Ok (u, s') ->
  exists d, dict_get (domains s) x = Some d /\ In w d /\
            s' = {| crossword := crossword s;
                    domains := dict_set (domains s) x (remove string_dec w d) |}.
Proof.
  unfold remove_word. destruct (dict_get (domains s) x) as [d|]; [|discriminate].
  destruct (mem_word w d) eqn:E; [|discriminate].
  intros H. inversion H. exists d. rewrite mem_word_true in E. auto.
Qed.

(** Stepping through a monadic equation in a hypothesis. *)
Ltac minv H :=
  match type of H with
  | bind _ _ _ = Ok _ =>
      let a := fresh "a" in let s1 := fresh "s" in
      let H1 := fresh "Hstep" in
      apply bind_Ok in H as (a & s1 & H1 & H); minv H1
  | ret _ _ = Ok _ => apply ret_Ok in H as [? ?]; subst
  | domain _ _ = Ok _ => apply domain_Ok in H as [H ?]; subst
  | reads _ _ = Ok _ => apply reads_Ok in H as [H ?]; subst
  | lift _ _ = Ok _ => apply lift_Ok in H as [H ?]; subst
  | _ => idtac
  end.

Lemma filter_filter {A} (f g : A -> bool) l :
  filter f (filter g l) = filter (fun a => g a && f a) l.
Proof.
  induction l as [|a l IH]; simpl; [reflexivity|].
  destruct (g a); simpl; [destruct (f a)|]; simpl; congruence.
Qed.

Lemma filter_all {A} (f : A -> bool) l :
  (forall a, In a l -> f a = true) -> filter f l = l.
Proof.
  induction l as [|a l IH]; simpl; intros H; [reflexivity|].
  rewrite (H a (or_introl eq_refl)). f_equal. auto.
Qed.

(** ** Node consistency *)

Lemma mem_word_cons w' w l :
  mem_word w' (w :: l) = if string_dec w w' then true else mem_word w' l.
Proof.
  unfold mem_word. destruct (string_dec w w') as [E|E].
  - destruct (in_dec string_dec w' (w :: l)) as [_|n]; [reflexivity|].
    exfalso. apply n. left. assumption.
  - destruct (in_dec string_dec w' (w :: l)) as [[E'|i]|n];
      destruct (in_dec string_dec w' l) as [i'|n']; auto; try contradiction.
    exfalso. apply n. right. assumption.
Qed.

Lemma mem_word_nil w : mem_word w [] = false.
Proof. reflexivity. Qed.

Lemma remove_as_filter w (d : list word) :
  remove string_dec w d = filter (fun w' => negb (mem_word w' [w])) d.
Proof.
  induction d as [|a d IH]; simpl; [reflexivity|].
  rewrite mem_word_cons, mem_word_nil.
  destruct (string_dec w a); simpl; [exact IH | f_equal; exact IH].
Qed.

Lemma node_inner var l : forall s s' u d,
  for_each l (node_body var) s = Ok (u, s') ->
  dict_get (domains s) var = Some d ->
  crossword s' = crossword s /\
  dict_keys (domains s') = dict_keys (domains s) /\
  (forall v, v <> var -> dict_get (domains s') v = dict_get (domains s) v) /\
  dict_get (domains s') var =
    Some (filter (fun w => negb (mem_word w l) || fits var w) d).
Proof.
  induction l as [|w l IH]; intros s s' u d H Hd; simpl in H.
  - minv H. repeat split; auto.
    rewrite Hd. f_equal. symmetry. apply filter_all. reflexivity.
  - minv H. unfold node_body in Hstep.
    destruct (Nat.eqb (String.length w) (var_length var)) eqn:Hfit; simpl in Hstep.
    + minv Hstep. destruct (IH _ _ _ _ H Hd) as (Hc & Hk & Ho & Hv).
      repeat split; auto. rewrite Hv. f_equal. apply filter_ext_in.
      intros w' _. rewrite mem_word_cons.
      destruct (string_dec w w') as [<-|E]; [|reflexivity].
      unfold fits. rewrite Hfit. simpl. apply orb_true_r.
    + apply remove_word_Ok in Hstep as (d0 & Hd0 & Hin & ->).
      rewrite Hd in Hd0. inversion Hd0; subst d0; clear Hd0.
      specialize (IH _ _ _ (remove string_dec w d) H).
      simpl in IH. rewrite dict_get_set_eq in IH.
      destruct (IH eq_refl) as (Hc & Hk & Ho & Hv).
      repeat split; auto.
      * rewrite Hk. eapply dict_keys_set_present; eauto.
      * intros v Hne. rewrite Ho by assumption. apply dict_get_set_neq; assumption.
      * rewrite Hv. f_equal. rewrite remove_as_filter, filter_filter.
        apply filter_ext_in. intros w' _. rewrite !mem_word_cons, mem_word_nil.
        destruct (string_dec w w') as [<-|E]; simpl; [|reflexivity].
        unfold fits. rewrite Hfit. reflexivity.
Qed.

Lemma bind_of_Ok {A B} (m : M A) (k : A -> M B) s a s1 :
  m s = Ok (a, s1) -> bind m k s = k a s1.
Proof. unfold bind. intros ->. reflexivity. Qed.

Lemma mem_var_true v l : mem_var v l = true <-> In v l.
Proof. unfold mem_var. destruct (in_dec Var_eq_dec v l); intuition congruence. Qed.

Lemma mem_var_false v l : mem_var v l = false <-> ~ In v l.
Proof. unfold mem_var. destruct (in_dec Var_eq_dec v l); intuition congruence. Qed.

Lemma mem_var_cons_neq v var l : v <> var -> mem_var v (var :: l) = mem_var v l.
Proof.
  intros Hne. destruct (mem_var v l) eqn:E.
  - apply mem_var_true. right. apply mem_var_true. exact E.
  - apply mem_var_false. intros [H|H]; [congruence|].
    apply mem_var_false in E. contradiction.
Qed.

Lemma node_outer l : forall s s' u,
  for_each l (fun var => d <- domain var ;; for_each d (node_body var)) s = Ok (u, s') ->
  crossword s' = crossword s /\
  dict_keys (domains s') = dict_keys (domains s) /\
  forall v, dict_get (domains s') v =
            option_map (fun d => if mem_var v l then filter (fits v) d else d)
                       (dict_get (domains s) v).
Proof.
  induction l as [|var l IH]; intros s s' u H; simpl in H.
  - minv H. repeat split; auto. intros v.
    destruct (dict_get (domains s) v); reflexivity.
  - minv H. rename a0 into d.
    destruct (node_inner _ _ _ _ _ _ Hstep Hstep0) as (Hc1 & Hk1 & Ho1 & Hv1).
    destruct (IH _ _ _ H) as (Hc & Hk & Hv).
    repeat split; try congruence.
    intros v. rewrite Hv.
    destruct (Var_eq_dec v var) as [->|Hne].
    + rewrite Hv1, Hstep0. cbn [option_map].
      rewrite (proj2 (mem_var_true var (var :: l)) (or_introl eq_refl)).
      assert (E : filter (fun w => negb (mem_word w d) || fits var w) d
                  = filter (fits var) d).
      { apply filter_ext_in. intros w Hw.
        apply mem_word_true in Hw. rewrite Hw. reflexivity. }
      rewrite E. f_equal.
      destruct (mem_var var l); [|reflexivity].
      rewrite filter_filter. apply filter_ext. intros w.
      destruct (fits var w); reflexivity.
    + rewrite Ho1 by assumption.
      rewrite (mem_var_cons_neq _ _ l Hne). reflexivity.
Qed.

Lemma enforce_node_consistency_spec s s' u :
  enforce_node_consistency s = Ok (u, s') ->
  crossword s' = crossword s /\
  dict_keys (domains s') = dict_keys (domains s) /\
  forall v, dict_get (domains s') v =
            option_map (filter (fits v)) (dict_get (domains s) v).
Proof.
  unfold enforce_node_consistency. intros H.
  destruct (node_outer _ _ _ _ H) as (Hc & Hk & Hv).
  repeat split; auto. intros v. rewrite Hv.
  destruct (dict_get (domains s) v) as [d|] eqn:E; [|reflexivity]. cbn [option_map].
  rewrite (proj2 (mem_var_true v _) (dict_get_in_keys _ _ _ E)). reflexivity.
Qed.

Lemma node_consistent_after s s' u :
  enforce_node_consistency s = Ok (u, s') -> node_consistent s'.
Proof.
  intros H. destruct (enforce_node_consistency_spec _ _ _ H) as (_ & _ & Hv).
  intros v d w Hd Hw. rewrite Hv in Hd.
  destruct (dict_get (domains s) v) as [d0|]; [|discriminate].
  simpl in Hd. inversion Hd; subst d. apply filter_In in Hw as [_ Hw].
  unfold fits in Hw. apply Nat.eqb_eq in Hw. exact Hw.
Qed.

Lemma node_inner_fixed var l : forall s,
  (forall w, In w l -> fits var w = true) ->
  for_each l (node_body var) s = Ok (tt, s).
Proof.
  induction l as [|w l IH]; intros s H; simpl; [reflexivity|].
  assert (E : node_body var w s = Ok (tt, s)).
  { unfold node_body. unfold fits in H. rewrite (H w (or_introl eq_refl)).
    reflexivity. }
  rewrite (bind_of_Ok _ _ _ _ _ E). apply IH. intros w' Hw'. apply H. right; assumption.
Qed.

Lemma node_outer_fixed l : forall s,
  node_consistent s ->
  (forall var, In var l -> In var (dict_keys (domains s))) ->
  for_each l (fun var => d <- domain var ;; for_each d (node_body var)) s = Ok (tt, s).
Proof.
  induction l as [|var l IH]; intros s Hn Hl; simpl; [reflexivity|].
  destruct (in_keys_dict_get _ _ (Hl var (or_introl eq_refl))) as [d Hd].
  assert (E : (d <- domain var ;; for_each d (node_body var)) s = Ok (tt, s)).
  { rewrite (bind_of_Ok _ _ _ _ _ (domain_of_get _ _ _ Hd)).
    apply node_inner_fixed. intros w Hw. unfold fits. apply Nat.eqb_eq.
    eapply Hn; eauto. }
  rewrite (bind_of_Ok _ _ _ _ _ E). apply IH; [assumption|].
  intros v Hv. apply Hl. right; assumption.
Qed.

Lemma node_consistent_fixed s :
  node_consistent s -> enforce_node_consistency s = Ok (tt, s).
Proof.
  intros H. unfold enforce_node_consistency. apply node_outer_fixed; auto.
Qed.

(** ** Revision of one arc *)

Lemma agree_b_true w i v j : agree_b w i v j = true <-> agree w i v j.
Proof.
  unfold agree_b, agree.
  destruct (String.get i w) as [a|], (String.get j v) as [b|]; split;
    try discriminate; try (intros (c & H1 & H2); discriminate).
  - intros H. apply ascii_eqb_true in H. subst. eauto.
  - intros (c & H1 & H2). apply ascii_eqb_true. congruence.
Qed.

Lemma supported_b_true w i j dy :
  supported_b w i j dy = true <-> exists v, In v dy /\ agree w i v j.
Proof.
  unfold supported_b. rewrite existsb_exists.
  split; intros (v & Hv & H); exists v; split; auto; apply agree_b_true; auto.
Qed.

Lemma index_Ok s i c : index s i = Ok c <-> String.get i s = Some c.
Proof. unfold index. destruct (String.get i s); split; congruence. Qed.

Lemma any_match_Ok w ox oy dy b :
  any_match w ox oy dy = Ok b -> b = supported_b w ox oy dy.
Proof.
  induction dy as [|v dy IH]; simpl; intros H.
  - congruence.
  - unfold rbind in H.
    destruct (index w ox) as [cx|] eqn:Ex; [|discriminate].
    destruct (index v oy) as [cy|] eqn:Ey; [|discriminate].
    apply index_Ok in Ex, Ey. unfold agree_b. rewrite Ex, Ey.
    destruct (ascii_eqb cx cy); simpl; [congruence | auto].
Qed.

Lemma total_size_set d x l l' :
  dict_get d x = Some l ->
  total_size (dict_set d x l') + List.length l = total_size d + List.length l'.
Proof.
  induction d as [|[k a] d IH]; simpl; [discriminate|].
  destruct (Var_eq_dec k x); simpl; intros H.
  - inversion H; subst. simpl. lia.
  - specialize (IH H). simpl in *. lia.
Qed.

Lemma remove_word_size x w s u s' :
  remove_word x w s = Ok (u, s') ->
  total_size (domains s') < total_size (domains s).
Proof.
  intros H. apply remove_word_Ok in H as (d & Hd & Hin & ->). simpl.
  pose proof (total_size_set _ _ _ (remove string_dec w d) Hd).
  pose proof (remove_length_lt string_dec d w Hin). lia.
Qed.

Lemma dom_of_get s v d : dict_get (domains s) v = Some d -> dom_of s v = d.
Proof. unfold dom_of. intros ->. reflexivity. Qed.

Section ReviseLoop.
Variables (x y : Var) (ox oy : nat).
Hypothesis Hxy : x <> y.

Lemma revise_loop l : forall s s' r r' d,
  for_acc l (revise_body x y ox oy) r s = Ok (r', s') ->
  dict_get (domains s) x = Some d ->
  crossword s' = crossword s /\
  dict_keys (domains s') = dict_keys (domains s) /\
  (forall v, v <> x -> dict_get (domains s') v = dict_get (domains s) v) /\
  dict_get (domains s') x =
    Some (filter (fun w => negb (mem_word w l) || supported_b w ox oy (dom_of s y)) d) /\
  r' = r || existsb (fun w => negb (supported_b w ox oy (dom_of s y))) l /\
  total_size (domains s') <= total_size (domains s) /\
  (r = false -> r' = true -> total_size (domains s') < total_size (domains s)).
Proof.
  induction l as [|w l IH]; intros s s' r r' d H Hd; simpl in H.
  - minv H. repeat split; auto.
    + rewrite Hd. f_equal. symmetry. apply filter_all. reflexivity.
    + simpl. rewrite orb_false_r. reflexivity.
    + congruence.
  - apply bind_Ok in H as (r1 & s1 & Hbody & H).
    unfold revise_body in Hbody.
    apply bind_Ok in Hbody as (dy & s2 & Hdy & Hbody).
    apply domain_Ok in Hdy as [Hdy ->].
    apply bind_Ok in Hbody as (b & s3 & Hb & Hbody).
    apply lift_Ok in Hb as [Hb ->].
    apply any_match_Ok in Hb. rewrite <- (dom_of_get _ _ _ Hdy) in Hb.
    destruct b; simpl in Hbody.
    + apply ret_Ok in Hbody as [-> ->].
      destruct (IH _ _ _ _ _ H Hd) as (Hc & Hk & Ho & Hv & Hr & Hle & Hlt).
      repeat split; auto.
      * rewrite Hv. f_equal. apply filter_ext_in. intros w' _.
        rewrite mem_word_cons.
        destruct (string_dec w w') as [<-|E]; [|reflexivity].
        rewrite <- Hb. simpl. apply orb_true_r.
      * simpl. rewrite <- Hb. simpl. exact Hr.
    + apply bind_Ok in Hbody as (u & s4 & Hrm & Hbody).
      apply ret_Ok in Hbody as [-> ->].
      pose proof (remove_word_size _ _ _ _ _ Hrm) as Hsz.
      apply remove_word_Ok in Hrm as (d0 & Hd0 & Hin & ->).
      rewrite Hd in Hd0. inversion Hd0; subst d0; clear Hd0.
      assert (Hy : dom_of {| crossword := crossword s;
                            domains := dict_set (domains s) x (remove string_dec w d) |} y
                   = dom_of s y).
      { unfold dom_of. simpl. rewrite dict_get_set_neq by congruence. reflexivity. }
      specialize (IH _ _ _ _ (remove string_dec w d) H).
      simpl in IH. rewrite dict_get_set_eq in IH.
      destruct (IH eq_refl) as (Hc & Hk & Ho & Hv & Hr & Hle & Hlt).
      rewrite Hy in *. simpl in Hsz.
      repeat split; auto.
      * rewrite Hk. eapply dict_keys_set_present; eauto.
      * intros v Hne. rewrite Ho by assumption. apply dict_get_set_neq; assumption.
      * rewrite Hv. f_equal. rewrite remove_as_filter, filter_filter.
        apply filter_ext_in. intros w' _. rewrite !mem_word_cons, mem_word_nil.
        destruct (string_dec w w') as [<-|E]; simpl; [|reflexivity].
        rewrite <- Hb. reflexivity.
      * simpl. rewrite <- Hb. simpl. rewrite orb_true_r. exact Hr.
      * lia.
      * intros _ _. lia.
Qed.
End ReviseLoop.

Lemma revise_none x y s :
  overlaps (crossword s) x y = None -> revise x y s = Ok (false, s).
Proof. unfold revise. intros ->. reflexivity. Qed.

Lemma revise_some x y ox oy s b s' :
  x <> y ->
  overlaps (crossword s) x y = Some (ox, oy) ->
  revise x y s = Ok (b, s') ->
  exists dx,
    dict_get (domains s) x = Some dx /\
    crossword s' = crossword s /\
    dict_keys (domains s') = dict_keys (domains s) /\
    (forall v, v <> x -> dict_get (domains s') v = dict_get (domains s) v) /\
    dict_get (domains s') x =
      Some (filter (fun w => supported_b w ox oy (dom_of s y)) dx) /\
    b = existsb (fun w => negb (supported_b w ox oy (dom_of s y))) dx /\
    total_size (domains s') <= total_size (domains s) /\
    (b = true -> total_size (domains s') < total_size (domains s)).
Proof.
  intros Hxy Hov H. unfold revise in H. rewrite Hov in H.
  apply bind_Ok in H as (dx & s1 & Hdx & H).
  apply domain_Ok in Hdx as [Hdx ->].
  destruct (revise_loop x y ox oy Hxy dx s s' false b dx H Hdx)
    as (Hc & Hk & Ho & Hv & Hr & Hle & Hlt).
  exists dx. repeat split; auto.
  rewrite Hv. f_equal. apply filter_ext_in. intros w Hw.
  apply mem_word_true in Hw. rewrite Hw. reflexivity.
Qed.

Lemma dom_of_same s s' v :
  dict_get (domains s') v = dict_get (domains s) v -> dom_of s' v = dom_of s v.
Proof. unfold dom_of. intros ->. reflexivity. Qed.

(** ** AC-3 *)

Lemma agree_sym w i v j : agree w i v j -> agree v j w i.
Proof. intros (c & H1 & H2). exists c. auto. Qed.

Lemma in_enqueued cw x y a b :
  In (a, b) (enqueued cw x y) <-> b = x /\ a <> y /\ In a (neighbors cw x).
Proof.
  unfold enqueued. rewrite in_map_iff. split.
  - intros (n & E & Hn). inversion E; subst. apply filter_In in Hn as [Hn Hy].
    apply negb_true_iff, var_eqb_false in Hy. auto.
  - intros (-> & Hy & Hn). exists a. split; [reflexivity|].
    apply filter_In. split; [assumption|].
    apply negb_true_iff, var_eqb_false. assumption.
Qed.

Lemma arcs_ok_step cw x y rest :
  arcs_ok cw ((x, y) :: rest) -> arcs_ok cw (rest ++ enqueued cw x y).
Proof.
  intros H a b Hin. apply in_app_or in Hin as [Hin|Hin].
  - apply H. right. assumption.
  - apply in_enqueued in Hin as (-> & _ & Hn).
    apply in_neighbors in Hn as (Ha & Hne & _).
    destruct (H x y (or_introl eq_refl)) as (Hx & _ & _). auto.
Qed.

Lemma arcs_ok_tail cw a rest : arcs_ok cw (a :: rest) -> arcs_ok cw rest.
Proof. intros H x y Hin. apply H. right. assumption. Qed.

Section ArcStep.
Variables (s s1 : CrosswordCreator) (x y : Var) (ox oy : nat) (dx : list word).
Hypothesis Hsym : symmetric_overlaps (crossword s).
Hypothesis Hx : In x (variables (crossword s)).
Hypothesis Hy : In y (variables (crossword s)).
Hypothesis Hxy : x <> y.
Hypothesis Hov : overlaps (crossword s) x y = Some (ox, oy).
Hypothesis Hdx : dict_get (domains s) x = Some dx.
Hypothesis Hc : crossword s1 = crossword s.
Hypothesis Ho : forall v, v <> x -> dict_get (domains s1) v = dict_get (domains s) v.
Hypothesis Hv : dict_get (domains s1) x =
                Some (filter (fun w => supported_b w ox oy (dom_of s y)) dx).

Lemma step_dom_other v : v <> x -> dom_of s1 v = dom_of s v.
Proof. intros Hne. apply dom_of_same. auto. Qed.

Lemma step_dom_x w :
  In w (dom_of s1 x) <->
  In w (dom_of s x) /\ exists v, In v (dom_of s y) /\ agree w ox v oy.
Proof.
  rewrite (dom_of_get _ _ _ Hv), (dom_of_get _ _ _ Hdx), filter_In, supported_b_true.
  reflexivity.
Qed.

Lemma step_arc_xy : arc_ok s1 x y ox oy.
Proof.
  intros w Hw. apply step_dom_x in Hw as [_ Hw].
  rewrite step_dom_other by congruence. exact Hw.
Qed.

Lemma step_arc_yx iy ix :
  overlaps (crossword s) y x = Some (iy, ix) ->
  arc_ok s y x iy ix -> arc_ok s1 y x iy ix.
Proof.
  intros Hov' Hok v Hv'. rewrite step_dom_other in Hv' by congruence.
  destruct (Hok v Hv') as (w & Hw & Hag).
  pose proof (Hsym x y ox oy Hx Hy Hov) as Hov''.
  rewrite Hov' in Hov''. inversion Hov''; subst iy ix.
  exists w. split; [|assumption].
  apply step_dom_x. split; [assumption|].
  exists v. split; [assumption|]. apply agree_sym. assumption.
Qed.

Lemma step_arc_from_x z i j :
  z <> x -> arc_ok s x z i j -> arc_ok s1 x z i j.
Proof.
  intros Hz Hok w Hw. rewrite step_dom_other by assumption.
  apply Hok. apply step_dom_x in Hw. tauto.
Qed.

Lemma step_arc_apart a b i j :
  a <> x -> b <> x -> arc_ok s a b i j -> arc_ok s1 a b i j.
Proof.
  intros Ha Hb Hok w Hw. rewrite step_dom_other in * by assumption.
  apply Hok. assumption.
Qed.

(** after a revision that changed [x]'s domain *)
Lemma arc_inv_revised rest :
  arc_inv s ((x, y) :: rest) ->
  arc_inv s1 (rest ++ enqueued (crossword s) x y).
Proof.
  intros Hinv a b i j Ha Hb Hab Hovab. rewrite Hc in Ha, Hb, Hovab.
  destruct (Hinv a b i j Ha Hb Hab Hovab) as [[E|Hin]|Hok].
  - inversion E; subst a b. right.
    rewrite Hov in Hovab. inversion Hovab; subst i j. apply step_arc_xy.
  - left. apply in_or_app. left. assumption.
  - destruct (Var_eq_dec b x) as [->|Hbx].
    + destruct (Var_eq_dec a y) as [->|Hay].
      * right. apply step_arc_yx; assumption.
      * left. apply in_or_app. right. apply in_enqueued.
        repeat split; [assumption|]. apply in_neighbors.
        repeat split; [assumption|assumption|congruence].
    + right. destruct (Var_eq_dec a x) as [->|Hax].
      * apply step_arc_from_x; assumption.
      * apply step_arc_apart; assumption.
Qed.

(** after a revision that removed nothing *)
Lemma arc_inv_unrevised rest :
  existsb (fun w => negb (supported_b w ox oy (dom_of s y))) dx = false ->
  arc_inv s ((x, y) :: rest) -> arc_inv s1 rest.
Proof.
  intros Hall Hinv a b i j Ha Hb Hab Hovab. rewrite Hc in Ha, Hb, Hovab.
  assert (Hsame : forall v, dom_of s1 v = dom_of s v).
  { intros v. destruct (Var_eq_dec v x) as [->|Hne]; [|apply step_dom_other; assumption].
    rewrite (dom_of_get _ _ _ Hv), (dom_of_get _ _ _ Hdx).
    apply filter_all. intros w Hw.
    destruct (supported_b w ox oy (dom_of s y)) eqn:E; [reflexivity|].
    assert (existsb (fun w => negb (supported_b w ox oy (dom_of s y))) dx = true).
    { apply existsb_exists. exists w. rewrite E. auto. }
    congruence. }
  destruct (Hinv a b i j Ha Hb Hab Hovab) as [[E|Hin]|Hok].
  - inversion E; subst a b. right.
    rewrite Hov in Hovab. inversion Hovab; subst i j. apply step_arc_xy.
  - left. assumption.
  - right. intros w Hw. rewrite Hsame in *. apply Hok. assumption.
Qed.
End ArcStep.

Lemma ac3_loop_sound fuel : forall q s s',
  symmetric_overlaps (crossword s) ->
  arcs_ok (crossword s) q ->
  arc_inv s q ->
  ac3_loop fuel q s = Ok (true, s') ->
  crossword s' = crossword s /\
  dict_keys (domains s') = dict_keys (domains s) /\
  arc_consistent s'.
Proof.
  induction fuel as [|fuel IH]; intros q s s' Hsym Hq Hinv H; simpl in H.
  - discriminate.
  - destruct q as [|[x y] rest].
    + apply ret_Ok in H as [_ ->]. repeat split; auto.
      intros x y ix iy Hx Hy Hxy Hov.
      destruct (Hinv x y ix iy Hx Hy Hxy Hov) as [[]|Hok]. exact Hok.
    + destruct (Hq x y (or_introl eq_refl)) as (Hx & Hy & Hxy).
      apply bind_Ok in H as (b & s1 & Hrev & H).
      destruct (overlaps (crossword s) x y) as [[ox oy]|] eqn:Hov.
      * destruct (revise_some _ _ _ _ _ _ _ Hxy Hov Hrev)
          as (dx & Hdx & Hc & Hk & Ho & Hv & Hb & _).
        destruct b.
        -- apply bind_Ok in H as (dx1 & s2 & Hdx1 & H).
           apply domain_Ok in Hdx1 as [Hdx1 ->].
           destruct (Nat.eqb (List.length dx1) 0).
           { apply ret_Ok in H as [E _]. discriminate. }
           assert (Hinv1 : arc_inv s1 (rest ++ enqueued (crossword s) x y)).
           { eapply arc_inv_revised; eauto. }
           assert (Hq1 : arcs_ok (crossword s1) (rest ++ enqueued (crossword s) x y)).
           { rewrite Hc. apply arcs_ok_step. assumption. }
           rewrite <- Hc in Hsym. rewrite Hc in H.
           destruct (IH _ _ _ Hsym Hq1 Hinv1 H) as (Hc' & Hk' & Hac).
           repeat split; try congruence. exact Hac.
        -- assert (Hinv1 : arc_inv s1 rest).
           { eapply arc_inv_unrevised; eauto. }
           assert (Hq1 : arcs_ok (crossword s1) rest).
           { rewrite Hc. eapply arcs_ok_tail. eassumption. }
           rewrite <- Hc in Hsym.
           destruct (IH _ _ _ Hsym Hq1 Hinv1 H) as (Hc' & Hk' & Hac).
           repeat split; try congruence. exact Hac.
      * rewrite (revise_none _ _ _ Hov) in Hrev. inversion Hrev; subst b s1.
        apply (IH rest s s' Hsym (arcs_ok_tail _ _ _ Hq)); [|exact H].
        intros a b i j Ha Hb Hab Hovab.
        destruct (Hinv a b i j Ha Hb Hab Hovab) as [[E|Hin]|Hok]; auto.
        inversion E; subst a b. congruence.
Qed.

Lemma in_arc_queue cw x y :
  In (x, y) (flat_map (fun var => map (fun neighbor => (var, neighbor)) (neighbors cw var))
                      (variables cw)) <->
  In x (variables cw) /\ In y (neighbors cw x).
Proof.
  rewrite in_flat_map. split.
  - intros (v & Hv & Hin). apply in_map_iff in Hin as (n & E & Hn).
    inversion E; subst. auto.
  - intros [Hx Hy]. exists x. split; [assumption|].
    apply in_map_iff. exists y. auto.
Qed.

Lemma get_arc_queue_None s :
  get_arc_queue None s =
  Ok (flat_map (fun var => map (fun neighbor => (var, neighbor))
                               (neighbors (crossword s) var))
               (variables (crossword s)), s).
Proof. reflexivity. Qed.

Lemma arc_queue_ok s q s1 :
  get_arc_queue None s = Ok (q, s1) -> s1 = s /\ arcs_ok (crossword s) q.
Proof.
  rewrite get_arc_queue_None. intros H. inversion H; subst. split; [reflexivity|].
  intros x y Hin. apply in_arc_queue in Hin as [Hx Hy].
  apply in_neighbors in Hy as (Hy & Hne & _). auto.
Qed.

Lemma arc_queue_inv s q s1 :
  symmetric_overlaps (crossword s) ->
  get_arc_queue None s = Ok (q, s1) -> arc_inv s q.
Proof.
  rewrite get_arc_queue_None. intros Hsym H. inversion H; subst.
  intros x y ix iy Hx Hy Hxy Hov. left. apply in_arc_queue. split; [assumption|].
  apply in_neighbors. repeat split; [assumption|congruence|].
  rewrite (Hsym x y ix iy Hx Hy Hov). discriminate.
Qed.

Lemma ac3_None_Ok s b s' :
  ac3 None s = Ok (b, s') ->
  exists q, get_arc_queue None s = Ok (q, s) /\
            ac3_loop (ac3_fuel s q) q s = Ok (b, s').
Proof.
  unfold ac3. intros H. apply bind_Ok in H as (q & s1 & Hq & H).
  pose proof (arc_queue_ok _ _ _ Hq) as [-> _]. eauto.
Qed.

(** C2: when [ac3()] on the default worklist returns True, every word
    left in the domain of a variable x has, for every variable y
    overlapping x at (ix, iy), a word in y's domain with the same
    character at the overlap. *)
Theorem ac3_arc_consistent (s s' : CrosswordCreator) :
  symmetric_overlaps (crossword s) ->
  ac3 None s = Ok (true, s') ->
  forall x y ix iy,
    In x (variables (crossword s)) -> In y (variables (crossword s)) -> x <> y ->
    overlaps (crossword s) x y = Some (ix, iy) ->
    forall w, In w (dom_of s' x) ->
              exists v, In v (dom_of s' y) /\ agree w ix v iy.
Proof.
  intros Hsym H. apply ac3_None_Ok in H as (q & Hq & H).
  destruct (ac3_loop_sound _ _ _ _ Hsym (proj2 (arc_queue_ok _ _ _ Hq))
                           (arc_queue_inv _ _ _ Hsym Hq) H) as (Hc & _ & Hac).
  intros x y ix iy Hx Hy Hxy Hov. rewrite <- Hc in Hx, Hy, Hov.
  exact (Hac x y ix iy Hx Hy Hxy Hov).
Qed.

(** ** The bound of the worklist loop is never reached *)

Lemma bind_fuel_free {A B} (m : M A) (k : A -> M B) s :
  fuel_free (m s) ->
  (forall a s1, m s = Ok (a, s1) -> fuel_free (k a s1)) ->
  fuel_free (bind m k s).
Proof.
  unfold bind. intros Hm Hk. destruct (m s) as [[a s1]|e]; [apply Hk; reflexivity|].
  unfold fuel_free in *. congruence.
Qed.

Lemma domain_fuel_free x s : fuel_free (domain x s).
Proof.
  unfold fuel_free, domain, reads, get_domain.
  destruct (dict_get (domains s) x); discriminate.
Qed.

Lemma remove_word_fuel_free x w s : fuel_free (remove_word x w s).
Proof.
  unfold fuel_free, remove_word.
  destruct (dict_get (domains s) x) as [d|]; [|discriminate].
  destruct (mem_word w d); discriminate.
Qed.

Lemma index_fuel_free w i : fuel_free (index w i).
Proof. unfold fuel_free, index. destruct (String.get i w); discriminate. Qed.

Lemma any_match_fuel_free w ox oy dy : fuel_free (any_match w ox oy dy).
Proof.
  induction dy as [|v dy IH]; simpl; [discriminate|].
  unfold rbind.
  unfold index. destruct (String.get ox w) as [a|]; [|discriminate].
  destruct (String.get oy v) as [a0|]; [|discriminate].
  destruct (ascii_eqb a a0); [discriminate | exact IH].
Qed.

Lemma lift_fuel_free {A} (r : res A) s : fuel_free r -> fuel_free (lift r s).
Proof. unfold fuel_free, lift. destruct r; [discriminate|congruence]. Qed.

Lemma reads_fuel_free {A} (f : CrosswordCreator -> res A) s :
  fuel_free (f s) -> fuel_free (reads f s).
Proof. unfold fuel_free, reads. destruct (f s); [discriminate|congruence]. Qed.

Lemma ret_fuel_free {A} (a : A) s : fuel_free (ret a s).
Proof. discriminate. Qed.

Lemma revise_body_fuel_free x y ox oy w r s : fuel_free (revise_body x y ox oy w r s).
Proof.
  unfold revise_body. apply bind_fuel_free; [apply domain_fuel_free|].
  intros dy s1 _. apply bind_fuel_free; [apply lift_fuel_free, any_match_fuel_free|].
  intros b s2 _. destruct b; simpl; [apply ret_fuel_free|].
  apply bind_fuel_free; [apply remove_word_fuel_free|].
  intros. apply ret_fuel_free.
Qed.

Lemma for_acc_fuel_free {A B} (body : A -> B -> M B) l :
  (forall a b s, fuel_free (body a b s)) ->
  forall b s, fuel_free (for_acc l body b s).
Proof.
  intros Hbody. induction l as [|a l IH]; intros b s; simpl; [apply ret_fuel_free|].
  apply bind_fuel_free; auto.
Qed.

Lemma revise_fuel_free x y s : fuel_free (revise x y s).
Proof.
  unfold revise. destruct (overlaps (crossword s) x y) as [[ox oy]|]; [|discriminate].
  apply bind_fuel_free; [apply domain_fuel_free|].
  intros dx s1 _. apply for_acc_fuel_free. intros. apply revise_body_fuel_free.
Qed.

Lemma revise_loop_size x y ox oy l : forall s s' r r',
  for_acc l (revise_body x y ox oy) r s = Ok (r', s') ->
  crossword s' = crossword s /\
  dict_keys (domains s') = dict_keys (domains s) /\
  total_size (domains s') <= total_size (domains s) /\
  (r = false -> r' = true -> total_size (domains s') < total_size (domains s)).
Proof.
  induction l as [|w l IH]; intros s s' r r' H; simpl in H.
  - apply ret_Ok in H as [-> ->]. repeat split; auto. congruence.
  - apply bind_Ok in H as (r1 & s1 & Hbody & H).
    unfold revise_body in Hbody.
    apply bind_Ok in Hbody as (dy & s2 & Hdy & Hbody).
    apply domain_Ok in Hdy as [Hdy ->].
    apply bind_Ok in Hbody as (b & s3 & Hb & Hbody).
    apply lift_Ok in Hb as [Hb ->].
    destruct (IH _ _ _ _ H) as (Hc & Hk & Hle & Hlt).
    destruct b; simpl in Hbody.
    + apply ret_Ok in Hbody as [-> ->]. repeat split; auto.
    + apply bind_Ok in Hbody as (u & s4 & Hrm & Hbody).
      apply ret_Ok in Hbody as [-> ->].
      pose proof (remove_word_size _ _ _ _ _ Hrm) as Hsz.
      apply remove_word_Ok in Hrm as (d0 & Hd0 & Hin & ->). simpl in *.
      split; [assumption|]. split.
      { rewrite Hk. eapply dict_keys_set_present; eauto. }
      split; [lia|]. intros _ _. lia.
Qed.

Lemma revise_size x y s b s' :
  revise x y s = Ok (b, s') ->
  crossword s' = crossword s /\
  dict_keys (domains s') = dict_keys (domains s) /\
  total_size (domains s') <= total_size (domains s) /\
  (b = true -> total_size (domains s') < total_size (domains s)).
Proof.
  unfold revise. destruct (overlaps (crossword s) x y) as [[ox oy]|].
  - intros H. apply bind_Ok in H as (dx & s1 & Hdx & H).
    apply domain_Ok in Hdx as [Hdx ->].
    destruct (revise_loop_size _ _ _ _ _ _ _ _ _ H) as (Hc & Hk & Hle & Hlt).
    repeat split; auto.
  - intros H. inversion H; subst. repeat split; auto. discriminate.
Qed.

Lemma enqueued_length cw x y :
  List.length (enqueued cw x y) <= List.length (variables cw).
Proof.
  unfold enqueued. rewrite length_map.
  etransitivity; [apply filter_length_le | apply neighbors_length].
Qed.

Lemma ac3_loop_fuel_free fuel : forall q s,
  total_size (domains s) * S (List.length (variables (crossword s))) + List.length q < fuel ->
  fuel_free (ac3_loop fuel q s).
Proof.
  induction fuel as [|fuel IH]; intros q s Hlt; [lia|]. simpl.
  destruct q as [|[x y] rest]; [apply ret_fuel_free|].
  apply bind_fuel_free; [apply revise_fuel_free|].
  intros b s1 Hrev. destruct (revise_size _ _ _ _ _ Hrev) as (Hc & _ & Hle & Hstrict).
  simpl in Hlt. destruct b.
  - apply bind_fuel_free; [apply domain_fuel_free|].
    intros dx s2 Hdx. apply domain_Ok in Hdx as [_ ->].
    destruct (Nat.eqb (List.length dx) 0); [apply ret_fuel_free|].
    apply IH. rewrite length_app, Hc.
    pose proof (enqueued_length (crossword s) x y).
    specialize (Hstrict eq_refl). nia.
  - apply IH. rewrite Hc. nia.
Qed.

(** [ac3] always comes back: its iteration bound is never the reason
    for a failure. *)
Lemma ac3_fuel_free arcs s : fuel_free (ac3 arcs s).
Proof.
  unfold ac3. apply bind_fuel_free.
  - destruct arcs; [apply ret_fuel_free|]. rewrite get_arc_queue_None. discriminate.
  - intros q s1 Hq. apply ac3_loop_fuel_free. unfold ac3_fuel. lia.
Qed.

(** ** Fixed point of the pruning passes *)

Lemma any_match_true w ox oy dy :
  (exists v, In v dy /\ agree w ox v oy) ->
  (forall v, In v dy -> String.get oy v <> None) ->
  any_match w ox oy dy = Ok true.
Proof.
  induction dy as [|v dy IH]; intros (v0 & Hin & Hag) Hrange.
  - destruct Hin.
  - simpl. unfold rbind, index.
    destruct Hag as (c & Hw & Hv0). rewrite Hw.
    destruct (String.get oy v) as [cy|] eqn:Ev.
    2: { exfalso. apply (Hrange v (or_introl eq_refl)). assumption. }
    destruct (ascii_eqb c cy) eqn:E; [reflexivity|].
    apply IH.
    + destruct Hin as [->|Hin].
      * rewrite Hv0 in Ev. inversion Ev; subst cy.
        unfold ascii_eqb in E. destruct (ascii_dec c c); congruence.
      * exists v0. split; [assumption|]. exists c. auto.
    + intros v' Hv'. apply Hrange. right. assumption.
Qed.

Lemma revise_loop_fixed x y ox oy dy l : forall s r,
  dict_get (domains s) y = Some dy ->
  (forall w, In w l -> any_match w ox oy dy = Ok true) ->
  for_acc l (revise_body x y ox oy) r s = Ok (r, s).
Proof.
  induction l as [|w l IH]; intros s r Hdy Hall; simpl; [reflexivity|].
  assert (E : revise_body x y ox oy w r s = Ok (r, s)).
  { unfold revise_body. rewrite (bind_of_Ok _ _ _ _ _ (domain_of_get _ _ _ Hdy)).
    unfold bind, lift. rewrite (Hall w (or_introl eq_refl)). reflexivity. }
  rewrite (bind_of_Ok _ _ _ _ _ E). apply IH; [assumption|].
  intros w' Hw'. apply Hall. right. assumption.
Qed.

Lemma revise_fixed s x y :
  symmetric_overlaps (crossword s) -> creator_ok s -> arc_consistent s ->
  In x (variables (crossword s)) -> In y (variables (crossword s)) -> x <> y ->
  revise x y s = Ok (false, s).
Proof.
  intros Hsym Hok Hac Hx Hy Hxy. unfold revise.
  destruct (overlaps (crossword s) x y) as [[ox oy]|] eqn:Hov; [|reflexivity].
  rewrite <- Hok in Hx, Hy.
  destruct (in_keys_dict_get _ _ Hx) as [dx Hdx].
  destruct (in_keys_dict_get _ _ Hy) as [dy Hdy].
  rewrite Hok in Hx, Hy.
  rewrite (bind_of_Ok _ _ _ _ _ (domain_of_get _ _ _ Hdx)).
  apply revise_loop_fixed with (dy := dy); [assumption|].
  intros w Hw. apply any_match_true.
  - rewrite <- (dom_of_get _ _ _ Hdy).
    apply (Hac x y ox oy Hx Hy Hxy Hov). rewrite (dom_of_get _ _ _ Hdx). assumption.
  - intros v Hv.
    pose proof (Hsym x y ox oy Hx Hy Hov) as Hov'.
    assert (Hyx : y <> x) by congruence.
    destruct (Hac y x oy ox Hy Hx Hyx Hov' v) as (w' & _ & c & Hc & _).
    + rewrite (dom_of_get _ _ _ Hdy). assumption.
    + congruence.
Qed.

Lemma ac3_loop_fixed fuel : forall q s,
  symmetric_overlaps (crossword s) -> creator_ok s -> arc_consistent s ->
  arcs_ok (crossword s) q ->
  List.length q < fuel ->
  ac3_loop fuel q s = Ok (true, s).
Proof.
  induction fuel as [|fuel IH]; intros q s Hsym Hok Hac Hq Hlt; [lia|].
  simpl. destruct q as [|[x y] rest]; [reflexivity|].
  destruct (Hq x y (or_introl eq_refl)) as (Hx & Hy & Hxy).
  rewrite (bind_of_Ok _ _ _ _ _ (revise_fixed s x y Hsym Hok Hac Hx Hy Hxy)).
  apply IH; auto.
  - eapply arcs_ok_tail. eassumption.
  - simpl in Hlt. lia.
Qed.

Lemma creator_ok_same s s' :
  crossword s' = crossword s -> dict_keys (domains s') = dict_keys (domains s) ->
  creator_ok s -> creator_ok s'.
Proof. unfold creator_ok. intros -> ->. auto. Qed.

(** C8: a second run of [enforce_node_consistency] changes nothing,
    and after [ac3()] on the default worklist has returned True a
    second [ac3()] returns True and leaves the object as the first run
    left it. *)
Theorem pruning_fixed_point (s : CrosswordCreator) :
  symmetric_overlaps (crossword s) ->
  creator_ok s ->
  (forall s1, enforce_node_consistency s = Ok (tt, s1) ->
              enforce_node_consistency s1 = Ok (tt, s1)) /\
  (forall s1, ac3 None s = Ok (true, s1) -> ac3 None s1 = Ok (true, s1)).
Proof.
  intros Hsym Hok. split.
  - intros s1 H. apply node_consistent_fixed. eapply node_consistent_after. eassumption.
  - intros s1 H.
    pose proof H as H'. apply ac3_None_Ok in H' as (q & Hq & Hloop).
    destruct (ac3_loop_sound _ _ _ _ Hsym (proj2 (arc_queue_ok _ _ _ Hq))
                             (arc_queue_inv _ _ _ Hsym Hq) Hloop) as (Hc & Hk & Hac).
    assert (Hsym1 : symmetric_overlaps (crossword s1)) by (rewrite Hc; assumption).
    assert (Hok1 : creator_ok s1) by (eapply creator_ok_same; eauto).
    unfold ac3. rewrite (bind_of_Ok _ _ _ _ _ (get_arc_queue_None s1)).
    apply ac3_loop_fixed; auto.
    + eapply (proj2 (arc_queue_ok s1 _ s1 (get_arc_queue_None s1))).
    + unfold ac3_fuel. lia.
Qed.

(** ** Failure of the propagation *)

Lemma ac3_loop_false fuel : forall q s s',
  ac3_loop fuel q s = Ok (false, s') ->
  crossword s' = crossword s /\
  dict_keys (domains s') = dict_keys (domains s) /\
  exists x, dict_get (domains s') x = Some [].
Proof.
  induction fuel as [|fuel IH]; intros q s s' H; simpl in H; [discriminate|].
  destruct q as [|[x y] rest].
  - apply ret_Ok in H as [E _]. discriminate.
  - apply bind_Ok in H as (b & s1 & Hrev & H).
    destruct (revise_size _ _ _ _ _ Hrev) as (Hc & Hk & _).
    destruct b.
    + apply bind_Ok in H as (dx & s2 & Hdx & H).
      apply domain_Ok in Hdx as [Hdx ->].
      destruct (Nat.eqb (List.length dx) 0) eqn:E.
      * apply ret_Ok in H as [_ ->]. split; [assumption|]. split; [assumption|].
        exists x. apply Nat.eqb_eq in E. destruct dx; [assumption|discriminate].
      * destruct (IH _ _ _ H) as (Hc' & Hk' & Hx).
        split; [congruence|]. split; [congruence|]. exact Hx.
    + destruct (IH _ _ _ H) as (Hc' & Hk' & Hx).
      split; [congruence|]. split; [congruence|]. exact Hx.
Qed.

Lemma select_key_Ok s v d :
  dict_get (domains s) v = Some d ->
  select_key s v = Ok (List.length d, List.length (neighbors (crossword s) v)).
Proof. unfold select_key, get_domain. intros ->. reflexivity. Qed.

Lemma key_lt_false_fst k1 k2 : key_lt k1 k2 = false -> fst k2 <= fst k1.
Proof.
  unfold key_lt. intros H. apply orb_false_iff in H as [H _].
  apply Nat.ltb_ge in H. exact H.
Qed.

Lemma key_lt_trans_false k1 k2 k3 :
  key_lt k2 k1 = true -> key_lt k3 k1 = false -> key_lt k3 k2 = false.
Proof.
  unfold key_lt. destruct k1 as [a1 b1], k2 as [a2 b2], k3 as [a3 b3]; simpl.
  rewrite !orb_true_iff, !orb_false_iff, !andb_true_iff, !andb_false_iff,
          !Nat.ltb_lt, !Nat.ltb_ge, !Nat.eqb_eq, !Nat.eqb_neq.
  lia.
Qed.

Lemma key_lt_irrefl k : key_lt k k = false.
Proof.
  unfold key_lt. rewrite Nat.ltb_irrefl, Nat.ltb_irrefl, andb_false_r. reflexivity.
Qed.

(** [min] returns a candidate whose key no candidate beats *)
Lemma min_by_key_spec s vs : forall best kbest,
  (forall v, In v vs -> In v (dict_keys (domains s))) ->
  exists v, min_by_key s best kbest vs = Ok v /\
            (v = best \/ In v vs) /\
            exists k, (v = best /\ k = kbest \/ In v vs /\ select_key s v = Ok k) /\
                      key_lt kbest k = false /\
                      forall u ku, In u vs -> select_key s u = Ok ku -> key_lt ku k = false.
Proof.
  induction vs as [|u vs IH]; intros best kbest Hkeys; simpl.
  - exists best. split; [reflexivity|]. split; [auto|].
    exists kbest. split; [auto|]. split; [apply key_lt_irrefl|]. intros ? ? [].
  - destruct (in_keys_dict_get _ _ (Hkeys u (or_introl eq_refl))) as [d Hd].
    rewrite (select_key_Ok _ _ _ Hd). simpl.
    set (ku := (List.length d, List.length (neighbors (crossword s) u))).
    assert (Hkeys' : forall v, In v vs -> In v (dict_keys (domains s))).
    { intros v Hv. apply Hkeys. right. assumption. }
    destruct (key_lt ku kbest) eqn:E.
    + destruct (IH u ku Hkeys') as (v & Hmin & Hin & k & Hk & Hbest & Hall).
      exists v. split; [assumption|]. split.
      { destruct Hin as [->|Hin]; [right; left; reflexivity|right; right; assumption]. }
      exists k. split.
      { right. destruct Hk as [[-> ->]|[Hv Hk]].
        - split; [left; reflexivity|]. apply select_key_Ok. assumption.
        - split; [right; assumption|assumption]. }
      split.
      { destruct (key_lt kbest k) eqn:E'; [|reflexivity].
        exfalso.
        assert (key_lt ku k = true).
        { unfold key_lt in *. destruct ku as [a1 b1], kbest as [a2 b2], k as [a3 b3].
          simpl in *.
          rewrite !orb_true_iff, !andb_true_iff, !Nat.ltb_lt, !Nat.eqb_eq in *.
          lia. }
        congruence. }
      intros u' ku' [<-|Hu'] Hsel.
      * rewrite (select_key_Ok _ _ _ Hd) in Hsel. inversion Hsel; subst ku'. exact Hbest.
      * eapply Hall; eauto.
    + destruct (IH best kbest Hkeys') as (v & Hmin & Hin & k & Hk & Hbest & Hall).
      exists v. split; [assumption|]. split.
      { destruct Hin as [->|Hin]; [left; reflexivity|right; right; assumption]. }
      exists k. split.
      { destruct Hk as [[-> ->]|[Hv Hk]]; [left; auto|right; split; [right|]; assumption]. }
      split; [assumption|].
      intros u' ku' [<-|Hu'] Hsel.
      * rewrite (select_key_Ok _ _ _ Hd) in Hsel. inversion Hsel; subst ku'.
        destruct (key_lt ku k) eqn:E'; [|exact E']. exfalso.
        unfold key_lt in *. destruct ku as [a1 b1], kbest as [a2 b2], k as [a3 b3].
        simpl in *.
        rewrite ?orb_true_iff, ?orb_false_iff, ?andb_true_iff, ?andb_false_iff,
                ?Nat.ltb_lt, ?Nat.ltb_ge, ?Nat.eqb_eq, ?Nat.eqb_neq in *.
        lia.
      * eapply Hall; eauto.
Qed.

Lemma unassigned_keys s a v :
  In v (unassigned s a) <-> In v (dict_keys (domains s)) /\ ~ In v (dict_keys a).
Proof.
  unfold unassigned. rewrite filter_In, negb_true_iff, dict_mem_false. reflexivity.
Qed.

Lemma select_unassigned_variable_spec s a :
  unassigned s a <> [] ->
  exists v d,
    select_unassigned_variable s a = Ok v /\
    In v (unassigned s a) /\
    dict_get (domains s) v = Some d /\
    forall u du, In u (unassigned s a) -> dict_get (domains s) u = Some du ->
                 List.length d <= List.length du.
Proof.
  intros Hne. unfold select_unassigned_variable.
  destruct (unassigned s a) as [|v0 vs] eqn:Hun; [congruence|].
  assert (Hkeys : forall v, In v (v0 :: vs) -> In v (dict_keys (domains s))).
  { intros v Hv. rewrite <- Hun in Hv. apply unassigned_keys in Hv. tauto. }
  destruct (in_keys_dict_get _ _ (Hkeys v0 (or_introl eq_refl))) as [d0 Hd0].
  rewrite (select_key_Ok _ _ _ Hd0). simpl.
  destruct (min_by_key_spec s vs v0
              (List.length d0, List.length (neighbors (crossword s) v0))
              (fun v Hv => Hkeys v (or_intror Hv)))
    as (v & Hmin & Hin & k & Hk & Hbest & Hall).
  assert (Hv : In v (v0 :: vs)).
  { destruct Hin as [->|Hin]; [left; reflexivity|right; assumption]. }
  destruct (in_keys_dict_get _ _ (Hkeys v Hv)) as [d Hd].
  assert (Ek : k = (List.length d, List.length (neighbors (crossword s) v))).
  { destruct Hk as [[-> ->]|[_ Hk]].
    - congruence.
    - rewrite (select_key_Ok _ _ _ Hd) in Hk. congruence. }
  exists v, d. split; [assumption|]. split; [assumption|]. split; [assumption|].
  intros u du [<-|Hu] Hdu.
  - rewrite Hd0 in Hdu. inversion Hdu; subst du.
    apply key_lt_false_fst in Hbest. subst k. exact Hbest.
  - pose proof (Hall u _ Hu (select_key_Ok _ _ _ Hdu)) as Hlt.
    apply key_lt_false_fst in Hlt. subst k. exact Hlt.
Qed.

Lemma unassigned_nil s : unassigned s [] = dict_keys (domains s).
Proof. unfold unassigned. apply filter_all. reflexivity. Qed.

(** with an empty domain in the store the search fails at once *)
Lemma backtrack_empty_domain s x :
  creator_ok s -> dict_get (domains s) x = Some [] ->
  backtrack [] s = Ok (None, s).
Proof.
  intros Hok Hx. unfold backtrack. cbn [backtrack_rec]. unfold backtrack_body.
  pose proof (dict_get_in_keys _ _ _ Hx) as Hkey.
  assert (Hun : unassigned s [] <> []).
  { rewrite unassigned_nil. intros E. rewrite E in Hkey. destruct Hkey. }
  unfold bind at 1. unfold assignment_complete. cbn [dict_keys map List.length].
  destruct (variables (crossword s)) as [|v0 vs] eqn:EV.
  { rewrite Hok, EV in Hkey. destruct Hkey. }
  cbn [List.length Nat.eqb].
  destruct (select_unassigned_variable_spec s [] Hun) as (v & d & Hsel & Hv & Hd & Hmin).
  unfold bind at 1. unfold reads at 1. rewrite Hsel.
  rewrite (bind_of_Ok _ _ _ _ _ (domain_of_get _ _ _ Hd)).
  assert (Hx' : In x (unassigned s [])) by (rewrite unassigned_nil; assumption).
  specialize (Hmin x [] Hx' Hx). simpl in Hmin.
  destruct d; [reflexivity|simpl in Hmin; lia].
Qed.

(** C3: a revision that empties the domain of its variable makes the
    worklist loop return False on the spot, whatever is left in the
    worklist and without touching the store again; and when [ac3()]
    fails in [solve()], some domain is empty and [solve()] returns None. *)
Theorem ac3_failure (s : CrosswordCreator) :
  creator_ok s ->
  (forall fuel x y rest s0 s1,
     revise x y s0 = Ok (true, s1) -> get_domain s1 x = Ok [] ->
     ac3_loop (S fuel) ((x, y) :: rest) s0 = Ok (false, s1)) /\
  (forall s0 s1,
     enforce_node_consistency s = Ok (tt, s0) ->
     ac3 None s0 = Ok (false, s1) ->
     (exists x, In x (variables (crossword s)) /\ dom_of s1 x = []) /\
     solve s = Ok (None, s1)).
Proof.
  intros Hok. split.
  - intros fuel x y rest s0 s1 Hrev Hdom. cbn [ac3_loop].
    rewrite (bind_of_Ok _ _ _ _ _ Hrev).
    unfold bind, domain, reads. rewrite Hdom. reflexivity.
  - intros s0 s1 Hnode Hac3.
    destruct (enforce_node_consistency_spec _ _ _ Hnode) as (Hc0 & Hk0 & _).
    pose proof Hac3 as H. apply ac3_None_Ok in H as (q & _ & Hloop).
    destruct (ac3_loop_false _ _ _ _ Hloop) as (Hc1 & Hk1 & x & Hx).
    assert (Hok1 : creator_ok s1).
    { eapply creator_ok_same; [| |exact Hok]; congruence. }
    split.
    + exists x. split.
      * rewrite <- Hok, <- Hk0, <- Hk1. eapply dict_get_in_keys. eassumption.
      * apply dom_of_get. assumption.
    + unfold solve. rewrite (bind_of_Ok _ _ _ _ _ Hnode).
      rewrite (bind_of_Ok _ _ _ _ _ Hac3).
      eapply backtrack_empty_domain; eassumption.
Qed.

(** ** The consistency predicate *)

Lemma nodup_length_le (l : list word) :
  List.length (nodup string_dec l) <= List.length l.
Proof.
  induction l as [|w l IH]; simpl; [lia|].
  destruct (in_dec string_dec w l); simpl; lia.
Qed.

Lemma nodup_length_eq (l : list word) :
  List.length (nodup string_dec l) = List.length l <-> NoDup l.
Proof.
  induction l as [|w l IH]; simpl.
  - split; [constructor|reflexivity].
  - pose proof (nodup_length_le l) as Hle.
    destruct (in_dec string_dec w l) as [i|n]; simpl.
    + split; [lia|]. intros H. inversion H; contradiction.
    + split.
      * intros H. constructor; [assumption|]. apply IH. lia.
      * intros H. inversion H; subst. f_equal. apply IH. assumption.
Qed.

Lemma values_distinct_test (l : list word) :
  (List.length (nodup string_dec l) <? List.length l) = false <-> NoDup l.
Proof.
  rewrite Nat.ltb_ge, <- nodup_length_eq. pose proof (nodup_length_le l). lia.
Qed.

Lemma dict_get_of_in {A} (d : list (Var * A)) k a :
  NoDup (dict_keys d) -> In (k, a) d -> dict_get d k = Some a.
Proof.
  induction d as [|[k0 a0] d IH]; simpl; intros Hnd Hin; [destruct Hin|].
  inversion Hnd as [|? ? Hnot Hnd']; subst.
  destruct Hin as [E|Hin].
  - inversion E; subst. destruct (Var_eq_dec k k); congruence.
  - destruct (Var_eq_dec k0 k) as [->|Hne]; [|auto].
    exfalso. apply Hnot. apply in_map_iff. exists (k, a). auto.
Qed.

Lemma values_NoDup_injective (a : assignment) :
  NoDup (dict_keys a) ->
  (NoDup (dict_values a) <->
   forall v1 v2 w, dict_get a v1 = Some w -> dict_get a v2 = Some w -> v1 = v2).
Proof.
  intros Hk. split.
  - intros Hv v1 v2 w H1 H2. apply dict_get_in in H1, H2.
    clear Hk. induction a as [|[k w0] a IH]; [destruct H1|].
    simpl in Hv. inversion Hv as [|? ? Hnot Hv']; subst.
    destruct H1 as [E1|H1], H2 as [E2|H2].
    + congruence.
    + inversion E1; subst. exfalso. apply Hnot.
      apply in_map_iff. exists (v2, w). auto.
    + inversion E2; subst. exfalso. apply Hnot.
      apply in_map_iff. exists (v1, w). auto.
    + auto.
  - intros Hinj. induction a as [|[k w] a IH]; simpl; [constructor|].
    simpl in Hk. inversion Hk as [|? ? Hnot Hk']; subst.
    constructor.
    + intros Hin. apply in_map_iff in Hin as ([k' w'] & E & Hin). simpl in E. subst w'.
      assert (Hk'' : k' <> k).
      { intros ->. apply Hnot. apply in_map_iff. exists (k, w). auto. }
      assert (E : k' = k).
      { apply (Hinj k' k w).
        - simpl. destruct (Var_eq_dec k k'); [congruence|].
          apply dict_get_of_in; assumption.
        - simpl. destruct (Var_eq_dec k k); congruence. }
      contradiction.
    + apply IH; [assumption|].
      intros v1 v2 w' H1 H2. apply (Hinj v1 v2 w').
      * simpl. destruct (Var_eq_dec k v1) as [->|]; [|assumption].
        exfalso. apply Hnot. eapply dict_get_in_keys. eassumption.
      * simpl. destruct (Var_eq_dec k v2) as [->|]; [|assumption].
        exfalso. apply Hnot. eapply dict_get_in_keys. eassumption.
Qed.

Lemma lookup_Ok a var w : lookup a var = Ok w <-> dict_get a var = Some w.
Proof. unfold lookup. destruct (dict_get a var); split; congruence. Qed.

Lemma consistent_neighbors_true cw a var ns :
  consistent_neighbors cw a var ns = Ok true <->
  forall n, In n ns -> dict_mem a n = true ->
    exists i j wv wn,
      overlaps cw var n = Some (i, j) /\
      dict_get a var = Some wv /\ dict_get a n = Some wn /\ agree wv i wn j.
Proof.
  induction ns as [|n ns IH]; simpl.
  - split; [intros _ ? []|reflexivity].
  - destruct (dict_mem a n) eqn:Hmem.
    + destruct (overlaps cw var n) as [[i j]|] eqn:Hov.
      * unfold rbind.
        destruct (lookup a var) as [wv|] eqn:Hwv.
        2: { split; [discriminate|]. intros H.
             destruct (H n (or_introl eq_refl) Hmem) as (? & ? & wv & ? & _ & Hg & _).
             apply lookup_Ok in Hg. congruence. }
        destruct (index wv i) as [ci|] eqn:Hci.
        2: { split; [discriminate|]. intros H.
             destruct (H n (or_introl eq_refl) Hmem)
               as (i' & j' & wv' & wn' & E & Hg & _ & c & Hc & _).
             apply lookup_Ok in Hwv. assert (wv' = wv) by congruence. subst.
             inversion E; subst. apply index_Ok in Hc. congruence. }
        destruct (lookup a n) as [wn|] eqn:Hwn.
        2: { split; [discriminate|]. intros H.
             destruct (H n (or_introl eq_refl) Hmem) as (? & ? & ? & wn & _ & _ & Hg & _).
             apply lookup_Ok in Hg. congruence. }
        destruct (index wn j) as [cj|] eqn:Hcj.
        2: { split; [discriminate|]. intros H.
             destruct (H n (or_introl eq_refl) Hmem)
               as (i' & j' & wv' & wn' & E & _ & Hg & c & _ & Hc).
             apply lookup_Ok in Hwn. assert (wn' = wn) by congruence. subst.
             inversion E; subst. apply index_Ok in Hc. congruence. }
        apply lookup_Ok in Hwv, Hwn. apply index_Ok in Hci, Hcj.
        destruct (ascii_eqb ci cj) eqn:Heq; simpl.
        -- rewrite IH. apply ascii_eqb_true in Heq. subst cj. split.
           ++ intros H n' [<-|Hn'] Hm; [|auto].
              exists i, j, wv, wn. repeat split; auto. exists ci. auto.
           ++ intros H n' Hn' Hm. apply H; [right|]; assumption.
        -- split; [discriminate|]. intros H.
           destruct (H n (or_introl eq_refl) Hmem)
             as (i' & j' & wv' & wn' & E & Hg1 & Hg2 & c & Hc1 & Hc2).
           inversion E; subst.
           assert (wv' = wv) by congruence. assert (wn' = wn) by congruence. subst.
           assert (ci = cj) by congruence.
           apply ascii_eqb_true in H0. congruence.
      * split; [discriminate|]. intros H.
        destruct (H n (or_introl eq_refl) Hmem) as (? & ? & ? & ? & E & _). congruence.
    + rewrite IH. split.
      * intros H n' [<-|Hn'] Hm; [congruence|auto].
      * intros H n' Hn' Hm. apply H; [right|]; assumption.
Qed.

Lemma consistent_vars_true cw a vs :
  consistent_vars cw a vs = Ok true <->
  forall var, In var vs ->
    exists w, dict_get a var = Some w /\ var_length var = String.length w /\
              consistent_neighbors cw a var (neighbors cw var) = Ok true.
Proof.
  induction vs as [|var vs IH]; simpl.
  - split; [intros _ ? []|reflexivity].
  - unfold rbind. destruct (lookup a var) as [w|] eqn:Hw.
    2: { split; [discriminate|]. intros H.
         destruct (H var (or_introl eq_refl)) as (w & Hg & _).
         apply lookup_Ok in Hg. congruence. }
    apply lookup_Ok in Hw.
    destruct (Nat.eqb (var_length var) (String.length w)) eqn:Hlen; simpl.
    + apply Nat.eqb_eq in Hlen.
      destruct (consistent_neighbors cw a var (neighbors cw var)) as [[|]|e] eqn:Hn.
      * rewrite IH. split.
        -- intros H v [<-|Hv]; [|auto]. exists w. auto.
        -- intros H v Hv. apply H. right. assumption.
      * split; [discriminate|]. intros H.
        destruct (H var (or_introl eq_refl)) as (_ & _ & _ & E). congruence.
      * split; [discriminate|]. intros H.
        destruct (H var (or_introl eq_refl)) as (_ & _ & _ & E). congruence.
    + apply Nat.eqb_neq in Hlen. split; [discriminate|]. intros H.
      destruct (H var (or_introl eq_refl)) as (w' & Hg & Hl & _).
      assert (w' = w) by congruence. subst. contradiction.
Qed.

(** C7: on an assignment of variables of the crossword, [consistent]
    returns True exactly when (a) no word is assigned to two variables,
    (b) every assigned word has the length of its variable, and (c) any
    two assigned variables that overlap carry the same character at the
    overlap. *)
Theorem consistent_iff (cw : Crossword) (a : assignment) :
  symmetric_overlaps cw ->
  NoDup (dict_keys a) ->
  incl (dict_keys a) (variables cw) ->
  (consistent cw a = Ok true <->
   (forall v1 v2 w, dict_get a v1 = Some w -> dict_get a v2 = Some w -> v1 = v2) /\
   (forall v w, dict_get a v = Some w -> String.length w = var_length v) /\
   (forall x y i j wx wy,
      x <> y -> dict_get a x = Some wx -> dict_get a y = Some wy ->
      overlaps cw x y = Some (i, j) -> agree wx i wy j)).
Proof.
  intros Hsym Hnd Hincl. unfold consistent.
  destruct (List.length (nodup string_dec (dict_values a)) <? List.length (dict_values a))
    eqn:Htest.
  - split; [discriminate|]. intros (Ha & _ & _).
    apply (values_NoDup_injective a Hnd) in Ha.
    apply values_distinct_test in Ha. congruence.
  - apply values_distinct_test in Htest.
    pose proof (proj1 (values_NoDup_injective a Hnd) Htest) as Hinj.
    rewrite consistent_vars_true. split.
    + intros H. split; [exact Hinj|]. split.
      * intros v w Hv.
        destruct (H v (dict_get_in_keys _ _ _ Hv)) as (w' & Hw' & Hlen & _).
        congruence.
      * intros x y i j wx wy Hxy Hx Hy Hov.
        pose proof (dict_get_in_keys _ _ _ Hx) as Hkx.
        pose proof (dict_get_in_keys _ _ _ Hy) as Hky.
        destruct (H x Hkx) as (_ & _ & _ & Hn).
        rewrite consistent_neighbors_true in Hn.
        destruct (Hn y) as (i' & j' & wv & wn & E & Hgx & Hgy & Hag).
        -- apply in_neighbors. split; [apply Hincl; assumption|].
           split; [congruence|].
           rewrite (Hsym x y i j (Hincl x Hkx) (Hincl y Hky) Hov). discriminate.
        -- apply dict_mem_true. assumption.
        -- congruence.
    + intros (_ & Hb & Hc) var Hvar.
      destruct (in_keys_dict_get _ _ Hvar) as [w Hw].
      exists w. split; [assumption|]. split; [symmetry; eauto|].
      apply consistent_neighbors_true. intros n Hn Hmem.
      apply in_neighbors in Hn as (HnV & Hne & Hov).
      apply dict_mem_true in Hmem.
      destruct (in_keys_dict_get _ _ Hmem) as [wn Hwn].
      destruct (overlaps cw n var) as [[j i]|] eqn:Hov'; [|congruence].
      pose proof (Hsym n var j i HnV (Hincl var Hvar) Hov') as Hov''.
      exists i, j, w, wn. repeat split; auto.
      apply (Hc var n i j w wn); auto.
Qed.

(** ** Backtracking search *)

Lemma first_some_inv {A R} (body : A -> M (option R))
    (I : CrosswordCreator -> Prop) (Q : R -> Prop) l :
  (forall a s r s', In a l -> I s -> body a s = Ok (r, s') ->
                    I s' /\ forall v, r = Some v -> Q v) ->
  forall s r s', I s -> first_some body l s = Ok (r, s') ->
                 I s' /\ forall v, r = Some v -> Q v.
Proof.
  induction l as [|a l IH]; intros Hbody s r s' HI H; simpl in H.
  - apply ret_Ok in H as [-> ->]. split; [assumption|discriminate].
  - apply bind_Ok in H as (r1 & s1 & Hb & H).
    destruct (Hbody a s r1 s1 (or_introl eq_refl) HI Hb) as [HI1 HQ].
    destruct r1 as [v|].
    + apply ret_Ok in H as [-> ->]. split; [assumption|]. exact HQ.
    + apply (IH (fun a s r s' Hin => Hbody a s r s' (or_intror Hin)) s1 r s' HI1 H).
Qed.

Lemma select_Ok_in s a v :
  select_unassigned_variable s a = Ok v -> In v (unassigned s a).
Proof.
  intros H. destruct (unassigned s a) as [|v0 vs] eqn:E.
  - unfold select_unassigned_variable in H. rewrite E in H. discriminate.
  - assert (Hne : unassigned s a <> []) by (rewrite E; discriminate).
    destruct (select_unassigned_variable_spec s a Hne) as (v' & d & Hsel & Hin & _).
    rewrite <- E. congruence.
Qed.

Lemma dict_set_extends {A} (d : list (Var * A)) k a k' a' :
  ~ In k (dict_keys d) -> dict_get d k' = Some a' ->
  dict_get (dict_set d k a) k' = Some a'.
Proof.
  intros Hk Hget. destruct (Var_eq_dec k' k) as [->|Hne].
  - exfalso. apply Hk. eapply dict_get_in_keys. eassumption.
  - rewrite dict_get_set_neq by assumption. assumption.
Qed.

Lemma backtrack_rec_frame fuel : forall a s r s',
  backtrack_rec fuel a s = Ok (r, s') ->
  s' = s /\
  forall res v w, r = Some res -> dict_get a v = Some w -> dict_get res v = Some w.
Proof.
  induction fuel as [|fuel IH]; intros a s r s' H; simpl in H; [discriminate|].
  unfold backtrack_body in H.
  apply bind_Ok in H as (complete & s1 & Hcomp & H).
  unfold assignment_complete in Hcomp. inversion Hcomp; subst complete s1; clear Hcomp.
  destruct (Nat.eqb (List.length (dict_keys a)) (List.length (variables (crossword s)))).
  - apply ret_Ok in H as [-> ->]. split; [reflexivity|].
    intros res v w E Hv. inversion E; subst. assumption.
  - apply bind_Ok in H as (variable & s1 & Hsel & H).
    apply reads_Ok in Hsel as [Hsel ->].
    apply bind_Ok in H as (d & s1 & Hd & H).
    apply domain_Ok in Hd as [Hd ->].
    apply select_Ok_in, unassigned_keys in Hsel as [_ Hfresh].
    pose proof (first_some_inv
      (fun w => ok <- reads (fun self => consistent (crossword self) (dict_set a variable w)) ;;
                if ok then backtrack_rec fuel (dict_set a variable w) else ret None)
      (fun s1 => s1 = s)
      (fun res => forall v w, dict_get a v = Some w -> dict_get res v = Some w) d) as Hloop.
    assert (Hbody : forall w s0 r0 s0', In w d -> s0 = s ->
      (ok <- reads (fun self => consistent (crossword self) (dict_set a variable w)) ;;
       if ok then backtrack_rec fuel (dict_set a variable w) else ret None) s0
        = Ok (r0, s0') ->
      s0' = s /\
      forall res, r0 = Some res ->
                  forall v w, dict_get a v = Some w -> dict_get res v = Some w).
    { intros w s0 r0 s0' _ -> Hbody.
      apply bind_Ok in Hbody as (ok & s2 & Hok & Hbody).
      apply reads_Ok in Hok as [Hok ->].
      destruct ok.
      * destruct (IH _ _ _ _ Hbody) as [-> Hext]. split; [reflexivity|].
        intros res -> v w' Hv. apply (Hext res v w' eq_refl).
        apply dict_set_extends; assumption.
      * apply ret_Ok in Hbody as [-> ->]. split; [reflexivity|discriminate]. }
    destruct (Hloop Hbody s r s' eq_refl H) as [Hs Hres].
    split; [assumption|]. intros res v w E. apply Hres. assumption.
Qed.

(** C9: a call of [backtrack] hands the object back as it received it
    (the domain store and the problem graph are the same), so that a
    branch explored afterwards runs as if the first had not been
    explored; and the assignment it returns extends the one it was
    given. *)
Theorem backtrack_frame (a : assignment) (s : CrosswordCreator)
    (r : option assignment) (s' : CrosswordCreator) :
  backtrack a s = Ok (r, s') ->
  domains s' = domains s /\ crossword s' = crossword s /\
  (forall sibling, backtrack sibling s' = backtrack sibling s) /\
  forall res v w, r = Some res -> dict_get a v = Some w -> dict_get res v = Some w.
Proof.
  intros H. unfold backtrack in H.
  destruct (backtrack_rec_frame _ _ _ _ _ H) as [-> Hext]. auto.
Qed.

Lemma backtrack_rec_sound fuel : forall a s r s',
  assignment_ok s a ->
  backtrack_rec fuel a s = Ok (Some r, s') ->
  assignment_ok s r /\
  List.length (dict_keys r) = List.length (variables (crossword s)).
Proof.
  induction fuel as [|fuel IH]; intros a s r s' Hok H; simpl in H; [discriminate|].
  unfold backtrack_body in H.
  apply bind_Ok in H as (complete & s1 & Hcomp & H).
  unfold assignment_complete in Hcomp. inversion Hcomp; subst complete s1; clear Hcomp.
  destruct (Nat.eqb (List.length (dict_keys a)) (List.length (variables (crossword s))))
    eqn:Hlen.
  - apply ret_Ok in H as [E ->]. inversion E; subst r.
    apply Nat.eqb_eq in Hlen. auto.
  - apply bind_Ok in H as (variable & s1 & Hsel & H).
    apply reads_Ok in Hsel as [Hsel ->].
    apply bind_Ok in H as (d & s1 & Hd & H).
    apply domain_Ok in Hd as [Hd ->].
    apply select_Ok_in, unassigned_keys in Hsel as [Hkey Hfresh].
    destruct Hok as (Hnd & Hincl & Hcons).
    pose proof (first_some_inv
      (fun w => ok <- reads (fun self => consistent (crossword self) (dict_set a variable w)) ;;
                if ok then backtrack_rec fuel (dict_set a variable w) else ret None)
      (fun s1 => s1 = s)
      (fun res => assignment_ok s res /\
                  List.length (dict_keys res) = List.length (variables (crossword s))) d)
      as Hloop.
    assert (Hbody : forall w s0 r0 s0', In w d -> s0 = s ->
      (ok <- reads (fun self => consistent (crossword self) (dict_set a variable w)) ;;
       if ok then backtrack_rec fuel (dict_set a variable w) else ret None) s0
        = Ok (r0, s0') ->
      s0' = s /\
      forall res, r0 = Some res ->
                  assignment_ok s res /\
                  List.length (dict_keys res) = List.length (variables (crossword s))).
    { intros w s0 r0 s0' _ -> Hbody.
      apply bind_Ok in Hbody as (ok & s2 & Hcw & Hbody).
      apply reads_Ok in Hcw as [Hcw ->].
      destruct ok.
      * destruct (backtrack_rec_frame _ _ _ _ _ Hbody) as [-> _].
        split; [reflexivity|]. intros res ->.
        apply (IH _ _ _ _ ) in Hbody; [assumption|].
        assert (Hkeys : dict_keys (dict_set a variable w) = dict_keys a ++ [variable]).
        { apply dict_keys_set_absent. apply dict_get_None. assumption. }
        split; [|split]; [| |assumption].
        -- rewrite Hkeys. apply NoDup_app; [assumption|repeat constructor; intros []|].
           intros v Hv [<-|[]]. contradiction.
        -- rewrite Hkeys. intros v Hv. apply in_app_or in Hv as [Hv|[<-|[]]]; auto.
      * apply ret_Ok in Hbody as [-> ->]. split; [reflexivity|discriminate]. }
    destruct (Hloop Hbody s (Some r) s' eq_refl H) as [_ Hres].
    apply Hres. reflexivity.
Qed.

Lemma ac3_loop_frame fuel : forall q s b s',
  ac3_loop fuel q s = Ok (b, s') ->
  crossword s' = crossword s /\ dict_keys (domains s') = dict_keys (domains s).
Proof.
  induction fuel as [|fuel IH]; intros q s b s' H; simpl in H; [discriminate|].
  destruct q as [|[x y] rest].
  - apply ret_Ok in H as [_ ->]. auto.
  - apply bind_Ok in H as (b1 & s1 & Hrev & H).
    destruct (revise_size _ _ _ _ _ Hrev) as (Hc & Hk & _).
    destruct b1.
    + apply bind_Ok in H as (dx & s2 & Hdx & H).
      apply domain_Ok in Hdx as [Hdx ->].
      destruct (Nat.eqb (List.length dx) 0).
      * apply ret_Ok in H as [_ ->]. auto.
      * destruct (IH _ _ _ _ H) as (Hc' & Hk'). split; congruence.
    + destruct (IH _ _ _ _ H) as (Hc' & Hk'). split; congruence.
Qed.

Lemma ac3_None_frame s b s' :
  ac3 None s = Ok (b, s') ->
  crossword s' = crossword s /\ dict_keys (domains s') = dict_keys (domains s).
Proof.
  intros H. apply ac3_None_Ok in H as (q & _ & H). eapply ac3_loop_frame. eassumption.
Qed.

Lemma solve_Ok s r s' :
  solve s = Ok (r, s') ->
  exists s0 b,
    enforce_node_consistency s = Ok (tt, s0) /\
    ac3 None s0 = Ok (b, s') /\
    backtrack [] s' = Ok (r, s').
Proof.
  unfold solve. intros H.
  apply bind_Ok in H as (u & s0 & Hnode & H). destruct u.
  apply bind_Ok in H as (b & s1 & Hac3 & H).
  pose proof H as H'. unfold backtrack in H'.
  apply backtrack_rec_frame in H' as [-> _]. eauto.
Qed.

Lemma consistent_nil cw : consistent cw [] = Ok true.
Proof. reflexivity. Qed.

(** C1: an assignment returned by [solve()] gives every variable of
    the crossword exactly one word and nothing else, passes
    [consistent], and uses no word for two variables. *)
Theorem solve_sound (s : CrosswordCreator) (a : assignment) (s' : CrosswordCreator) :
  creator_ok s ->
  solve s = Ok (Some a, s') ->
  (forall v, In v (variables (crossword s)) -> exists! w, In (v, w) a) /\
  (forall v w, In (v, w) a -> In v (variables (crossword s))) /\
  consistent (crossword s) a = Ok true /\
  (forall v1 v2 w, In (v1, w) a -> In (v2, w) a -> v1 = v2).
Proof.
  intros Hok H. apply solve_Ok in H as (s0 & b & Hnode & Hac3 & Hbt).
  destruct (enforce_node_consistency_spec _ _ _ Hnode) as (Hc0 & Hk0 & _).
  destruct (ac3_None_frame _ _ _ Hac3) as (Hc1 & Hk1).
  assert (Hcw : crossword s' = crossword s) by congruence.
  assert (Hkeys : dict_keys (domains s') = variables (crossword s)).
  { rewrite Hk1, Hk0. exact Hok. }
  unfold backtrack in Hbt.
  apply backtrack_rec_sound in Hbt as [(Hnd & Hincl & Hcons) Hlen].
  2: { split; [constructor|]. split; [intros ? []|reflexivity]. }
  rewrite Hcw in Hcons, Hlen. rewrite Hkeys in Hincl.
  assert (Hall : incl (variables (crossword s)) (dict_keys a)).
  { apply NoDup_length_incl; [assumption|lia|assumption]. }
  split; [|split; [|split]].
  - intros v Hv. destruct (in_keys_dict_get _ _ (Hall v Hv)) as [w Hw].
    exists w. split; [apply dict_get_in; assumption|].
    intros w' Hw'. apply (dict_get_of_in _ _ _ Hnd) in Hw'. congruence.
  - intros v w Hin. apply Hincl. apply in_map_iff. exists (v, w). auto.
  - exact Hcons.
  - intros v1 v2 w H1 H2.
    apply (dict_get_of_in _ _ _ Hnd) in H1, H2.
    unfold consistent in Hcons.
    destruct (List.length (nodup string_dec (dict_values a)) <? List.length (dict_values a))
      eqn:Htest; [discriminate|].
    apply values_distinct_test in Htest.
    exact (proj1 (values_NoDup_injective a Hnd) Htest v1 v2 w H1 H2).
Qed.

(** ** The least-constraining-value score *)

Lemma differ_b_true o i v j : differ_b o i v j = true <-> differ o i v j.
Proof.
  unfold differ_b, differ.
  destruct (String.get i o) as [a|], (String.get j v) as [b|]; split;
    try discriminate; try (intros (? & ? & ? & ? & _); discriminate).
  - intros H. exists a, b. repeat split.
    intros ->. unfold ascii_eqb in H. destruct (ascii_dec b b); [discriminate|congruence].
  - intros (a' & b' & Ha & Hb & Hne). inversion Ha; inversion Hb; subst.
    unfold ascii_eqb. destruct (ascii_dec a' b'); [contradiction|reflexivity].
Qed.

Lemma set_add_In value s w : In w (set_add value s) <-> In w s \/ w = value.
Proof.
  unfold set_add. destruct (mem_word value s) eqn:E.
  - apply mem_word_true in E. split; [auto|]. intros [H| ->]; assumption.
  - rewrite in_app_iff. simpl. intuition.
Qed.

Lemma set_add_NoDup value s : NoDup s -> NoDup (set_add value s).
Proof.
  intros H. unfold set_add. destruct (mem_word value s) eqn:E; [assumption|].
  apply mem_word_false in E. apply NoDup_app; [assumption|repeat constructor; intros []|].
  intros w Hw [<-|[]]. contradiction.
Qed.

Lemma eliminate_scan_Ok option i j vals : forall e e',
  eliminate_scan option i j vals e = Ok e' ->
  NoDup e ->
  NoDup e' /\
  forall w, In w e' <-> In w e \/ (In w vals /\ differ option i w j).
Proof.
  induction vals as [|value vals IH]; intros e e' H Hnd; simpl in H.
  - inversion H; subst. split; [assumption|]. intros w. simpl. tauto.
  - unfold rbind in H.
    destruct (index option i) as [co|] eqn:Eo; [|discriminate].
    destruct (index value j) as [cv|] eqn:Ev; [|discriminate].
    apply index_Ok in Eo, Ev.
    assert (Hd : differ_b option i value j = negb (ascii_eqb co cv)).
    { unfold differ_b. rewrite Eo, Ev. reflexivity. }
    destruct (negb (ascii_eqb co cv)) eqn:Hneq.
    + apply differ_b_true in Hd.
      destruct (IH _ _ H (set_add_NoDup value e Hnd)) as [Hnd' Hin].
      split; [assumption|]. intros w. rewrite Hin, set_add_In. simpl.
      split.
      * intros [[H1| ->]|[H1 H2]]; auto.
      * intros [H1|[[<-|H1] H2]]; auto.
    + assert (Hnot : ~ differ option i value j).
      { rewrite <- differ_b_true. congruence. }
      destruct (IH _ _ H Hnd) as [Hnd' Hin].
      split; [assumption|]. intros w. rewrite Hin. simpl.
      split.
      * intros [H1|[H1 H2]]; auto.
      * intros [H1|[[<-|H1] H2]]; auto. contradiction.
Qed.

Lemma eliminate_neighbors_Ok s var option ns : forall e e',
  eliminate_neighbors s var option ns e = Ok e' ->
  NoDup e ->
  NoDup e' /\
  forall w, In w e' <->
            In w e \/
            exists n i j, In n ns /\ overlaps (crossword s) var n = Some (i, j) /\
                          In w (dom_of s n) /\ differ option i w j.
Proof.
  induction ns as [|n ns IH]; intros e e' H Hnd; simpl in H.
  - inversion H; subst. split; [assumption|]. intros w. split; [auto|].
    intros [H1|(n & i & j & [] & _)]. assumption.
  - destruct (overlaps (crossword s) var n) as [[i j]|] eqn:Hov; [|discriminate].
    unfold rbind in H. destruct (get_domain s n) as [d|] eqn:Hd; [|discriminate].
    assert (Hdom : dom_of s n = d).
    { unfold get_domain in Hd. unfold dom_of.
      destruct (dict_get (domains s) n); congruence. }
    destruct (eliminate_scan option i j
                (filter (fun w => negb (mem_word w e)) d) e) as [e1|] eqn:Hscan;
      [|discriminate].
    destruct (eliminate_scan_Ok _ _ _ _ _ _ Hscan Hnd) as [Hnd1 Hin1].
    destruct (IH _ _ H Hnd1) as [Hnd' Hin].
    split; [assumption|]. intros w. rewrite Hin, Hin1, filter_In, negb_true_iff.
    split.
    + intros [[H1|[[H1 _] H2]]|(n' & i' & j' & Hn' & Hov' & Hw & Hdf)]; auto.
      * right. exists n, i, j. rewrite Hdom. simpl. auto.
      * right. exists n', i', j'. simpl. auto.
    + intros [H1|(n' & i' & j' & [<-|Hn'] & Hov' & Hw & Hdf)]; auto.
      * rewrite Hov in Hov'. inversion Hov'; subst i' j'. rewrite Hdom in Hw.
        destruct (mem_word w e) eqn:Hm.
        -- apply mem_word_true in Hm. auto.
        -- left. right. auto.
      * right. exists n', i', j'. auto.
Qed.

Lemma eliminate_values_Ok s var option a score :
  eliminate_values s var option a = Ok score ->
  exists eliminated,
    NoDup eliminated /\
    List.length eliminated = score /\
    forall value, In value eliminated <-> ruled_out s var option a value.
Proof.
  unfold eliminate_values, rbind. intros H.
  destruct (eliminate_neighbors s var option
              (filter (fun n => negb (dict_mem a n)) (neighbors (crossword s) var)) [])
    as [e|] eqn:He; [|discriminate].
  inversion H; subst score.
  destruct (eliminate_neighbors_Ok _ _ _ _ _ _ He (NoDup_nil _)) as [Hnd Hin].
  exists e. split; [assumption|]. split; [reflexivity|].
  intros value. rewrite Hin. unfold ruled_out. split.
  - intros [[]|(n & i & j & Hn & Hov & Hw & Hd)].
    apply filter_In in Hn as [Hn Hun].
    apply negb_true_iff, dict_mem_false in Hun.
    exists n, i, j. auto.
  - intros (n & i & j & Hn & Hun & Hov & Hw & Hd). right.
    exists n, i, j. split; [|auto].
    apply filter_In. split; [assumption|].
    apply negb_true_iff, dict_mem_false. assumption.
Qed.

Lemma insert_by_key_perm p l : Permutation (insert_by_key p l) (p :: l).
Proof.
  induction l as [|q l IH]; simpl; [reflexivity|].
  destruct (fst p <=? fst q); [reflexivity|].
  rewrite IH. apply perm_swap.
Qed.

Lemma sort_by_key_perm l : Permutation (sort_by_key l) l.
Proof.
  induction l as [|p l IH]; simpl; [reflexivity|].
  rewrite insert_by_key_perm. constructor. assumption.
Qed.

Lemma insert_by_key_sorted p l :
  StronglySorted (fun a b => fst a <= fst b) l ->
  StronglySorted (fun a b => fst a <= fst b) (insert_by_key p l).
Proof.
  induction l as [|q l IH]; simpl; intros Hs.
  - repeat constructor.
  - inversion Hs as [|? ? Hs' Hall]; subst.
    destruct (fst p <=? fst q) eqn:E.
    + apply Nat.leb_le in E. constructor; [assumption|].
      constructor; [assumption|].
      eapply Forall_impl; [|exact Hall]. simpl. intros; lia.
    + apply Nat.leb_gt in E. constructor; [auto|].
      eapply Permutation_Forall; [symmetry; apply insert_by_key_perm|].
      constructor; [lia|assumption].
Qed.

Lemma sort_by_key_sorted l :
  StronglySorted (fun a b => fst a <= fst b) (sort_by_key l).
Proof.
  induction l as [|p l IH]; simpl; [constructor|].
  apply insert_by_key_sorted. assumption.
Qed.

Lemma with_keys_Ok key l : forall ks,
  with_keys key l = Ok ks ->
  map snd ks = l /\ forall k w, In (k, w) ks -> key w = Ok k.
Proof.
  induction l as [|w l IH]; intros ks H; simpl in H.
  - inversion H; subst. split; [reflexivity|]. intros ? ? [].
  - unfold rbind in H. destruct (key w) as [k|] eqn:Ek; [|discriminate].
    destruct (with_keys key l) as [ks'|]; [|discriminate].
    inversion H; subst ks. destruct (IH ks' eq_refl) as [Hm Hk].
    split; [simpl; congruence|].
    intros k0 w0 [E|Hin]; [inversion E; subst; assumption|auto].
Qed.

(** C5, as the code has it: [order_domain_values] returns the domain
    of [var] in ascending order of a score, and the score of a candidate
    is the number of distinct words ruled out in the domain of some
    unassigned neighbor of [var]; a word ruled out in the domains of two
    neighbors counts once. *)
Theorem order_domain_values_score (s : CrosswordCreator) (var : Var)
    (a : assignment) (ordered : list word) :
  order_domain_values s var a = Ok ordered ->
  exists scored : list (nat * word),
    ordered = map snd scored /\
    Permutation ordered (dom_of s var) /\
    StronglySorted (fun p q => fst p <= fst q) scored /\
    forall score option, In (score, option) scored ->
      eliminate_values s var option a = Ok score /\
      exists eliminated,
        NoDup eliminated /\
        List.length eliminated = score /\
        forall value, In value eliminated <-> ruled_out s var option a value.
Proof.
  unfold order_domain_values, rbind. intros H.
  destruct (get_domain s var) as [d|] eqn:Hd; [|discriminate].
  destruct (with_keys (fun option => eliminate_values s var option a) d)
    as [keyed|] eqn:Hk; [|discriminate].
  inversion H; subst ordered.
  destruct (with_keys_Ok _ _ _ Hk) as [Hm Hkeys].
  assert (Hdom : dom_of s var = d).
  { unfold get_domain in Hd. unfold dom_of.
    destruct (dict_get (domains s) var); congruence. }
  exists (sort_by_key keyed). split; [reflexivity|]. split.
  { rewrite Hdom, <- Hm. apply Permutation_map. apply sort_by_key_perm. }
  split; [apply sort_by_key_sorted|].
  intros score option Hin.
  apply (Permutation_in _ (sort_by_key_perm keyed)) in Hin.
  pose proof (Hkeys _ _ Hin) as Hev. split; [assumption|].
  apply eliminate_values_Ok. assumption.
Qed.

(** ** The recursion bound of the search is never reached *)

Lemma filter_length_lt {A} (f g : A -> bool) (l : list A) x :
  (forall y, f y = true -> g y = true) ->
  In x l -> g x = true -> f x = false ->
  List.length (filter f l) < List.length (filter g l).
Proof.
  intros Hfg. induction l as [|y l IH]; simpl; intros Hin Hg Hf; [destruct Hin|].
  assert (Hle : List.length (filter f l) <= List.length (filter g l)).
  { clear -Hfg. induction l as [|z l IH]; simpl; [lia|].
    destruct (f z) eqn:E; [rewrite (Hfg z E); simpl; lia|].
    destruct (g z); simpl; lia. }
  destruct Hin as [->|Hin].
  - rewrite Hg, Hf. simpl. lia.
  - specialize (IH Hin Hg Hf).
    destruct (f y) eqn:E; [rewrite (Hfg y E); simpl; lia|].
    destruct (g y); simpl; lia.
Qed.

Lemma unassigned_shrinks s a v w :
  In v (unassigned s a) ->
  List.length (unassigned s (dict_set a v w)) < List.length (unassigned s a).
Proof.
  intros Hv. pose proof Hv as Hv'. apply unassigned_keys in Hv' as [Hkey Hfresh].
  unfold unassigned. apply filter_length_lt with (x := v); auto.
  - intros y Hy. apply negb_true_iff in Hy. apply negb_true_iff.
    apply dict_mem_false. apply dict_mem_false in Hy. intros Hin. apply Hy.
    rewrite dict_keys_set_absent by (apply dict_get_None; assumption).
    apply in_or_app. left. assumption.
  - apply negb_true_iff, dict_mem_false. assumption.
  - apply negb_false_iff. unfold dict_mem. rewrite dict_get_set_eq. reflexivity.
Qed.

Lemma first_some_fuel_free {A R} (body : A -> M (option R))
    (I : CrosswordCreator -> Prop) l :
  (forall a s, In a l -> I s -> fuel_free (body a s)) ->
  (forall a s r s', In a l -> I s -> body a s = Ok (r, s') -> I s') ->
  forall s, I s -> fuel_free (first_some body l s).
Proof.
  induction l as [|a l IH]; intros Hfree Hinv s HI; simpl; [apply ret_fuel_free|].
  apply bind_fuel_free; [apply Hfree; simpl; auto|].
  intros r s1 Hb. destruct r; [apply ret_fuel_free|].
  apply IH.
  - intros a' s' Hin. apply Hfree. right. assumption.
  - intros a' s' r' s'' Hin. apply (Hinv a' s' r' s''). right. assumption.
  - apply (Hinv a s None s1); simpl; auto.
Qed.

Lemma rbind_fuel_free {A B} (m : res A) (k : A -> res B) :
  fuel_free m -> (forall a, m = Ok a -> fuel_free (k a)) -> fuel_free (rbind m k).
Proof.
  unfold rbind, fuel_free. destruct m; [auto|congruence].
Qed.

Lemma lookup_fuel_free a v : fuel_free (lookup a v).
Proof. unfold fuel_free, lookup. destruct (dict_get a v); discriminate. Qed.

Lemma get_domain_fuel_free s v : fuel_free (get_domain s v).
Proof. unfold fuel_free, get_domain. destruct (dict_get (domains s) v); discriminate. Qed.

Lemma consistent_neighbors_fuel_free cw a var ns :
  fuel_free (consistent_neighbors cw a var ns).
Proof.
  induction ns as [|n ns IH]; simpl; [discriminate|].
  destruct (dict_mem a n); [|assumption].
  destruct (overlaps cw var n) as [[i j]|]; [|discriminate].
  apply rbind_fuel_free; [apply lookup_fuel_free|]. intros wv _.
  apply rbind_fuel_free; [apply index_fuel_free|]. intros ci _.
  apply rbind_fuel_free; [apply lookup_fuel_free|]. intros wn _.
  apply rbind_fuel_free; [apply index_fuel_free|]. intros cj _.
  destruct (negb (ascii_eqb ci cj)); [discriminate|assumption].
Qed.

Lemma consistent_fuel_free cw a : fuel_free (consistent cw a).
Proof.
  unfold consistent.
  destruct (List.length (nodup string_dec (dict_values a)) <? List.length (dict_values a));
    [discriminate|].
  induction (dict_keys a) as [|var vs IH]; simpl; [discriminate|].
  apply rbind_fuel_free; [apply lookup_fuel_free|]. intros wv _.
  destruct (negb (Nat.eqb (var_length var) (String.length wv))); [discriminate|].
  apply rbind_fuel_free; [apply consistent_neighbors_fuel_free|]. intros ok _.
  destruct ok; [assumption|discriminate].
Qed.

Lemma select_key_fuel_free s v : fuel_free (select_key s v).
Proof.
  unfold select_key. apply rbind_fuel_free; [apply get_domain_fuel_free|].
  intros. discriminate.
Qed.

Lemma min_by_key_fuel_free s vs : forall best kbest,
  fuel_free (min_by_key s best kbest vs).
Proof.
  induction vs as [|v vs IH]; intros best kbest; simpl; [discriminate|].
  apply rbind_fuel_free; [apply select_key_fuel_free|]. intros k _.
  destruct (key_lt k kbest); apply IH.
Qed.

Lemma select_fuel_free s a : fuel_free (select_unassigned_variable s a).
Proof.
  unfold select_unassigned_variable. destruct (unassigned s a); [discriminate|].
  apply rbind_fuel_free; [apply select_key_fuel_free|]. intros k _.
  apply min_by_key_fuel_free.
Qed.

Lemma backtrack_rec_fuel_free fuel : forall a s,
  List.length (unassigned s a) < fuel -> fuel_free (backtrack_rec fuel a s).
Proof.
  induction fuel as [|fuel IH]; intros a s Hlt; [lia|]. simpl.
  unfold backtrack_body.
  apply bind_fuel_free; [discriminate|].
  intros complete s1 Hc. unfold assignment_complete in Hc.
  inversion Hc; subst complete s1; clear Hc.
  destruct (Nat.eqb (List.length (dict_keys a)) (List.length (variables (crossword s))));
    [apply ret_fuel_free|].
  apply bind_fuel_free; [apply reads_fuel_free, select_fuel_free|].
  intros variable s1 Hsel. apply reads_Ok in Hsel as [Hsel ->].
  apply select_Ok_in in Hsel.
  apply bind_fuel_free; [apply domain_fuel_free|].
  intros d s1 Hd. apply domain_Ok in Hd as [Hd ->].
  apply first_some_fuel_free with (I := fun s1 => s1 = s); [| |reflexivity].
  - intros w s0 _ ->.
    apply bind_fuel_free; [apply reads_fuel_free, consistent_fuel_free|].
    intros ok s1 Hok. apply reads_Ok in Hok as [Hok ->].
    destruct ok; [|apply ret_fuel_free].
    apply IH. pose proof (unassigned_shrinks s a variable w Hsel). lia.
  - intros w s0 r s0' _ -> Hb.
    apply bind_Ok in Hb as (ok & s1 & Hok & Hb).
    apply reads_Ok in Hok as [Hok ->].
    destruct ok.
    + apply backtrack_rec_frame in Hb as [-> _]. reflexivity.
    + apply ret_Ok in Hb as [_ ->]. reflexivity.
Qed.

(** [backtrack] always comes back: its recursion bound is never the
    reason for a failure. *)
Lemma backtrack_fuel_free a s : fuel_free (backtrack a s).
Proof. unfold backtrack. apply backtrack_rec_fuel_free. lia. Qed.

Lemma first_some_ext {A R} (body1 body2 : A -> M (option R))
    (I : CrosswordCreator -> Prop) l :
  (forall a s, In a l -> I s -> body1 a s = body2 a s) ->
  (forall a s r s', In a l -> I s -> body1 a s = Ok (r, s') -> I s') ->
  forall s, I s -> first_some body1 l s = first_some body2 l s.
Proof.
  induction l as [|a l IH]; intros Heq Hinv s HI; simpl; [reflexivity|].
  unfold bind. rewrite <- (Heq a s (or_introl eq_refl) HI).
  destruct (body1 a s) as [[r s1]|e] eqn:Hb; [|reflexivity].
  destruct r; [reflexivity|].
  apply IH.
  - intros a' s' Hin. apply Heq. right. assumption.
  - intros a' s' r' s'' Hin. apply (Hinv a' s' r' s''). right. assumption.
  - apply (Hinv a s None s1); simpl; auto.
Qed.

Lemma bind_ext {A B} (m : M A) (k1 k2 : A -> M B) s :
  (forall a s1, m s = Ok (a, s1) -> k1 a s1 = k2 a s1) ->
  bind m k1 s = bind m k2 s.
Proof.
  intros H. unfold bind. destruct (m s) as [[a s1]|e]; [apply H|]; reflexivity.
Qed.

Lemma backtrack_body_ext rec1 rec2 a s :
  (forall v w, In v (unassigned s a) ->
               rec1 (dict_set a v w) s = rec2 (dict_set a v w) s) ->
  (forall a' r s', rec1 a' s = Ok (r, s') -> s' = s) ->
  backtrack_body rec1 a s = backtrack_body rec2 a s.
Proof.
  intros Heq Hframe. unfold backtrack_body.
  apply bind_ext. intros complete s1 Hc.
  unfold assignment_complete in Hc. inversion Hc; subst complete s1; clear Hc.
  destruct (Nat.eqb (List.length (dict_keys a)) (List.length (variables (crossword s))));
    [reflexivity|].
  apply bind_ext. intros variable s1 Hsel.
  apply reads_Ok in Hsel as [Hsel ->]. apply select_Ok_in in Hsel.
  apply bind_ext. intros d s1 Hd.
  apply domain_Ok in Hd as [Hd ->].
  apply first_some_ext with (I := fun s1 => s1 = s); [| |reflexivity].
  - intros w s0 _ ->. apply bind_ext. intros ok s1 Hok.
    apply reads_Ok in Hok as [Hok ->].
    destruct ok; [|reflexivity]. apply Heq. assumption.
  - intros w s0 r s0' _ -> Hb.
    apply bind_Ok in Hb as (ok & s1 & Hok & Hb).
    apply reads_Ok in Hok as [Hok ->].
    destruct ok.
    + eapply Hframe. eassumption.
    + apply ret_Ok in Hb as [_ ->]. reflexivity.
Qed.

(** any fuel above the number of unassigned variables gives the same run *)
Lemma backtrack_rec_enough fuel : forall fuel' a s,
  List.length (unassigned s a) < fuel ->
  List.length (unassigned s a) < fuel' ->
  backtrack_rec fuel a s = backtrack_rec fuel' a s.
Proof.
  induction fuel as [|fuel IH]; intros fuel' a s H1 H2; [lia|].
  destruct fuel' as [|fuel']; [lia|]. simpl.
  apply backtrack_body_ext.
  - intros v w Hv. pose proof (unassigned_shrinks s a v w Hv).
    apply IH; lia.
  - intros a' r s' H. apply backtrack_rec_frame in H as [-> _]. reflexivity.
Qed.

(** the recursion of [backtrack] as the source has it *)
Lemma backtrack_unfold a s : backtrack a s = backtrack_body backtrack a s.
Proof.
  unfold backtrack at 1. simpl.
  apply backtrack_body_ext.
  - intros v w Hv. pose proof (unassigned_shrinks s a v w Hv).
    unfold backtrack. apply backtrack_rec_enough; lia.
  - intros a' r s' H. apply backtrack_rec_frame in H as [-> _]. reflexivity.
Qed.

Lemma first_some_split {A R} (body : A -> M (option R)) s l :
  (forall a r s', body a s = Ok (r, s') -> s' = s) ->
  forall v s', first_some body l s = Ok (Some v, s') ->
    exists l1 a l2,
      l = l1 ++ a :: l2 /\
      (forall a', In a' l1 -> body a' s = Ok (None, s)) /\
      body a s = Ok (Some v, s) /\ s' = s.
Proof.
  intros Hframe. induction l as [|a l IH]; intros v s' H; simpl in H.
  - apply ret_Ok in H as [E _]. discriminate.
  - apply bind_Ok in H as (r & s1 & Hb & H).
    pose proof (Hframe _ _ _ Hb) as ->.
    destruct r as [v'|].
    + apply ret_Ok in H as [E ->]. inversion E; subst v'.
      exists [], a, l. repeat split; auto. intros ? [].
    + destruct (IH _ _ H) as (l1 & a0 & l2 & -> & Hnone & Hsome & ->).
      exists (a :: l1), a0, l2. repeat split; auto.
      intros a' [<-|Hin]; auto.
Qed.

(** C4, as the code has it: [backtrack] tries the words of the
    selected variable in the iteration order of its domain, and the
    word it keeps is the first one whose extension is consistent and
    whose search succeeds; [order_domain_values] plays no part. *)
Theorem backtrack_domain_order (a : assignment) (s : CrosswordCreator)
    (r : assignment) (s' : CrosswordCreator) :
  backtrack a s = Ok (Some r, s') ->
  List.length (dict_keys a) <> List.length (variables (crossword s)) ->
  exists variable d tried w rest,
    select_unassigned_variable s a = Ok variable /\
    get_domain s variable = Ok d /\
    d = tried ++ w :: rest /\
    (forall w', In w' tried ->
       consistent (crossword s) (dict_set a variable w') = Ok false \/
       backtrack (dict_set a variable w') s = Ok (None, s)) /\
    consistent (crossword s) (dict_set a variable w) = Ok true /\
    backtrack (dict_set a variable w) s = Ok (Some r, s) /\
    dict_get r variable = Some w.
Proof.
  intros H Hlen. rewrite backtrack_unfold in H. unfold backtrack_body in H.
  apply bind_Ok in H as (complete & s1 & Hc & H).
  unfold assignment_complete in Hc. inversion Hc; subst complete s1; clear Hc.
  apply Nat.eqb_neq in Hlen. rewrite Hlen in H.
  apply bind_Ok in H as (variable & s1 & Hsel & H).
  apply reads_Ok in Hsel as [Hsel ->].
  apply bind_Ok in H as (d & s1 & Hd & H).
  apply domain_Ok in Hd as [Hd ->].
  assert (Hfresh : ~ In variable (dict_keys a)).
  { apply select_Ok_in, unassigned_keys in Hsel. tauto. }
  apply first_some_split in H.
  - destruct H as (tried & w & rest & -> & Hnone & Hsome & ->).
    exists variable, (tried ++ w :: rest), tried, w, rest.
    split; [assumption|]. split; [unfold get_domain; rewrite Hd; reflexivity|].
    split; [reflexivity|]. split.
    + intros w' Hw'. specialize (Hnone w' Hw').
      apply bind_Ok in Hnone as (ok & s1 & Hok & Hnone).
      apply reads_Ok in Hok as [Hok ->].
      destruct ok; [right; assumption|left; assumption].
    + apply bind_Ok in Hsome as (ok & s1 & Hok & Hsome).
      apply reads_Ok in Hok as [Hok ->].
      destruct ok; [|apply ret_Ok in Hsome as [E _]; discriminate].
      split; [assumption|]. split; [assumption|].
      pose proof Hsome as Hext. unfold backtrack in Hext.
      apply backtrack_rec_frame in Hext as [_ Hext].
      apply (Hext r variable w eq_refl). apply dict_get_set_eq.
  - intros w r0 s0 Hb.
    apply bind_Ok in Hb as (ok & s1 & Hok & Hb).
    apply reads_Ok in Hok as [Hok ->].
    destruct ok.
    + unfold backtrack in Hb. apply backtrack_rec_frame in Hb as [-> _]. reflexivity.
    + apply ret_Ok in Hb as [_ ->]. reflexivity.
Qed.

Lemma init_ok cw : creator_ok (init cw).
Proof.
  unfold creator_ok, init, dict_keys. simpl. rewrite map_map. simpl. apply map_id.
Qed.

(** ** The passes return on a well-formed instance *)

Lemma get_in_range w : forall i, i < String.length w -> exists c, String.get i w = Some c.
Proof.
  induction w as [|a w IH]; simpl; intros i Hi; [lia|].
  destruct i as [|i]; [eauto|]. apply IH. lia.
Qed.

Lemma in_remove_other (w w' : string) d :
  In w' d -> w' <> w -> In w' (remove string_dec w d).
Proof. intros Hin Hne. apply in_in_remove; assumption. Qed.

Lemma node_inner_total var l : forall s d,
  dict_get (domains s) var = Some d -> NoDup l -> incl l d ->
  exists s', for_each l (node_body var) s = Ok (tt, s').
Proof.
  induction l as [|w l IH]; intros s d Hd Hnd Hincl; simpl; [eexists; reflexivity|].
  inversion Hnd as [|? ? Hnot Hnd']; subst.
  assert (Hl : incl l d) by (intros w' Hw'; apply Hincl; right; assumption).
  unfold node_body at 1.
  destruct (negb (Nat.eqb (String.length w) (var_length var))).
  - assert (Hrm : remove_word var w s =
                  Ok (tt, {| crossword := crossword s;
                             domains := dict_set (domains s) var (remove string_dec w d) |})).
    { unfold remove_word. rewrite Hd.
      rewrite (proj2 (mem_word_true w d) (Hincl w (or_introl eq_refl))). reflexivity. }
    rewrite (bind_of_Ok _ _ _ _ _ Hrm).
    apply IH with (d := remove string_dec w d); [|assumption|].
    + simpl. apply dict_get_set_eq.
    + intros w' Hw'. apply in_remove_other; [auto|]. intros ->. contradiction.
  - unfold bind, ret. apply IH with (d := d); assumption.
Qed.

Lemma node_outer_total l : forall s,
  (forall v, In v l -> In v (dict_keys (domains s))) -> store_is_set s ->
  exists s', for_each l (fun var => d <- domain var ;; for_each d (node_body var)) s
             = Ok (tt, s').
Proof.
  induction l as [|var l IH]; intros s Hl Hset; simpl; [eexists; reflexivity|].
  destruct (in_keys_dict_get _ _ (Hl var (or_introl eq_refl))) as [d Hd].
  destruct (node_inner_total var d s d Hd (Hset var d Hd) (incl_refl d)) as [s1 H1].
  destruct (node_inner _ _ _ _ _ _ H1 Hd) as (Hc & Hk & Ho & Hv).
  assert (E : (d0 <- domain var ;; for_each d0 (node_body var)) s = Ok (tt, s1)).
  { rewrite (bind_of_Ok _ _ _ _ _ (domain_of_get _ _ _ Hd)). exact H1. }
  rewrite (bind_of_Ok _ _ _ _ _ E). apply IH.
  - intros v Hv'. rewrite Hk. apply Hl. right. assumption.
  - intros v dv Hdv. destruct (Var_eq_dec v var) as [->|Hne].
    + rewrite Hv in Hdv. inversion Hdv; subst dv.
      apply NoDup_filter. eapply Hset. eassumption.
    + rewrite Ho in Hdv by assumption. eapply Hset. eassumption.
Qed.

Lemma enforce_node_consistency_total s :
  store_is_set s -> exists s', enforce_node_consistency s = Ok (tt, s').
Proof. intros Hset. unfold enforce_node_consistency. apply node_outer_total; auto. Qed.

Lemma any_match_total w ox oy dy :
  (exists c, String.get ox w = Some c) ->
  (forall v, In v dy -> exists c, String.get oy v = Some c) ->
  exists b, any_match w ox oy dy = Ok b.
Proof.
  intros [cx Hx]. induction dy as [|v dy IH]; intros Hy; simpl; [eauto|].
  destruct (Hy v (or_introl eq_refl)) as [cy Hcy].
  unfold rbind, index. rewrite Hx, Hcy.
  destruct (ascii_eqb cx cy); [eauto|].
  apply IH. intros v' Hv'. apply Hy. right. assumption.
Qed.

Lemma revise_loop_total x y ox oy dy l : forall s r d,
  x <> y ->
  dict_get (domains s) x = Some d -> dict_get (domains s) y = Some dy ->
  NoDup l -> incl l d ->
  (forall w, In w l -> exists c, String.get ox w = Some c) ->
  (forall v, In v dy -> exists c, String.get oy v = Some c) ->
  exists r' s', for_acc l (revise_body x y ox oy) r s = Ok (r', s').
Proof.
  induction l as [|w l IH]; intros s r d Hxy Hd Hdy Hnd Hincl Hx Hy; simpl;
    [eexists; eexists; reflexivity|].
  inversion Hnd as [|? ? Hnot Hnd']; subst.
  assert (Hl : incl l d) by (intros w' Hw'; apply Hincl; right; assumption).
  assert (Hx' : forall w', In w' l -> exists c, String.get ox w' = Some c).
  { intros w' Hw'. apply Hx. right. assumption. }
  destruct (any_match_total w ox oy dy (Hx w (or_introl eq_refl)) Hy) as [b Hb].
  unfold revise_body at 1.
  destruct b.
  - assert (E : (dy0 <- domain y ;;
                 supported <- lift (any_match w ox oy dy0) ;;
                 if negb supported then remove_word x w ;; ret true else ret r) s
                = Ok (r, s)).
    { rewrite (bind_of_Ok _ _ _ _ _ (domain_of_get _ _ _ Hdy)).
      unfold bind, lift. rewrite Hb. reflexivity. }
    rewrite (bind_of_Ok _ _ _ _ _ E). apply IH with (d := d); assumption.
  - assert (E : (dy0 <- domain y ;;
                 supported <- lift (any_match w ox oy dy0) ;;
                 if negb supported then remove_word x w ;; ret true else ret r) s
                = Ok (true, {| crossword := crossword s;
                               domains := dict_set (domains s) x (remove string_dec w d) |})).
    { rewrite (bind_of_Ok _ _ _ _ _ (domain_of_get _ _ _ Hdy)).
      unfold bind, lift. rewrite Hb. simpl. unfold remove_word. rewrite Hd.
      rewrite (proj2 (mem_word_true w d) (Hincl w (or_introl eq_refl))). reflexivity. }
    rewrite (bind_of_Ok _ _ _ _ _ E).
    apply IH with (d := remove string_dec w d); try assumption.
    + simpl. apply dict_get_set_eq.
    + simpl. rewrite dict_get_set_neq by congruence. assumption.
    + intros w' Hw'. apply in_remove_other; [auto|]. intros ->. contradiction.
Qed.

Lemma revise_total x y s :
  x <> y ->
  In x (dict_keys (domains s)) -> In y (dict_keys (domains s)) ->
  NoDup (dom_of s x) ->
  (forall ox oy, overlaps (crossword s) x y = Some (ox, oy) ->
     (forall w, In w (dom_of s x) -> ox < String.length w) /\
     (forall v, In v (dom_of s y) -> oy < String.length v)) ->
  exists b s', revise x y s = Ok (b, s').
Proof.
  intros Hxy Hx Hy Hnd Hrange. unfold revise.
  destruct (overlaps (crossword s) x y) as [[ox oy]|]; [|eauto].
  destruct (in_keys_dict_get _ _ Hx) as [dx Hdx].
  destruct (in_keys_dict_get _ _ Hy) as [dy Hdy].
  destruct (Hrange ox oy eq_refl) as [Hrx Hry].
  rewrite (dom_of_get _ _ _ Hdx) in Hnd, Hrx. rewrite (dom_of_get _ _ _ Hdy) in Hry.
  rewrite (bind_of_Ok _ _ _ _ _ (domain_of_get _ _ _ Hdx)).
  apply revise_loop_total with (dy := dy) (d := dx); auto.
  - apply incl_refl.
  - intros w Hw. apply get_in_range. auto.
  - intros v Hv. apply get_in_range. auto.
Qed.

Lemma revise_keeps_inv cw x y s b s' :
  x <> y -> store_inv cw s -> revise x y s = Ok (b, s') -> store_inv cw s'.
Proof.
  intros Hxy (Hc & Hok & Hset & Hnode) H.
  destruct (overlaps (crossword s) x y) as [[ox oy]|] eqn:Hov.
  - destruct (revise_some _ _ _ _ _ _ _ Hxy Hov H)
      as (dx & Hdx & Hc' & Hk & Ho & Hv & _).
    split; [congruence|]. split; [eapply creator_ok_same; eauto|]. split.
    + intros v d Hd. destruct (Var_eq_dec v x) as [->|Hne].
      * rewrite Hv in Hd. inversion Hd; subst d. apply NoDup_filter. eauto.
      * rewrite Ho in Hd by assumption. eauto.
    + intros v d w Hd Hw. destruct (Var_eq_dec v x) as [->|Hne].
      * rewrite Hv in Hd. inversion Hd; subst d. apply filter_In in Hw as [Hw _]. eauto.
      * rewrite Ho in Hd by assumption. eauto.
  - rewrite (revise_none _ _ _ Hov) in H. inversion H; subst. repeat split; assumption.
Qed.

Lemma revise_total_inv cw x y s :
  in_range_overlaps cw -> store_inv cw s ->
  In x (variables cw) -> In y (variables cw) -> x <> y ->
  exists b s', revise x y s = Ok (b, s').
Proof.
  intros Hrange (Hc & Hok & Hset & Hnode) Hx Hy Hxy.
  assert (Hkx : In x (dict_keys (domains s))) by (rewrite Hok, Hc; assumption).
  assert (Hky : In y (dict_keys (domains s))) by (rewrite Hok, Hc; assumption).
  destruct (in_keys_dict_get _ _ Hkx) as [dx Hdx].
  destruct (in_keys_dict_get _ _ Hky) as [dy Hdy].
  apply revise_total; auto.
  - rewrite (dom_of_get _ _ _ Hdx). eauto.
  - intros ox oy Hov. rewrite Hc in Hov.
    destruct (Hrange x y ox oy Hx Hy Hov) as [Hox Hoy].
    rewrite (dom_of_get _ _ _ Hdx), (dom_of_get _ _ _ Hdy). split.
    + intros w Hw. rewrite (Hnode x dx w Hdx Hw). assumption.
    + intros v Hv. rewrite (Hnode y dy v Hdy Hv). assumption.
Qed.

(** the worklist loop returns, unless its bound is exhausted *)
Lemma ac3_loop_total cw fuel : forall q s,
  in_range_overlaps cw -> store_inv cw s -> arcs_ok cw q ->
  (exists b s', ac3_loop fuel q s = Ok (b, s') /\ store_inv cw s') \/
  ac3_loop fuel q s = Raise OutOfFuel.
Proof.
  induction fuel as [|fuel IH]; intros q s Hrange Hinv Hq; simpl; [right; reflexivity|].
  destruct q as [|[x y] rest]; [left; eexists; eexists; split; [reflexivity|assumption]|].
  destruct (Hq x y (or_introl eq_refl)) as (Hx & Hy & Hxy).
  destruct (revise_total_inv cw x y s Hrange Hinv Hx Hy Hxy) as (b & s1 & Hrev).
  pose proof (revise_keeps_inv cw x y s b s1 Hxy Hinv Hrev) as Hinv1.
  rewrite (bind_of_Ok _ _ _ _ _ Hrev).
  destruct b.
  - destruct Hinv1 as (Hc1 & Hok1 & Hset1 & Hnode1).
    assert (Hkx : In x (dict_keys (domains s1))) by (rewrite Hok1, Hc1; assumption).
    destruct (in_keys_dict_get _ _ Hkx) as [dx Hdx].
    rewrite (bind_of_Ok _ _ _ _ _ (domain_of_get _ _ _ Hdx)).
    destruct (Nat.eqb (List.length dx) 0).
    + left. eexists; eexists. split; [reflexivity|]. repeat split; assumption.
    + rewrite Hc1. apply IH; [assumption| |apply arcs_ok_step; assumption].
      repeat split; assumption.
  - apply IH; [assumption|assumption|]. eapply arcs_ok_tail. eassumption.
Qed.

Lemma ac3_None_total cw s :
  in_range_overlaps cw -> store_inv cw s ->
  exists b s', ac3 None s = Ok (b, s') /\ store_inv cw s'.
Proof.
  intros Hrange Hinv.
  pose proof (ac3_fuel_free None s) as Hfree.
  unfold ac3 in *. rewrite (bind_of_Ok _ _ _ _ _ (get_arc_queue_None s)) in *.
  set (q := flat_map _ _) in *.
  assert (Hq : arcs_ok cw q).
  { destruct Hinv as (Hc & _). rewrite <- Hc.
    apply (proj2 (arc_queue_ok s q s (get_arc_queue_None s))). }
  destruct (ac3_loop_total cw (ac3_fuel s q) q s Hrange Hinv Hq) as [H|H]; [exact H|].
  exfalso. apply Hfree. exact H.
Qed.

Lemma consistent_neighbors_total cw a var ns :
  symmetric_overlaps cw -> in_range_overlaps cw -> assignment_fits cw a ->
  In var (dict_keys a) -> incl ns (neighbors cw var) ->
  exists b, consistent_neighbors cw a var ns = Ok b.
Proof.
  intros Hsym Hrange (Hnd & Hincl & Hfit) Hvar.
  induction ns as [|n ns IH]; intros Hns; simpl; [eauto|].
  assert (Hns' : incl ns (neighbors cw var)).
  { intros v Hv. apply Hns. right. assumption. }
  destruct (dict_mem a n) eqn:Hmem; [|auto].
  pose proof (Hns n (or_introl eq_refl)) as Hn.
  apply in_neighbors in Hn as (HnV & Hne & Hov).
  pose proof (Hincl var Hvar) as HvarV.
  destruct (overlaps cw n var) as [[j i]|] eqn:Hov'; [|congruence].
  rewrite (Hsym n var j i HnV HvarV Hov').
  destruct (Hrange n var j i HnV HvarV Hov') as [Hj Hi].
  destruct (in_keys_dict_get _ _ Hvar) as [wv Hwv].
  apply dict_mem_true in Hmem. destruct (in_keys_dict_get _ _ Hmem) as [wn Hwn].
  unfold rbind, lookup. rewrite Hwv, Hwn.
  destruct (get_in_range wv i) as [ci Hci]; [rewrite (Hfit var wv Hwv); assumption|].
  destruct (get_in_range wn j) as [cj Hcj]; [rewrite (Hfit n wn Hwn); assumption|].
  unfold index. rewrite Hci, Hcj.
  destruct (negb (ascii_eqb ci cj)); [eauto|auto].
Qed.

Lemma consistent_vars_total cw a vs :
  symmetric_overlaps cw -> in_range_overlaps cw -> assignment_fits cw a ->
  incl vs (dict_keys a) ->
  exists b, consistent_vars cw a vs = Ok b.
Proof.
  intros Hsym Hrange Hfits.
  induction vs as [|var vs IH]; intros Hvs; simpl; [eauto|].
  assert (Hvar : In var (dict_keys a)) by (apply Hvs; left; reflexivity).
  assert (Hvs' : incl vs (dict_keys a)).
  { intros v Hv. apply Hvs. right. assumption. }
  destruct (in_keys_dict_get _ _ Hvar) as [wv Hwv].
  unfold rbind, lookup. rewrite Hwv.
  destruct (negb (Nat.eqb (var_length var) (String.length wv))); [eauto|].
  destruct (consistent_neighbors_total cw a var (neighbors cw var) Hsym Hrange Hfits Hvar
              (incl_refl _)) as [b Hb].
  rewrite Hb. destruct b; [auto|eauto].
Qed.

Lemma consistent_total cw a :
  symmetric_overlaps cw -> in_range_overlaps cw -> assignment_fits cw a ->
  exists b, consistent cw a = Ok b.
Proof.
  intros Hsym Hrange Hfits. unfold consistent.
  destruct (List.length (nodup string_dec (dict_values a)) <? List.length (dict_values a));
    [eauto|].
  apply consistent_vars_total; auto. apply incl_refl.
Qed.

Lemma unassigned_nonempty cw s a :
  NoDup (variables cw) -> crossword s = cw -> creator_ok s ->
  NoDup (dict_keys a) -> incl (dict_keys a) (variables cw) ->
  List.length (dict_keys a) <> List.length (variables cw) ->
  unassigned s a <> [].
Proof.
  intros HndV Hc Hok Hnd Hincl Hlen Hempty.
  apply Hlen. apply Nat.le_antisymm.
  - apply NoDup_incl_length; assumption.
  - apply NoDup_incl_length; [assumption|].
    intros v Hv. destruct (in_dec Var_eq_dec v (dict_keys a)) as [Hin|Hnot]; [assumption|].
    assert (Hun : In v (unassigned s a)).
    { apply unassigned_keys. split; [|assumption]. rewrite Hok, Hc. assumption. }
    rewrite Hempty in Hun. destruct Hun.
Qed.

Lemma first_some_total {A R} (body : A -> M (option R)) s l :
  (forall a, In a l ->
     (exists r, body a s = Ok (r, s)) \/ body a s = Raise OutOfFuel) ->
  (exists r, first_some body l s = Ok (r, s)) \/ first_some body l s = Raise OutOfFuel.
Proof.
  induction l as [|a l IH]; intros Hbody; simpl; [left; eexists; reflexivity|].
  destruct (Hbody a (or_introl eq_refl)) as [[r Hr]|Hr].
  - rewrite (bind_of_Ok _ _ _ _ _ Hr). destruct r; [left; eexists; reflexivity|].
    apply IH. intros a' Ha'. apply Hbody. right. assumption.
  - right. unfold bind. rewrite Hr. reflexivity.
Qed.

Lemma reads_of_Ok {A} (f : CrosswordCreator -> res A) s a :
  f s = Ok a -> reads f s = Ok (a, s).
Proof. unfold reads. intros ->. reflexivity. Qed.

(** the search returns, unless its bound is exhausted *)
Lemma backtrack_rec_total cw fuel : forall a s,
  well_formed cw -> store_inv cw s -> assignment_fits cw a ->
  (exists r, backtrack_rec fuel a s = Ok (r, s)) \/
  backtrack_rec fuel a s = Raise OutOfFuel.
Proof.
  induction fuel as [|fuel IH]; intros a s Hwf Hinv Hfits; simpl; [right; reflexivity|].
  pose proof Hwf as (HndV & HndW & Hsym & Hrange).
  pose proof Hinv as (Hc & Hok & Hset & Hnode).
  pose proof Hfits as (Hnd & Hincl & Hfit).
  assert (Hcomp : assignment_complete a s =
                  Ok (Nat.eqb (List.length (dict_keys a)) (List.length (variables cw)), s)).
  { unfold assignment_complete. rewrite Hc. reflexivity. }
  unfold backtrack_body. rewrite (bind_of_Ok _ _ _ _ _ Hcomp).
  destruct (Nat.eqb (List.length (dict_keys a)) (List.length (variables cw))) eqn:Hlen;
    [left; eexists; reflexivity|].
  apply Nat.eqb_neq in Hlen.
  pose proof (unassigned_nonempty cw s a HndV Hc Hok Hnd Hincl Hlen) as Hne.
  destruct (select_unassigned_variable_spec s a Hne) as (v & d & Hsel & Hv & Hd & _).
  rewrite (bind_of_Ok _ _ _ _ _ (reads_of_Ok _ _ _ Hsel)).
  rewrite (bind_of_Ok _ _ _ _ _ (domain_of_get _ _ _ Hd)).
  apply unassigned_keys in Hv as [Hkey Hfresh].
  assert (HvV : In v (variables cw)) by (rewrite <- Hc, <- Hok; assumption).
  apply first_some_total. intros w Hw.
  assert (Hfits' : assignment_fits cw (dict_set a v w)).
  { assert (Hkeys : dict_keys (dict_set a v w) = dict_keys a ++ [v]).
    { apply dict_keys_set_absent. apply dict_get_None. assumption. }
    split; [|split].
    - rewrite Hkeys. apply NoDup_app; [assumption|repeat constructor; intros []|].
      intros v' Hv' [<-|[]]. contradiction.
    - rewrite Hkeys. intros v' Hv'. apply in_app_or in Hv' as [Hv'|[<-|[]]]; auto.
    - intros v' w' Hget. destruct (Var_eq_dec v' v) as [->|Hne'].
      + rewrite dict_get_set_eq in Hget. inversion Hget; subst w'. eauto.
      + rewrite dict_get_set_neq in Hget by assumption. eauto. }
  destruct (consistent_total cw (dict_set a v w) Hsym Hrange Hfits') as [ok Hok'].
  rewrite <- Hc in Hok'.
  rewrite (bind_of_Ok _ _ _ _ _
             (reads_of_Ok (fun self => consistent (crossword self) (dict_set a v w)) _ _ Hok')).
  destruct ok; [|left; eexists; reflexivity].
  apply IH; assumption.
Qed.

Lemma backtrack_total cw a s :
  well_formed cw -> store_inv cw s -> assignment_fits cw a ->
  exists r, backtrack a s = Ok (r, s).
Proof.
  intros Hwf Hinv Hfits.
  destruct (backtrack_rec_total cw (S (List.length (unassigned s a))) a s Hwf Hinv Hfits)
    as [H|H]; [exact H|].
  exfalso. apply (backtrack_fuel_free a s). exact H.
Qed.

Lemma init_is_set cw : NoDup (words cw) -> store_is_set (init cw).
Proof.
  intros Hnd v d Hd. apply dict_get_in in Hd. unfold init in Hd. simpl in Hd.
  apply in_map_iff in Hd as (v' & E & _). inversion E; subst. assumption.
Qed.

(** on a well-formed crossword [solve()] returns: an assignment or None *)
Lemma solve_total cw :
  well_formed cw -> exists r s', solve (init cw) = Ok (r, s').
Proof.
  intros Hwf. pose proof Hwf as (HndV & HndW & Hsym & Hrange).
  destruct (enforce_node_consistency_total (init cw) (init_is_set cw HndW)) as [s0 Hnode].
  destruct (enforce_node_consistency_spec _ _ _ Hnode) as (Hc0 & Hk0 & Hv0).
  assert (Hinv0 : store_inv cw s0).
  { split; [exact Hc0|]. split; [eapply creator_ok_same; eauto; apply init_ok|].
    split; [|eapply node_consistent_after; eassumption].
    intros v d Hd. rewrite Hv0 in Hd.
    destruct (dict_get (domains (init cw)) v) as [d0|] eqn:Hd0; [|discriminate].
    simpl in Hd. inversion Hd; subst d. apply NoDup_filter.
    eapply init_is_set; eassumption. }
  destruct (ac3_None_total cw s0 Hrange Hinv0) as (b & s1 & Hac3 & Hinv1).
  assert (Hfits : assignment_fits cw []).
  { split; [constructor|]. split; [intros ? []|]. intros ? ? E. discriminate. }
  destruct (backtrack_total cw [] s1 Hwf Hinv1 Hfits) as [r Hbt].
  exists r, s1. unfold solve.
  rewrite (bind_of_Ok _ _ _ _ _ Hnode), (bind_of_Ok _ _ _ _ _ Hac3). exact Hbt.
Qed.

(** ** A statement that rests on the above *)

(** C6: [revise(x, y)] is a no-op returning False when the variables do
    not overlap.  When they overlap at (ix, iy), [revise] returns as soon
    as both domains are in the store, x's domain is a set and the
    overlap indices are within the words; what it returns then keeps in
    x's domain exactly the words that agree with some word of y's domain
    at the overlap, leaves every other domain alone, and is True iff a
    word was removed. *)
Theorem revise_correct (s : CrosswordCreator) (x y : Var) :
  x <> y ->
  match overlaps (crossword s) x y with
  | None => revise x y s = Ok (false, s)
  | Some (ix, iy) =>
      (In x (dict_keys (domains s)) -> In y (dict_keys (domains s)) ->
       NoDup (dom_of s x) ->
       (forall w, In w (dom_of s x) -> ix < String.length w) ->
       (forall v, In v (dom_of s y) -> iy < String.length v) ->
       exists b s', revise x y s = Ok (b, s')) /\
      forall b s', revise x y s = Ok (b, s') ->
        (forall w, In w (dom_of s' x) <->
                   In w (dom_of s x) /\
                   exists v, In v (dom_of s y) /\ agree w ix v iy) /\
        (forall v, v <> x -> dom_of s' v = dom_of s v) /\
        (b = true <-> exists w, In w (dom_of s x) /\ ~ In w (dom_of s' x))
  end.
Proof.
  intros Hxy. destruct (overlaps (crossword s) x y) as [[ix iy]|] eqn:Hov.
  2: { apply revise_none. exact Hov. }
  split.
  { intros Hx Hy Hnd Hrx Hry. apply revise_total; auto.
    intros ox oy E. rewrite Hov in E. inversion E; subst. auto. }
  intros b s' H.
  destruct (revise_some _ _ _ _ _ _ _ Hxy Hov H)
    as (dx & Hdx & Hc & Hk & Ho & Hv & Hb & _).
  rewrite (dom_of_get _ _ _ Hdx), (dom_of_get _ _ _ Hv).
  assert (Hmem : forall w, In w (filter (fun w => supported_b w ix iy (dom_of s y)) dx) <->
                 In w dx /\ exists v, In v (dom_of s y) /\ agree w ix v iy).
  { intros w. rewrite filter_In, supported_b_true. reflexivity. }
  split; [exact Hmem|]. split.
  - intros v Hne. apply dom_of_same. auto.
  - rewrite Hb, existsb_exists. split.
    + intros (w & Hw & Hns). exists w. split; [assumption|].
      rewrite filter_In. intros [_ Hs]. rewrite Hs in Hns. discriminate.
    + intros (w & Hw & Hnot). exists w. split; [assumption|].
      destruct (supported_b w ix iy (dom_of s y)) eqn:E; [|reflexivity].
      exfalso. apply Hnot. apply filter_In. auto.
Qed.

Lemma in_range_overlaps_b_sound cw :
  in_range_overlaps_b cw = true -> in_range_overlaps cw.
Proof.
  unfold in_range_overlaps_b, in_range_overlaps.
  intros H x y i j Hx Hy Hov.
  rewrite forallb_forall in H. specialize (H x Hx).
  rewrite forallb_forall in H. specialize (H y Hy).
  rewrite Hov in H. apply andb_true_iff in H as [H1 H2].
  apply Nat.ltb_lt in H1, H2. auto.
Qed.

(** ** The statements on the worked instances *)

Lemma symmetric_overlaps_b_sound cw :
  symmetric_overlaps_b cw = true -> symmetric_overlaps cw.
Proof.
  unfold symmetric_overlaps_b, symmetric_overlaps.
  intros H x y i j Hx Hy Hov.
  rewrite forallb_forall in H. specialize (H x Hx).
  rewrite forallb_forall in H. specialize (H y Hy).
  rewrite Hov in H. destruct (overlaps cw y x) as [[j' i']|]; [|discriminate].
  apply andb_true_iff in H as [H1 H2].
  apply Nat.eqb_eq in H1, H2. subst. reflexivity.
Qed.

Lemma solve_sound_witness :
  (forall v, In v (variables Example.cw) -> exists! w, In (v, w) Example.solution) /\
  (forall v w, In (v, w) Example.solution -> In v (variables Example.cw)) /\
  consistent Example.cw Example.solution = Ok true /\
  (forall v1 v2 w, In (v1, w) Example.solution -> In (v2, w) Example.solution -> v1 = v2).
Proof.
  apply (solve_sound (init Example.cw) Example.solution Example.pruned).
  - reflexivity.
  - vm_compute. reflexivity.
Defined.

Lemma ac3_arc_consistent_witness :
  symmetric_overlaps (crossword Example.pruned) /\
  ac3 None Example.pruned = Ok (true, Example.pruned) /\
  exists v, In v (dom_of Example.pruned Example.y) /\ agree "bcd"%string 0 v 0.
Proof.
  assert (Hsym : symmetric_overlaps (crossword Example.pruned)).
  { apply symmetric_overlaps_b_sound. vm_compute. reflexivity. }
  assert (Hrun : ac3 None Example.pruned = Ok (true, Example.pruned)).
  { vm_compute. reflexivity. }
  split; [exact Hsym|]. split; [exact Hrun|].
  apply (ac3_arc_consistent Example.pruned Example.pruned Hsym Hrun
                            Example.x Example.y 0 0).
  - simpl. auto.
  - simpl. auto.
  - discriminate.
  - reflexivity.
  - simpl. auto.
Defined.

Lemma ac3_failure_witness :
  creator_ok (init Example.clash) /\
  ac3_loop 1 [(Example.u, Example.v)] Example.clash_checked
    = Ok (false, Example.clash_failed) /\
  (exists x, In x (variables Example.clash) /\ dom_of Example.clash_failed x = []) /\
  solve (init Example.clash) = Ok (None, Example.clash_failed).
Proof.
  assert (Hok : creator_ok (init Example.clash)) by reflexivity.
  destruct (ac3_failure (init Example.clash) Hok) as [Hnow Hsolve].
  split; [exact Hok|]. split.
  - apply Hnow; vm_compute; reflexivity.
  - apply (Hsolve Example.clash_checked Example.clash_failed); vm_compute; reflexivity.
Defined.

Lemma consistent_iff_witness :
  consistent Example.cw Example.solution = Ok true <->
  (forall v1 v2 w, dict_get Example.solution v1 = Some w ->
                   dict_get Example.solution v2 = Some w -> v1 = v2) /\
  (forall v w, dict_get Example.solution v = Some w -> String.length w = var_length v) /\
  (forall x y i j wx wy,
      x <> y -> dict_get Example.solution x = Some wx ->
      dict_get Example.solution y = Some wy ->
      overlaps Example.cw x y = Some (i, j) -> agree wx i wy j).
Proof.
  apply (consistent_iff Example.cw Example.solution).
  - apply symmetric_overlaps_b_sound. vm_compute. reflexivity.
  - repeat constructor; simpl; intuition discriminate.
  - intros v [<-|[<-|[]]]; simpl; auto.
Defined.

Lemma pruning_fixed_point_witness :
  enforce_node_consistency Example.pruned = Ok (tt, Example.pruned) /\
  ac3 None Example.pruned = Ok (true, Example.pruned).
Proof.
  assert (Hsym : symmetric_overlaps (crossword (init Example.cw))).
  { apply symmetric_overlaps_b_sound. vm_compute. reflexivity. }
  assert (Hsym' : symmetric_overlaps (crossword Example.pruned)) by exact Hsym.
  split.
  - apply (proj1 (pruning_fixed_point (init Example.cw) Hsym eq_refl)).
    vm_compute. reflexivity.
  - apply (proj2 (pruning_fixed_point Example.pruned Hsym' eq_refl)).
    vm_compute. reflexivity.
Defined.

Lemma backtrack_frame_witness :
  backtrack [] Example.pruned = Ok (Some Example.solution, Example.pruned) /\
  domains Example.pruned = domains Example.pruned /\
  crossword Example.pruned = crossword Example.pruned /\
  (forall sibling, backtrack sibling Example.pruned = backtrack sibling Example.pruned) /\
  forall res v w, Some Example.solution = Some res ->
                  dict_get (@nil (Var * word)) v = Some w -> dict_get res v = Some w.
Proof.
  assert (Hrun : backtrack [] Example.pruned = Ok (Some Example.solution, Example.pruned)).
  { vm_compute. reflexivity. }
  split; [exact Hrun|].
  exact (backtrack_frame [] Example.pruned (Some Example.solution) Example.pruned Hrun).
Defined.

Lemma backtrack_domain_order_witness :
  exists variable d tried w rest,
    select_unassigned_variable Example.pruned [] = Ok variable /\
    get_domain Example.pruned variable = Ok d /\
    d = tried ++ w :: rest /\
    (forall w', In w' tried ->
       consistent (crossword Example.pruned) (dict_set [] variable w') = Ok false \/
       backtrack (dict_set [] variable w') Example.pruned = Ok (None, Example.pruned)) /\
    consistent (crossword Example.pruned) (dict_set [] variable w) = Ok true /\
    backtrack (dict_set [] variable w) Example.pruned
      = Ok (Some Example.solution, Example.pruned) /\
    dict_get Example.solution variable = Some w.
Proof.
  apply (backtrack_domain_order [] Example.pruned Example.solution Example.pruned).
  - vm_compute. reflexivity.
  - simpl. lia.
Defined.

(** C4 fails as stated: on this instance the search returns the first
    word of the domain for [x], while the search over the order of
    [order_domain_values] starts from "bcd" and returns another
    assignment. *)
Lemma backtrack_not_in_heuristic_order :
  get_domain Example.pruned Example.x
    = Ok ["abc"; "ade"; "bcd"; "bef"; "bgh"]%string /\
  order_domain_values Example.pruned Example.x []
    = Ok ["bcd"; "bef"; "bgh"; "abc"; "ade"]%string /\
  outcome (backtrack [] Example.pruned)
    = Ok (Some [(Example.x, "abc"%string); (Example.y, "ade"%string)]) /\
  outcome (backtrack_lcv [] Example.pruned)
    = Ok (Some [(Example.x, "bcd"%string); (Example.y, "bef"%string)]) /\
  outcome (backtrack [] Example.pruned) <> outcome (backtrack_lcv [] Example.pruned).
Proof.
  repeat split; try (vm_compute; reflexivity).
  vm_compute. discriminate.
Qed.

Lemma order_domain_values_score_witness :
  exists scored : list (nat * word),
    ["aba"; "bab"]%string = map snd scored /\
    Permutation ["aba"; "bab"]%string (dom_of (init Example.fork) Example.top) /\
    StronglySorted (fun p q => fst p <= fst q) scored /\
    forall score option, In (score, option) scored ->
      eliminate_values (init Example.fork) Example.top option [] = Ok score /\
      exists eliminated,
        NoDup eliminated /\
        List.length eliminated = score /\
        forall value, In value eliminated <->
                      ruled_out (init Example.fork) Example.top option [] value.
Proof.
  apply (order_domain_values_score (init Example.fork) Example.top []).
  vm_compute. reflexivity.
Defined.

(** C5 fails as stated: with "aba" chosen for [top], the word "bab" is
    ruled out in the domains of both neighbors; the code scores 1, the
    sum over the neighbors is 2. *)
Lemma score_counts_a_word_once :
  enforce_node_consistency (init Example.fork) = Ok (tt, init Example.fork) /\
  ac3 None (init Example.fork) = Ok (true, init Example.fork) /\
  eliminate_values (init Example.fork) Example.top "aba"%string [] = Ok 1 /\
  per_neighbor_score (init Example.fork) Example.top "aba"%string [] = 2 /\
  eliminate_values (init Example.fork) Example.top "aba"%string []
    <> Ok (per_neighbor_score (init Example.fork) Example.top "aba"%string []).
Proof.
  repeat split; try (vm_compute; reflexivity).
  vm_compute. discriminate.
Qed.

Lemma revise_correct_witness :
  Example.u <> Example.v /\
  (exists b s', revise Example.u Example.v Example.clash_checked = Ok (b, s')) /\
  (forall w, In w (dom_of Example.clash_failed Example.u) <->
             In w (dom_of Example.clash_checked Example.u) /\
             exists v, In v (dom_of Example.clash_checked Example.v) /\ agree w 0 v 0) /\
  (forall v, v <> Example.u ->
             dom_of Example.clash_failed v = dom_of Example.clash_checked v) /\
  (true = true <->
   exists w, In w (dom_of Example.clash_checked Example.u) /\
             ~ In w (dom_of Example.clash_failed Example.u)).
Proof.
  assert (Hne : Example.u <> Example.v) by discriminate.
  destruct (revise_correct Example.clash_checked Example.u Example.v Hne)
    as [Hreturns Hresult].
  split; [exact Hne|]. split.
  - apply Hreturns; simpl; auto.
    + repeat constructor. simpl. tauto.
    + intros w [<-|[]]. simpl. lia.
    + intros w [<-|[]]. simpl. lia.
  - apply (Hresult true Example.clash_failed). vm_compute. reflexivity.
Defined.

(** * Further properties of the code *)

(** ** Pruning only removes words *)

Lemma pruned_from_refl s : pruned_from s s.
Proof.
  split; [reflexivity|]. split; [reflexivity|]. intros v. exists [].
  destruct (dict_get (domains s) v) as [d|]; [|reflexivity]. simpl.
  f_equal. symmetry. apply filter_all. reflexivity.
Qed.

Lemma mem_word_app w l1 l2 : mem_word w (l1 ++ l2) = mem_word w l1 || mem_word w l2.
Proof.
  destruct (mem_word w l1) eqn:E1; simpl.
  - apply mem_word_true. apply in_or_app. left. apply mem_word_true. assumption.
  - destruct (mem_word w l2) eqn:E2.
    + apply mem_word_true. apply in_or_app. right. apply mem_word_true. assumption.
    + apply mem_word_false. intros H. apply in_app_or in H as [H|H].
      * apply mem_word_false in E1. contradiction.
      * apply mem_word_false in E2. contradiction.
Qed.

Lemma pruned_from_trans s1 s2 s3 :
  pruned_from s1 s2 -> pruned_from s2 s3 -> pruned_from s1 s3.
Proof.
  intros (Hc1 & Hk1 & Hv1) (Hc2 & Hk2 & Hv2).
  split; [congruence|]. split; [congruence|]. intros v.
  destruct (Hv1 v) as [r1 H1]. destruct (Hv2 v) as [r2 H2].
  exists (r1 ++ r2). rewrite H2, H1.
  destruct (dict_get (domains s1) v) as [d|]; [|reflexivity]. simpl. f_equal.
  rewrite filter_filter. apply filter_ext. intros w.
  rewrite mem_word_app, negb_orb. reflexivity.
Qed.

Lemma remove_word_pruned x w s u s' :
  remove_word x w s = Ok (u, s') -> pruned_from s s'.
Proof.
  intros H. apply remove_word_Ok in H as (d & Hd & Hin & ->).
  split; [reflexivity|]. split.
  { simpl. eapply dict_keys_set_present. eassumption. }
  intros v. simpl. destruct (Var_eq_dec v x) as [->|Hne].
  - exists [w]. rewrite dict_get_set_eq, Hd. simpl. f_equal. apply remove_as_filter.
  - exists []. rewrite dict_get_set_neq by assumption.
    destruct (dict_get (domains s) v) as [d0|]; [|reflexivity]. simpl.
    f_equal. symmetry. apply filter_all. reflexivity.
Qed.

Lemma revise_loop_true x y ox oy l : forall s s' r',
  for_acc l (revise_body x y ox oy) true s = Ok (r', s') -> r' = true.
Proof.
  induction l as [|w l IH]; intros s s' r' H; simpl in H.
  - apply ret_Ok in H as [-> _]. reflexivity.
  - apply bind_Ok in H as (r1 & s1 & Hbody & H).
    unfold revise_body in Hbody.
    apply bind_Ok in Hbody as (dy & s2 & Hdy & Hbody).
    apply bind_Ok in Hbody as (b & s3 & Hb & Hbody).
    destruct b; simpl in Hbody.
    + apply ret_Ok in Hbody as [-> _]. eapply IH. eassumption.
    + apply bind_Ok in Hbody as (u & s4 & Hrm & Hbody).
      apply ret_Ok in Hbody as [-> _]. eapply IH. eassumption.
Qed.

Lemma revise_loop_pruned x y ox oy l : forall s s' r r',
  for_acc l (revise_body x y ox oy) r s = Ok (r', s') ->
  pruned_from s s' /\
  (forall v, v <> x -> dict_get (domains s') v = dict_get (domains s) v) /\
  (r' = false -> s' = s).
Proof.
  induction l as [|w l IH]; intros s s' r r' H; simpl in H.
  - apply ret_Ok in H as [-> ->]. split; [apply pruned_from_refl|]. auto.
  - apply bind_Ok in H as (r1 & s1 & Hbody & H).
    unfold revise_body in Hbody.
    apply bind_Ok in Hbody as (dy & s2 & Hdy & Hbody).
    apply domain_Ok in Hdy as [Hdy ->].
    apply bind_Ok in Hbody as (b & s3 & Hb & Hbody).
    apply lift_Ok in Hb as [Hb ->].
    destruct (IH _ _ _ _ H) as (Hp & Ho & Hsame).
    destruct b; simpl in Hbody.
    + apply ret_Ok in Hbody as [-> ->]. auto.
    + apply bind_Ok in Hbody as (u & s4 & Hrm & Hbody).
      apply ret_Ok in Hbody as [-> ->].
      split; [eapply pruned_from_trans; [eapply remove_word_pruned; eassumption|exact Hp]|].
      split.
      * intros v Hne. rewrite (Ho v Hne).
        apply remove_word_Ok in Hrm as (d & Hd & Hin & ->). simpl.
        apply dict_get_set_neq. assumption.
      * intros ->. apply revise_loop_true in H. discriminate.
Qed.

Lemma revise_pruned x y s b s' :
  revise x y s = Ok (b, s') ->
  pruned_from s s' /\
  (forall v, v <> x -> dict_get (domains s') v = dict_get (domains s) v) /\
  (b = false -> s' = s).
Proof.
  unfold revise. destruct (overlaps (crossword s) x y) as [[ox oy]|].
  - intros H. apply bind_Ok in H as (dx & s1 & Hdx & H).
    apply domain_Ok in Hdx as [Hdx ->].
    eapply revise_loop_pruned. eassumption.
  - intros H. inversion H; subst. split; [apply pruned_from_refl|]. auto.
Qed.

Lemma ac3_loop_pruned fuel : forall q s b s',
  ac3_loop fuel q s = Ok (b, s') ->
  pruned_from s s' /\
  if b
  then forall x, dict_get (domains s') x = dict_get (domains s) x \/
                 exists w d, dict_get (domains s') x = Some (w :: d)
  else exists x, dict_get (domains s') x = Some [].
Proof.
  induction fuel as [|fuel IH]; intros q s b s' H; simpl in H; [discriminate|].
  destruct q as [|[x y] rest].
  - apply ret_Ok in H as [-> ->]. split; [apply pruned_from_refl|]. auto.
  - apply bind_Ok in H as (b1 & s1 & Hrev & H).
    destruct (revise_pruned _ _ _ _ _ Hrev) as (Hp1 & Ho1 & Hsame1).
    destruct b1.
    + apply bind_Ok in H as (dx & s2 & Hdx & H).
      apply domain_Ok in Hdx as [Hdx ->].
      destruct dx as [|w0 dx]; simpl in H.
      * apply ret_Ok in H as [-> ->]. split; [assumption|]. exists x. assumption.
      * destruct (IH _ _ _ _ H) as (Hp & Hb).
        split; [eapply pruned_from_trans; eassumption|].
        destruct b; [|exact Hb].
        intros v. destruct (Hb v) as [E|Hne]; [|right; assumption].
        destruct (Var_eq_dec v x) as [->|Hvx].
        -- right. exists w0, dx. congruence.
        -- left. rewrite E. apply Ho1. assumption.
    + rewrite (Hsame1 eq_refl) in *.
      destruct (IH _ _ _ _ H) as (Hp & Hb). split; assumption.
Qed.

Lemma ac3_Ok arcs s b s' :
  ac3 arcs s = Ok (b, s') ->
  exists q, ac3_loop (ac3_fuel s q) q s = Ok (b, s').
Proof.
  unfold ac3. intros H. apply bind_Ok in H as (q & s1 & Hq & H).
  assert (s1 = s) as ->.
  { destruct arcs as [arcs|].
    - apply ret_Ok in Hq as [_ ->]. reflexivity.
    - rewrite get_arc_queue_None in Hq. inversion Hq. reflexivity. }
  eauto.
Qed.

Lemma pruned_from_dom s s' v :
  pruned_from s s' ->
  exists removed, dom_of s' v = filter (fun w => negb (mem_word w removed)) (dom_of s v).
Proof.
  intros (_ & _ & Hv). destruct (Hv v) as [removed H]. exists removed.
  unfold dom_of. rewrite H. destruct (dict_get (domains s) v); reflexivity.
Qed.

Lemma pruned_from_incl s s' v : pruned_from s s' -> incl (dom_of s' v) (dom_of s v).
Proof.
  intros H. destruct (pruned_from_dom s s' v H) as [removed ->].
  intros w Hw. apply filter_In in Hw. tauto.
Qed.

(** X1: [ac3], on any worklist, only removes words: it returns the
    object with the same problem graph and the same variables, every
    domain is what it was with some words filtered out (the order is
    kept), and domains of words of the right length or without
    duplicates stay so. *)
Theorem ac3_only_removes (arcs : option (list arc)) (s : CrosswordCreator)
    (b : bool) (s' : CrosswordCreator) :
  ac3 arcs s = Ok (b, s') ->
  crossword s' = crossword s /\
  dict_keys (domains s') = dict_keys (domains s) /\
  (forall v, exists removed,
     dom_of s' v = filter (fun w => negb (mem_word w removed)) (dom_of s v)) /\
  (node_consistent s -> node_consistent s') /\
  (store_is_set s -> store_is_set s').
Proof.
  intros H. apply ac3_Ok in H as (q & H).
  destruct (ac3_loop_pruned _ _ _ _ _ H) as [Hp _].
  pose proof Hp as (Hc & Hk & Hv).
  split; [assumption|]. split; [assumption|]. split.
  { intros v. apply pruned_from_dom. assumption. }
  split.
  - intros Hnode v d w Hd Hw. destruct (Hv v) as [removed Hr]. rewrite Hd in Hr.
    destruct (dict_get (domains s) v) as [d0|] eqn:Hd0; [|discriminate].
    simpl in Hr. inversion Hr; subst d. apply filter_In in Hw as [Hw _]. eauto.
  - intros Hset v d Hd. destruct (Hv v) as [removed Hr]. rewrite Hd in Hr.
    destruct (dict_get (domains s) v) as [d0|] eqn:Hd0; [|discriminate].
    simpl in Hr. inversion Hr; subst d. apply NoDup_filter. eauto.
Qed.

(** X2: what the result of [ac3] says, on any worklist: after False
    some variable of the store has an empty domain; after True every
    domain is either untouched or non-empty (a domain that was already
    empty and that no revision changed does not make [ac3] fail). *)
Theorem ac3_result (arcs : option (list arc)) (s : CrosswordCreator)
    (b : bool) (s' : CrosswordCreator) :
  ac3 arcs s = Ok (b, s') ->
  if b
  then forall x, dom_of s' x = dom_of s x \/ dom_of s' x <> []
  else exists x, In x (dict_keys (domains s)) /\ dom_of s' x = [].
Proof.
  intros H. apply ac3_Ok in H as (q & H).
  destruct (ac3_loop_pruned _ _ _ _ _ H) as [(_ & Hk & _) Hb].
  destruct b.
  - intros x. destruct (Hb x) as [E|(w & d & E)].
    + left. apply dom_of_same. assumption.
    + right. rewrite (dom_of_get _ _ _ E). discriminate.
  - destruct Hb as [x Hx]. exists x. split.
    + rewrite <- Hk. eapply dict_get_in_keys. eassumption.
    + apply dom_of_get. assumption.
Qed.

(** X3: [enforce_node_consistency] on a store whose domains are sets
    returns, with the same problem graph and the same variables, and
    leaves in the domain of each variable exactly the words of the
    variable's length, in their order. *)
Theorem enforce_node_consistency_filters (s : CrosswordCreator) :
  store_is_set s ->
  exists s',
    enforce_node_consistency s = Ok (tt, s') /\
    crossword s' = crossword s /\
    dict_keys (domains s') = dict_keys (domains s) /\
    forall v, dom_of s' v
              = filter (fun w => Nat.eqb (String.length w) (var_length v)) (dom_of s v).
Proof.
  intros Hset. destruct (enforce_node_consistency_total s Hset) as [s' H].
  exists s'. split; [assumption|].
  destruct (enforce_node_consistency_spec _ _ _ H) as (Hc & Hk & Hv).
  split; [assumption|]. split; [assumption|].
  intros v. unfold dom_of. rewrite Hv.
  destruct (dict_get (domains s) v); reflexivity.
Qed.

(** ** Pruning loses no solution *)

Lemma enforce_supports s u s' f :
  enforce_node_consistency s = Ok (u, s') ->
  (forall v, In v (variables (crossword s)) -> String.length (f v) = var_length v) ->
  supports s f -> supports s' f.
Proof.
  intros H Hlen Hsup. destruct (enforce_node_consistency_spec _ _ _ H) as (Hc & _ & Hv).
  intros v Hin. rewrite Hc in Hin. specialize (Hsup v Hin).
  unfold dom_of in *. rewrite Hv.
  destruct (dict_get (domains s) v) as [d|]; [|destruct Hsup]. simpl.
  apply filter_In. split; [assumption|]. unfold fits. apply Nat.eqb_eq. auto.
Qed.

Lemma revise_supports x y s b s' f :
  x <> y -> In x (variables (crossword s)) -> In y (variables (crossword s)) ->
  revise x y s = Ok (b, s') ->
  overlaps_agree (crossword s) f -> supports s f -> supports s' f.
Proof.
  intros Hxy Hx Hy H Hagree Hsup.
  destruct (overlaps (crossword s) x y) as [[ox oy]|] eqn:Hov.
  - destruct (revise_some _ _ _ _ _ _ _ Hxy Hov H)
      as (dx & Hdx & Hc & Hk & Ho & Hv & _).
    intros v Hin. rewrite Hc in Hin.
    destruct (Var_eq_dec v x) as [->|Hne].
    + rewrite (dom_of_get _ _ _ Hv). apply filter_In. split.
      * rewrite <- (dom_of_get _ _ _ Hdx). auto.
      * apply supported_b_true. exists (f y). split; [auto|].
        apply (Hagree x y ox oy); assumption.
    + rewrite (dom_of_same s s' v (Ho v Hne)). auto.
  - rewrite (revise_none _ _ _ Hov) in H. inversion H; subst. assumption.
Qed.

Lemma ac3_loop_supports fuel f : forall q s b s',
  arcs_ok (crossword s) q ->
  ac3_loop fuel q s = Ok (b, s') ->
  overlaps_agree (crossword s) f -> supports s f -> supports s' f.
Proof.
  induction fuel as [|fuel IH]; intros q s b s' Hq H Hagree Hsup; simpl in H;
    [discriminate|].
  destruct q as [|[x y] rest].
  - apply ret_Ok in H as [_ ->]. assumption.
  - destruct (Hq x y (or_introl eq_refl)) as (Hx & Hy & Hxy).
    apply bind_Ok in H as (b1 & s1 & Hrev & H).
    pose proof (revise_supports x y s b1 s1 f Hxy Hx Hy Hrev Hagree Hsup) as Hsup1.
    destruct (revise_size _ _ _ _ _ Hrev) as (Hc & _).
    destruct b1.
    + apply bind_Ok in H as (dx & s2 & Hdx & H).
      apply domain_Ok in Hdx as [Hdx ->].
      destruct (Nat.eqb (List.length dx) 0).
      * apply ret_Ok in H as [_ ->]. assumption.
      * apply (IH _ _ _ _) in H; auto.
        -- rewrite Hc. apply arcs_ok_step. assumption.
        -- rewrite Hc. assumption.
    + apply (IH _ _ _ _) in H; auto.
      * rewrite Hc. eapply arcs_ok_tail. eassumption.
      * rewrite Hc. assumption.
Qed.

(** X4: [ac3()] loses no solution: a choice of words that agrees at
    every overlap and that the domains contained before the call is
    still contained in the domains after it, and with such a choice
    around [ac3()] returns True. *)
Theorem ac3_keeps_solutions (s : CrosswordCreator) (b : bool) (s' : CrosswordCreator)
    (f : choice) :
  creator_ok s ->
  ac3 None s = Ok (b, s') ->
  overlaps_agree (crossword s) f ->
  supports s f ->
  supports s' f /\ b = true.
Proof.
  intros Hok H Hagree Hsup.
  pose proof H as H'. apply ac3_None_Ok in H' as (q & Hq & Hloop).
  pose proof (ac3_loop_supports _ f _ _ _ _ (proj2 (arc_queue_ok _ _ _ Hq)) Hloop
                                Hagree Hsup) as Hsup'.
  split; [assumption|].
  destruct b; [reflexivity|]. exfalso.
  destruct (ac3_loop_pruned _ _ _ _ _ Hloop) as [(Hc & Hk & _) [x Hx]].
  assert (HxV : In x (variables (crossword s'))).
  { rewrite Hc, <- Hok, <- Hk. eapply dict_get_in_keys. eassumption. }
  specialize (Hsup' x HxV). rewrite (dom_of_get _ _ _ Hx) in Hsup'. destruct Hsup'.
Qed.

(** ** The search is exhaustive *)

Lemma consistent_of_solution cw a f :
  symmetric_overlaps cw ->
  NoDup (dict_keys a) -> incl (dict_keys a) (variables cw) ->
  part_of a f -> solution cw f ->
  consistent cw a = Ok true.
Proof.
  intros Hsym Hnd Hincl Hpart (Hinj & Hlen & Hagree). unfold consistent.
  assert (Hvals : NoDup (dict_values a)).
  { apply (values_NoDup_injective a Hnd). intros v1 v2 w H1 H2.
    apply Hinj.
    - apply Hincl. eapply dict_get_in_keys. eassumption.
    - apply Hincl. eapply dict_get_in_keys. eassumption.
    - rewrite <- (Hpart v1 w H1), <- (Hpart v2 w H2). reflexivity. }
  apply values_distinct_test in Hvals. rewrite Hvals.
  apply consistent_vars_true. intros var Hvar.
  destruct (in_keys_dict_get _ _ Hvar) as [w Hw].
  pose proof (Hpart var w Hw) as ->.
  exists (f var). split; [assumption|]. split; [symmetry; auto|].
  apply consistent_neighbors_true. intros n Hn Hmem.
  apply in_neighbors in Hn as (HnV & Hne & Hov).
  apply dict_mem_true in Hmem. destruct (in_keys_dict_get _ _ Hmem) as [wn Hwn].
  pose proof (Hpart n wn Hwn) as ->.
  destruct (overlaps cw n var) as [[j i]|] eqn:Hov'; [|congruence].
  pose proof (Hsym n var j i HnV (Hincl var Hvar) Hov') as Hov''.
  exists i, j, (f var), (f n).
  split; [assumption|]. split; [assumption|]. split; [assumption|].
  apply Hagree; auto.
Qed.

Lemma first_some_None {A R} (body : A -> M (option R)) s l :
  (forall a r s', body a s = Ok (r, s') -> s' = s) ->
  forall s', first_some body l s = Ok (None, s') ->
    forall a, In a l -> body a s = Ok (None, s).
Proof.
  intros Hframe. induction l as [|a l IH]; intros s' H a' Hin; simpl in H.
  - destruct Hin.
  - apply bind_Ok in H as (r & s1 & Hb & H).
    pose proof (Hframe _ _ _ Hb) as ->.
    destruct r as [v|].
    + apply ret_Ok in H as [E _]. discriminate.
    + destruct Hin as [<-|Hin]; [assumption|]. eapply IH; eassumption.
Qed.

Lemma part_of_set a v f :
  ~ In v (dict_keys a) -> part_of a f -> part_of (dict_set a v (f v)) f.
Proof.
  intros Hfresh Hpart v' w Hget. destruct (Var_eq_dec v' v) as [->|Hne].
  - rewrite dict_get_set_eq in Hget. congruence.
  - rewrite dict_get_set_neq in Hget by assumption. auto.
Qed.

Lemma backtrack_rec_exhaustive fuel : forall a s s',
  symmetric_overlaps (crossword s) -> creator_ok s ->
  NoDup (dict_keys a) -> incl (dict_keys a) (variables (crossword s)) ->
  backtrack_rec fuel a s = Ok (None, s') ->
  forall f, part_of a f -> supports s f -> ~ solution (crossword s) f.
Proof.
  induction fuel as [|fuel IH]; intros a s s' Hsym Hok Hnd Hincl H f Hpart Hsup Hsol;
    simpl in H; [discriminate|].
  unfold backtrack_body in H.
  apply bind_Ok in H as (complete & s1 & Hcomp & H).
  unfold assignment_complete in Hcomp. inversion Hcomp; subst complete s1; clear Hcomp.
  destruct (Nat.eqb (List.length (dict_keys a)) (List.length (variables (crossword s)))).
  { apply ret_Ok in H as [E _]. discriminate. }
  apply bind_Ok in H as (variable & s1 & Hsel & H).
  apply reads_Ok in Hsel as [Hsel ->].
  apply bind_Ok in H as (d & s1 & Hd & H).
  apply domain_Ok in Hd as [Hd ->].
  apply select_Ok_in, unassigned_keys in Hsel as [Hkey Hfresh].
  assert (HvV : In variable (variables (crossword s))) by (rewrite <- Hok; assumption).
  assert (Hin : In (f variable) d).
  { rewrite <- (dom_of_get _ _ _ Hd). auto. }
  assert (Hkeys : dict_keys (dict_set a variable (f variable)) = dict_keys a ++ [variable]).
  { apply dict_keys_set_absent. apply dict_get_None. assumption. }
  assert (Hnd' : NoDup (dict_keys (dict_set a variable (f variable)))).
  { rewrite Hkeys. apply NoDup_app; [assumption|repeat constructor; intros []|].
    intros v Hv [<-|[]]. contradiction. }
  assert (Hincl' : incl (dict_keys (dict_set a variable (f variable)))
                        (variables (crossword s))).
  { rewrite Hkeys. intros v Hv. apply in_app_or in Hv as [Hv|[<-|[]]]; auto. }
  pose proof (part_of_set a variable f Hfresh Hpart) as Hpart'.
  assert (Hframe : forall w r0 s0,
    (ok <- reads (fun self => consistent (crossword self) (dict_set a variable w)) ;;
     if ok then backtrack_rec fuel (dict_set a variable w) else ret None) s
      = Ok (r0, s0) -> s0 = s).
  { intros w r0 s0 Hb.
    apply bind_Ok in Hb as (ok & s1 & Hcons & Hb).
    apply reads_Ok in Hcons as [_ ->].
    destruct ok.
    + apply backtrack_rec_frame in Hb as [-> _]. reflexivity.
    + apply ret_Ok in Hb as [_ ->]. reflexivity. }
  pose proof (first_some_None _ s d Hframe s' H (f variable) Hin) as Hb.
  simpl in Hb. apply bind_Ok in Hb as (ok & s1 & Hcons & Hb).
  apply reads_Ok in Hcons as [Hcons ->].
  rewrite (consistent_of_solution _ _ f Hsym Hnd' Hincl' Hpart' Hsol) in Hcons.
  inversion Hcons; subst ok.
  exact (IH _ _ _ Hsym Hok Hnd' Hincl' Hb f Hpart' Hsup Hsol).
Qed.

(** X5: [backtrack] is exhaustive: when it returns None from a partial
    assignment of distinct variables of the crossword, no solution of
    the crossword that uses the words of the current domains extends
    that assignment. *)
Theorem backtrack_exhaustive (a : assignment) (s s' : CrosswordCreator) (f : choice) :
  symmetric_overlaps (crossword s) -> creator_ok s ->
  NoDup (dict_keys a) -> incl (dict_keys a) (variables (crossword s)) ->
  backtrack a s = Ok (None, s') ->
  part_of a f -> supports s f -> ~ solution (crossword s) f.
Proof.
  intros Hsym Hok Hnd Hincl H. unfold backtrack in H.
  exact (backtrack_rec_exhaustive _ a s s' Hsym Hok Hnd Hincl H f).
Qed.

Lemma init_supports cw f :
  (forall v, In v (variables cw) -> In (f v) (words cw)) -> supports (init cw) f.
Proof.
  intros H v Hv. simpl in Hv. unfold dom_of, init. simpl.
  assert (E : dict_get (map (fun var => (var, words cw)) (variables cw)) v
              = Some (words cw)).
  { clear H. induction (variables cw) as [|v0 l IH]; [destruct Hv|]. simpl.
    destruct (Var_eq_dec v0 v); [reflexivity|].
    destruct Hv as [->|Hv]; [congruence|auto]. }
  rewrite E. auto.
Qed.

(** X6: [solve()] is complete: when it returns None on a crossword,
    no choice of vocabulary words for the variables is a solution
    (distinct words, of the lengths of the variables, agreeing at the
    overlaps). *)
Theorem solve_complete (cw : Crossword) (s' : CrosswordCreator) (f : choice) :
  symmetric_overlaps cw ->
  solve (init cw) = Ok (None, s') ->
  (forall v, In v (variables cw) -> In (f v) (words cw)) ->
  ~ solution cw f.
Proof.
  intros Hsym H Hwords Hsol.
  apply solve_Ok in H as (s0 & b & Hnode & Hac3 & Hbt).
  destruct (enforce_node_consistency_spec _ _ _ Hnode) as (Hc0 & Hk0 & _).
  destruct (ac3_None_frame _ _ _ Hac3) as (Hc1 & Hk1).
  assert (Hok0 : creator_ok s0).
  { eapply creator_ok_same; [exact Hc0|exact Hk0|apply init_ok]. }
  simpl in Hc0.
  assert (Hok1 : creator_ok s').
  { eapply creator_ok_same; [exact Hc1|exact Hk1|exact Hok0]. }
  assert (Hcw : crossword s' = cw) by congruence.
  pose proof Hsol as (_ & Hlen & Hagree).
  pose proof (enforce_supports _ _ _ f Hnode Hlen (init_supports cw f Hwords)) as Hsup0.
  assert (Hsup1 : supports s' f).
  { pose proof Hac3 as Hq. apply ac3_None_Ok in Hq as (q & Hq & Hloop).
    apply (ac3_loop_supports _ f _ _ _ _ (proj2 (arc_queue_ok _ _ _ Hq)) Hloop);
      [rewrite Hc0|]; assumption. }
  unfold backtrack in Hbt.
  apply (backtrack_rec_exhaustive (S (List.length (unassigned s' []))) [] s' s')
    with (f := f); try assumption.
  - rewrite Hcw. assumption.
  - constructor.
  - intros ? [].
  - intros ? ? E. discriminate.
  - rewrite Hcw. assumption.
Qed.

(** ** The words of the result *)

Lemma backtrack_rec_from_domains fuel : forall a s r s',
  backtrack_rec fuel a s = Ok (Some r, s') ->
  forall v w, dict_get r v = Some w ->
              dict_get a v = Some w \/ In w (dom_of s v).
Proof.
  induction fuel as [|fuel IH]; intros a s r s' H; simpl in H; [discriminate|].
  unfold backtrack_body in H.
  apply bind_Ok in H as (complete & s1 & Hcomp & H).
  unfold assignment_complete in Hcomp. inversion Hcomp; subst complete s1; clear Hcomp.
  destruct (Nat.eqb (List.length (dict_keys a)) (List.length (variables (crossword s)))).
  { apply ret_Ok in H as [E _]. inversion E; subst. auto. }
  apply bind_Ok in H as (variable & s1 & Hsel & H).
  apply reads_Ok in Hsel as [Hsel ->].
  apply bind_Ok in H as (d & s1 & Hd & H).
  apply domain_Ok in Hd as [Hd ->].
  apply first_some_split in H.
  - destruct H as (tried & w0 & rest & -> & _ & Hsome & _).
    simpl in Hsome. apply bind_Ok in Hsome as (ok & s1 & Hcons & Hsome).
    apply reads_Ok in Hcons as [_ ->].
    destruct ok; [|apply ret_Ok in Hsome as [E _]; discriminate].
    intros v w Hget. destruct (IH _ _ _ _ Hsome v w Hget) as [Hset|Hin]; [|auto].
    destruct (Var_eq_dec v variable) as [->|Hne].
    + rewrite dict_get_set_eq in Hset. inversion Hset; subst w0.
      right. rewrite (dom_of_get _ _ _ Hd). apply in_or_app. right. left. reflexivity.
    + rewrite dict_get_set_neq in Hset by assumption. auto.
  - intros w r0 s0 Hb. simpl in Hb.
    apply bind_Ok in Hb as (ok & s1 & Hcons & Hb).
    apply reads_Ok in Hcons as [_ ->].
    destruct ok.
    + apply backtrack_rec_frame in Hb as [-> _]. reflexivity.
    + apply ret_Ok in Hb as [_ ->]. reflexivity.
Qed.

Lemma init_dom cw v : incl (dom_of (init cw) v) (words cw).
Proof.
  unfold dom_of, init. simpl.
  destruct (dict_get (map (fun var => (var, words cw)) (variables cw)) v) as [d|] eqn:E.
  - apply dict_get_in in E. apply in_map_iff in E as (v' & E & _).
    inversion E; subst. apply incl_refl.
  - intros ? [].
Qed.

(** X7: the words that [solve()] assigns come from the store as the
    pruning left it: each one is in the final domain of its variable,
    hence in the vocabulary, and of the length of its variable. *)
Theorem solve_words_from_domains (cw : Crossword) (a : assignment)
    (s' : CrosswordCreator) (v : Var) (w : word) :
  solve (init cw) = Ok (Some a, s') ->
  dict_get a v = Some w ->
  In w (dom_of s' v) /\ In w (words cw) /\ String.length w = var_length v.
Proof.
  intros H Hget. apply solve_Ok in H as (s0 & b & Hnode & Hac3 & Hbt).
  unfold backtrack in Hbt.
  destruct (backtrack_rec_from_domains _ _ _ _ _ Hbt v w Hget) as [E|Hin];
    [discriminate|].
  split; [assumption|].
  apply ac3_Ok in Hac3 as (q & Hloop).
  destruct (ac3_loop_pruned _ _ _ _ _ Hloop) as [Hp _].
  apply (pruned_from_incl s0 s' v Hp) in Hin.
  destruct (enforce_node_consistency_spec _ _ _ Hnode) as (_ & _ & Hv).
  unfold dom_of in Hin. rewrite Hv in Hin.
  destruct (dict_get (domains (init cw)) v) as [d|] eqn:Hd; [|destruct Hin].
  simpl in Hin. apply filter_In in Hin as [Hin Hfit]. split.
  - apply (init_dom cw v). unfold dom_of. rewrite Hd. assumption.
  - unfold fits in Hfit. apply Nat.eqb_eq. assumption.
Qed.

(** ** Selection of the variable *)

Lemma key_lt_false k1 k2 :
  key_lt k1 k2 = false ->
  fst k2 <= fst k1 /\ (fst k1 = fst k2 -> snd k1 <= snd k2).
Proof.
  unfold key_lt. intros H. apply orb_false_iff in H as [H1 H2].
  apply Nat.ltb_ge in H1. split; [assumption|]. intros E.
  apply andb_false_iff in H2 as [H2|H2].
  - apply Nat.eqb_neq in H2. contradiction.
  - apply Nat.ltb_ge in H2. assumption.
Qed.

(** X8: [select_unassigned_variable] raises ValueError when every
    variable of the store is assigned; otherwise it returns an
    unassigned variable of the store with the fewest remaining words
    and, among those, with the most neighbors. *)
Theorem select_unassigned_variable_mrv (s : CrosswordCreator) (a : assignment) :
  ((forall v, In v (dict_keys (domains s)) -> In v (dict_keys a)) ->
   select_unassigned_variable s a = Raise ValueError) /\
  ((exists v, In v (dict_keys (domains s)) /\ ~ In v (dict_keys a)) ->
   exists v,
     select_unassigned_variable s a = Ok v /\
     In v (dict_keys (domains s)) /\ ~ In v (dict_keys a) /\
     forall u, In u (dict_keys (domains s)) -> ~ In u (dict_keys a) ->
       List.length (dom_of s v) <= List.length (dom_of s u) /\
       (List.length (dom_of s u) = List.length (dom_of s v) ->
        List.length (neighbors (crossword s) u)
        <= List.length (neighbors (crossword s) v))).
Proof.
  split.
  - intros Hall. unfold select_unassigned_variable.
    destruct (unassigned s a) as [|v0 vs] eqn:E; [reflexivity|].
    assert (Hv0 : In v0 (unassigned s a)) by (rewrite E; left; reflexivity).
    apply unassigned_keys in Hv0 as [Hk Hn]. exfalso. auto.
  - intros (v1 & Hk1 & Hn1).
    assert (Hv1 : In v1 (unassigned s a)) by (apply unassigned_keys; auto).
    unfold select_unassigned_variable.
    destruct (unassigned s a) as [|v0 vs] eqn:Hun; [destruct Hv1|].
    assert (Hkeys : forall v, In v (v0 :: vs) -> In v (dict_keys (domains s))).
    { intros v Hv. rewrite <- Hun in Hv. apply unassigned_keys in Hv. tauto. }
    destruct (in_keys_dict_get _ _ (Hkeys v0 (or_introl eq_refl))) as [d0 Hd0].
    rewrite (select_key_Ok _ _ _ Hd0). simpl.
    destruct (min_by_key_spec s vs v0
                (List.length d0, List.length (neighbors (crossword s) v0))
                (fun v Hv => Hkeys v (or_intror Hv)))
      as (v & Hmin & Hin & k & Hk & Hbest & Hall).
    assert (Hv : In v (v0 :: vs)).
    { destruct Hin as [->|Hin]; [left; reflexivity|right; assumption]. }
    destruct (in_keys_dict_get _ _ (Hkeys v Hv)) as [d Hd].
    assert (Ek : k = (List.length d, List.length (neighbors (crossword s) v))).
    { destruct Hk as [[-> ->]|[_ Hk]].
      - congruence.
      - rewrite (select_key_Ok _ _ _ Hd) in Hk. congruence. }
    exists v. split; [assumption|].
    assert (Hvu : In v (unassigned s a)) by (rewrite Hun; assumption).
    apply unassigned_keys in Hvu as [Hkv Hnv].
    split; [assumption|]. split; [assumption|].
    intros u Hku Hnu.
    assert (Hu : In u (v0 :: vs)).
    { rewrite <- Hun. apply unassigned_keys. auto. }
    destruct (in_keys_dict_get _ _ Hku) as [du Hdu].
    rewrite (dom_of_get _ _ _ Hd), (dom_of_get _ _ _ Hdu).
    assert (Hlt : key_lt (List.length du, List.length (neighbors (crossword s) u)) k = false).
    { destruct Hu as [<-|Hu].
      - rewrite Hd0 in Hdu. inversion Hdu; subst du. exact Hbest.
      - apply (Hall u _ Hu). apply select_key_Ok. assumption. }
    subst k. apply key_lt_false in Hlt. simpl in Hlt. exact Hlt.
Qed.

(** X9: on an assignment of distinct variables of the crossword,
    [assignment_complete] returns True exactly when every variable of
    the crossword is assigned; it never changes the object. *)
Theorem assignment_complete_iff (a : assignment) (s : CrosswordCreator) :
  NoDup (variables (crossword s)) ->
  NoDup (dict_keys a) ->
  incl (dict_keys a) (variables (crossword s)) ->
  exists b,
    assignment_complete a s = Ok (b, s) /\
    (b = true <-> forall v, In v (variables (crossword s)) -> In v (dict_keys a)).
Proof.
  intros HndV Hnd Hincl. eexists. split; [reflexivity|].
  rewrite Nat.eqb_eq. split.
  - intros Hlen. apply NoDup_length_incl; [assumption|lia|assumption].
  - intros Hall. apply Nat.le_antisymm; apply NoDup_incl_length; assumption.
Qed.

(** ** Ordering of the values *)

Lemma filter_insert_by_key k p l :
  filter (fun q => Nat.eqb (fst q) k) (insert_by_key p l) =
  if Nat.eqb (fst p) k then p :: filter (fun q => Nat.eqb (fst q) k) l
  else filter (fun q => Nat.eqb (fst q) k) l.
Proof.
  induction l as [|q l IH]; simpl.
  - destruct (Nat.eqb (fst p) k); reflexivity.
  - destruct (fst p <=? fst q) eqn:E; simpl.
    + destruct (Nat.eqb (fst p) k); reflexivity.
    + apply Nat.leb_gt in E. rewrite IH.
      destruct (Nat.eqb (fst q) k) eqn:Eq, (Nat.eqb (fst p) k) eqn:Ep; try reflexivity.
      apply Nat.eqb_eq in Eq, Ep. lia.
Qed.

Lemma sort_by_key_stable k l :
  filter (fun q => Nat.eqb (fst q) k) (sort_by_key l) =
  filter (fun q => Nat.eqb (fst q) k) l.
Proof.
  induction l as [|p l IH]; simpl; [reflexivity|].
  rewrite filter_insert_by_key, IH. reflexivity.
Qed.

Lemma with_keys_scores key l ks :
  with_keys key l = Ok ks ->
  ks = map (fun w => (match key w with Ok n => n | Raise _ => 0 end, w)) l.
Proof.
  revert ks. induction l as [|w l IH]; intros ks H; simpl in H.
  - inversion H. reflexivity.
  - unfold rbind in H. destruct (key w) as [k|] eqn:Ek; [|discriminate].
    destruct (with_keys key l) as [ks'|]; [|discriminate].
    inversion H; subst ks. simpl. rewrite Ek. f_equal. apply IH. reflexivity.
Qed.

Lemma filter_map_snd (score : word -> nat) k (l : list (nat * word)) :
  (forall p, In p l -> fst p = score (snd p)) ->
  filter (fun w => Nat.eqb (score w) k) (map snd l) =
  map snd (filter (fun q => Nat.eqb (fst q) k) l).
Proof.
  induction l as [|p l IH]; intros H; simpl; [reflexivity|].
  rewrite <- (H p (or_introl eq_refl)).
  rewrite IH by (intros q Hq; apply H; right; assumption).
  destruct (Nat.eqb (fst p) k); reflexivity.
Qed.

(** X10: [order_domain_values] is stable: the candidates of a same
    score come out in the order they have in the domain. *)
Theorem order_domain_values_stable (s : CrosswordCreator) (var : Var)
    (a : assignment) (ordered : list word) (k : nat) :
  order_domain_values s var a = Ok ordered ->
  (forall w, In w (dom_of s var) ->
             eliminate_values s var w a = Ok (lcv_score s var a w)) /\
  filter (fun w => Nat.eqb (lcv_score s var a w) k) ordered =
  filter (fun w => Nat.eqb (lcv_score s var a w) k) (dom_of s var).
Proof.
  unfold order_domain_values, rbind. intros H.
  destruct (get_domain s var) as [d|] eqn:Hd; [|discriminate].
  destruct (with_keys (fun option => eliminate_values s var option a) d)
    as [keyed|] eqn:Hk; [|discriminate].
  inversion H; subst ordered.
  assert (Hdom : dom_of s var = d).
  { unfold get_domain in Hd. unfold dom_of.
    destruct (dict_get (domains s) var); congruence. }
  rewrite Hdom.
  destruct (with_keys_Ok _ _ _ Hk) as [Hm Hkeys].
  pose proof (with_keys_scores _ _ _ Hk) as Hscores.
  fold (lcv_score s var a) in Hscores.
  assert (Hfst : forall p, In p keyed -> fst p = lcv_score s var a (snd p)).
  { intros p Hp. rewrite Hscores in Hp. apply in_map_iff in Hp as (w & <- & _).
    reflexivity. }
  split.
  - intros w Hw. rewrite <- Hm in Hw. apply in_map_iff in Hw as ([n w'] & E & Hin).
    simpl in E. subst w'. pose proof (Hkeys n w Hin) as Hev.
    unfold lcv_score. rewrite Hev. reflexivity.
  - rewrite (filter_map_snd (lcv_score s var a)).
    + rewrite sort_by_key_stable.
      rewrite <- (filter_map_snd (lcv_score s var a)) by assumption.
      rewrite Hm. reflexivity.
    + intros p Hp. apply Hfst.
      apply (Permutation_in _ (sort_by_key_perm keyed)). assumption.
Qed.

Lemma sort_by_key_zero l :
  (forall p, In p l -> fst p = 0) -> sort_by_key l = l.
Proof.
  induction l as [|p l IH]; intros H; simpl; [reflexivity|].
  rewrite IH by (intros q Hq; apply H; right; assumption).
  destruct l as [|q l]; [reflexivity|]. simpl.
  rewrite (H p (or_introl eq_refl)). reflexivity.
Qed.

(** X11: when every neighbor of [var] is assigned (or [var] has no
    neighbor), every candidate scores 0 and [order_domain_values]
    returns the domain of [var] as it is. *)
Theorem order_domain_values_no_neighbor (s : CrosswordCreator) (var : Var)
    (a : assignment) (d : list word) :
  (forall n, In n (neighbors (crossword s) var) -> In n (dict_keys a)) ->
  dict_get (domains s) var = Some d ->
  (forall w, eliminate_values s var w a = Ok 0) /\
  order_domain_values s var a = Ok d.
Proof.
  intros Hall Hd.
  assert (Hns : filter (fun n => negb (dict_mem a n)) (neighbors (crossword s) var) = []).
  { induction (neighbors (crossword s) var) as [|n ns IH]; [reflexivity|]. simpl.
    rewrite (proj2 (dict_mem_true a n) (Hall n (or_introl eq_refl))). simpl.
    apply IH. intros n' Hn'. apply Hall. right. assumption. }
  assert (Hzero : forall w, eliminate_values s var w a = Ok 0).
  { intros w. unfold eliminate_values. rewrite Hns. reflexivity. }
  split; [exact Hzero|].
  unfold order_domain_values, get_domain. rewrite Hd. simpl.
  assert (Hk : with_keys (fun option => eliminate_values s var option a) d
               = Ok (map (fun w => (0, w)) d)).
  { clear Hd. induction d as [|w d IH]; simpl; [reflexivity|].
    rewrite Hzero, IH. reflexivity. }
  rewrite Hk. simpl. f_equal.
  rewrite sort_by_key_zero.
  - rewrite map_map. simpl. apply map_id.
  - intros p Hp. apply in_map_iff in Hp as (w & <- & _). reflexivity.
Qed.

(** ** Termination *)

(** X12: the [while] loop of [ac3] ends within
    (words in the store) * (variables + 1) + (arcs in the worklist)
    iterations: beyond that bound it never stops for lack of fuel. *)
Theorem ac3_loop_terminates (fuel : nat) (q : list arc) (s : CrosswordCreator) :
  total_size (domains s) * S (List.length (variables (crossword s))) + List.length q
    < fuel ->
  ac3_loop fuel q s <> Raise OutOfFuel.
Proof. intros H. apply ac3_loop_fuel_free. assumption. Qed.

(** X13: the recursion of [backtrack] is never deeper than the number
    of unassigned variables of the store: any larger bound gives the
    run of [backtrack], which never stops for lack of fuel. *)
Theorem backtrack_depth (fuel : nat) (a : assignment) (s : CrosswordCreator) :
  List.length (unassigned s a) < fuel ->
  backtrack_rec fuel a s = backtrack a s /\ backtrack a s <> Raise OutOfFuel.
Proof.
  intros H. split.
  - unfold backtrack. apply backtrack_rec_enough; lia.
  - apply backtrack_fuel_free.
Qed.

(** X14: on a well-formed crossword (variables and vocabulary without
    duplicates, overlaps symmetric and within the slots) [solve()]
    raises nothing: it returns an assignment or None, and the object it
    leaves has the same problem graph and the same variables. *)
Theorem solve_returns (cw : Crossword) :
  well_formed cw ->
  exists r s',
    solve (init cw) = Ok (r, s') /\
    crossword s' = cw /\ dict_keys (domains s') = variables cw.
Proof.
  intros Hwf. destruct (solve_total cw Hwf) as (r & s' & H).
  exists r, s'. split; [assumption|].
  apply solve_Ok in H as (s0 & b & Hnode & Hac3 & _).
  destruct (enforce_node_consistency_spec _ _ _ Hnode) as (Hc0 & Hk0 & _).
  destruct (ac3_None_frame _ _ _ Hac3) as (Hc1 & Hk1).
  split; [rewrite Hc1, Hc0; reflexivity|]. rewrite Hk1, Hk0. apply init_ok.
Qed.

(** ** Propagation from one variable *)

(** X15: [ac3] on the worklist [get_arc_queue(var)] restores arc
    consistency after a change of [var]'s domain: if every arc that
    does not point to [var] is consistent and the call returns True,
    the whole store is arc consistent. *)
Theorem ac3_from_variable (s : CrosswordCreator) (var : Var) (q : list arc)
    (s' : CrosswordCreator) :
  symmetric_overlaps (crossword s) ->
  In var (variables (crossword s)) ->
  get_arc_queue (Some var) s = Ok (q, s) ->
  (forall x y ix iy,
     In x (variables (crossword s)) -> In y (variables (crossword s)) ->
     x <> y -> y <> var ->
     overlaps (crossword s) x y = Some (ix, iy) -> arc_ok s x y ix iy) ->
  ac3 (Some q) s = Ok (true, s') ->
  arc_consistent s'.
Proof.
  intros Hsym Hvar Hq Hrest H.
  unfold get_arc_queue in Hq. inversion Hq as [Eq]. clear Hq.
  assert (Hin : forall x, In (x, var) q <-> In x (neighbors (crossword s) var)).
  { intros x. rewrite <- Eq, in_map_iff. split.
    - intros (n & E & Hn). inversion E; subst. assumption.
    - intros Hn. exists x. auto. }
  assert (Hq : forall x y, In (x, y) q -> y = var).
  { intros x y Hxy. rewrite <- Eq in Hxy.
    apply in_map_iff in Hxy as (n & E & _). inversion E. reflexivity. }
  unfold ac3 in H. apply bind_Ok in H as (q0 & s1 & Hret & H).
  apply ret_Ok in Hret as [-> ->].
  apply ac3_loop_sound in H; [tauto|assumption| |].
  - intros x y Hxy. pose proof (Hq x y Hxy) as ->.
    apply Hin, in_neighbors in Hxy as (Hx & Hne & _). auto.
  - intros x y ix iy Hx Hy Hne Hov.
    destruct (Var_eq_dec y var) as [->|Hyv].
    + left. apply Hin, in_neighbors. repeat split; [assumption|assumption|].
      rewrite Hov. discriminate.
    + right. apply (Hrest x y ix iy); assumption.
Qed.

(** ** The letters of the grid *)

Lemma list_set_Ok {A} (a : A) : forall (l : list A) n,
  n < List.length l ->
  exists l', list_set l n a = Ok l' /\
             List.length l' = List.length l /\
             nth_error l' n = Some a /\
             forall m, m <> n -> nth_error l' m = nth_error l m.
Proof.
  induction l as [|x l IH]; intros n Hn; simpl in Hn; [lia|].
  destruct n as [|n]; simpl.
  - eexists. split; [reflexivity|]. repeat split.
    intros [|m] Hm; [congruence|reflexivity].
  - destruct (IH n ltac:(lia)) as (l' & -> & Hlen & Hnth & Hother). simpl.
    eexists. split; [reflexivity|]. simpl. rewrite Hlen.
    split; [reflexivity|]. split; [assumption|].
    intros [|m] Hm; [reflexivity|]. simpl. apply Hother. congruence.
Qed.

Lemma list_set_Raise {A} (a : A) : forall (l : list A) n,
  List.length l <= n -> list_set l n a = Raise IndexError.
Proof.
  induction l as [|x l IH]; intros n Hn; simpl in *.
  - destruct n; reflexivity.
  - destruct n as [|n]; [lia|]. rewrite IH by lia. reflexivity.
Qed.

Lemma shape_row width height g i row :
  shape width height g -> nth_error g i = Some row -> List.length row = width.
Proof.
  intros [_ HF] H. rewrite Forall_forall in HF. apply HF.
  eapply nth_error_In. eassumption.
Qed.

Lemma set_cell_Ok width height g i j c :
  shape width height g -> i < height -> j < width ->
  exists g', set_cell g i j c = Ok g' /\
             shape width height g' /\
             cell g' i j = Some (Some c) /\
             forall i' j', (i', j') <> (i, j) -> cell g' i' j' = cell g i' j'.
Proof.
  intros Hs Hi Hj. pose proof Hs as [Hlen HF].
  unfold set_cell, list_get.
  destruct (nth_error g i) as [row|] eqn:Hrow.
  2:{ apply nth_error_None in Hrow. lia. }
  simpl. pose proof (shape_row _ _ _ _ _ Hs Hrow) as Hw.
  destruct (list_set_Ok (Some c) row j ltac:(lia)) as (row' & -> & Hlr & Hnr & Hor).
  simpl.
  destruct (list_set_Ok row' g i ltac:(lia)) as (g' & -> & Hlg & Hng & Hog).
  exists g'. split; [reflexivity|]. split; [|split].
  - split; [lia|]. apply Forall_forall. intros r Hr.
    apply In_nth_error in Hr as [m Hm].
    destruct (Nat.eq_dec m i) as [->|Hmi].
    + rewrite Hng in Hm. inversion Hm; subst r. lia.
    + rewrite Hog in Hm by assumption.
      eapply shape_row; eassumption.
  - unfold cell. rewrite Hng. assumption.
  - intros i' j' Hne. unfold cell.
    destruct (Nat.eq_dec i' i) as [->|Hi'].
    + rewrite Hng, Hrow. apply Hor. congruence.
    + rewrite Hog by assumption. reflexivity.
Qed.

Lemma set_cell_Raise width height g i j c :
  shape width height g -> ~ (i < height /\ j < width) ->
  set_cell g i j c = Raise IndexError.
Proof.
  intros Hs Hout. pose proof Hs as [Hlen HF].
  unfold set_cell, list_get.
  destruct (nth_error g i) as [row|] eqn:Hrow; [|reflexivity].
  simpl. pose proof (shape_row _ _ _ _ _ Hs Hrow) as Hw.
  assert (Hi : i < height).
  { rewrite <- Hlen. apply nth_error_Some. congruence. }
  rewrite list_set_Raise by lia. reflexivity.
Qed.

Lemma draw_app l1 : forall l2 g,
  draw (l1 ++ l2) g = do g' <- draw l1 g; draw l2 g'.
Proof.
  induction l1 as [|[[i j] c] l1 IH]; intros l2 g; simpl; [reflexivity|].
  unfold rbind. destruct (set_cell g i j c); [apply IH|reflexivity].
Qed.

Lemma place_word_draw variable chars : forall k g,
  place_word variable chars k g = draw (strokes_of variable chars k) g.
Proof.
  induction chars as [|c rest IH]; intros k g; [reflexivity|].
  cbn [place_word strokes_of]. destruct (cell_of variable k) as [i j].
  cbn [draw]. unfold rbind.
  destruct (set_cell g i j c); [apply IH|reflexivity].
Qed.

Lemma place_words_draw a : forall g, place_words a g = draw (strokes a) g.
Proof.
  induction a as [|[variable w] a IH]; intros g; simpl; [reflexivity|].
  unfold strokes. simpl. rewrite draw_app, place_word_draw. unfold rbind.
  destruct (draw _ g); [apply IH|reflexivity].
Qed.

Lemma get_list_ascii w : forall k,
  String.get k w = nth_error (list_ascii_of_string w) k.
Proof.
  induction w as [|c w IH]; intros [|k]; simpl; auto.
Qed.

Lemma length_list_ascii w :
  List.length (list_ascii_of_string w) = String.length w.
Proof. induction w; simpl; congruence. Qed.

Lemma in_strokes_of variable chars : forall k p c,
  In (p, c) (strokes_of variable chars k) <->
  exists n, nth_error chars n = Some c /\ p = cell_of variable (k + n).
Proof.
  induction chars as [|c0 rest IH]; intros k p c; simpl.
  - split; [intros []|]. intros ([|n] & H & _); discriminate.
  - rewrite IH. split.
    + intros [E|(n & Hn & ->)].
      * inversion E; subst. exists 0. rewrite Nat.add_0_r. auto.
      * exists (S n). rewrite Nat.add_succ_r. auto.
    + intros ([|n] & Hn & ->).
      * left. simpl in Hn. inversion Hn. rewrite Nat.add_0_r. reflexivity.
      * right. exists n. rewrite Nat.add_succ_r. auto.
Qed.

Lemma in_strokes a i j c : In (i, j, c) (strokes a) <-> writes a i j c.
Proof.
  unfold strokes, writes. rewrite in_flat_map. split.
  - intros ([variable w] & Hin & H). simpl in H.
    apply in_strokes_of in H as (n & Hn & E). simpl in E.
    exists variable, w, n. rewrite get_list_ascii. auto.
  - intros (variable & w & k & Hin & Hget & Hcell).
    exists (variable, w). split; [assumption|]. simpl.
    apply in_strokes_of. exists k. rewrite <- get_list_ascii. simpl. auto.
Qed.

Lemma strokes_in_grid width height a :
  (forall variable w, In (variable, w) a -> in_grid width height variable w) <->
  (forall i j c, In (i, j, c) (strokes a) -> i < height /\ j < width).
Proof.
  split.
  - intros H i j c Hin. apply in_strokes in Hin as (variable & w & k & Hin & Hget & Hcell).
    assert (Hk : k < String.length w).
    { rewrite get_list_ascii in Hget. rewrite <- length_list_ascii.
      apply nth_error_Some. congruence. }
    pose proof (H variable w Hin k Hk) as Hb. rewrite Hcell in Hb. exact Hb.
  - intros H variable w Hin k Hk.
    destruct (get_in_range w k Hk) as [c Hc].
    destruct (cell_of variable k) as [i j] eqn:Hcell. simpl.
    apply (H i j c). apply in_strokes. exists variable, w, k. auto.
Qed.

Lemma shape_blank width height :
  shape width height (repeat (repeat None width) height).
Proof.
  split; [apply repeat_length|]. apply Forall_forall. intros row Hrow.
  apply repeat_spec in Hrow. subst row. apply repeat_length.
Qed.

Lemma cell_blank width height i j :
  i < height -> j < width ->
  cell (repeat (repeat None width) height) i j = Some None.
Proof.
  intros Hi Hj. unfold cell.
  rewrite nth_error_repeat by assumption. apply nth_error_repeat. assumption.
Qed.

Lemma draw_Ok width height l : forall g,
  shape width height g ->
  (forall i j c, In (i, j, c) l -> i < height /\ j < width) ->
  exists g', draw l g = Ok g' /\ shape width height g'.
Proof.
  induction l as [|[[i j] c] l IH]; intros g Hs Hin; cbn [draw]; [eauto|].
  destruct (Hin i j c (or_introl eq_refl)) as [Hi Hj].
  destruct (set_cell_Ok width height g i j c Hs Hi Hj) as (g1 & -> & Hs1 & _).
  cbn [rbind]. apply IH; [assumption|]. intros i' j' c' H. apply (Hin i' j' c'). right. assumption.
Qed.

Lemma written_dec (l : list stroke) i j :
  (exists c, In (i, j, c) l) \/ (forall c, ~ In (i, j, c) l).
Proof.
  induction l as [|[[i0 j0] c0] l IH].
  - right. intros c [].
  - destruct IH as [[c Hc]|Hno].
    + left. exists c. right. assumption.
    + destruct (Nat.eq_dec i0 i) as [->|Hi]; [destruct (Nat.eq_dec j0 j) as [->|Hj]|].
      * left. exists c0. left. reflexivity.
      * right. intros c [E|H]; [inversion E; congruence|exact (Hno c H)].
      * right. intros c [E|H]; [inversion E; congruence|exact (Hno c H)].
Qed.

Lemma draw_cells width height l : forall g g',
  shape width height g ->
  draw l g = Ok g' ->
  (forall i j, (forall c, ~ In (i, j, c) l) -> cell g' i j = cell g i j) /\
  (forall i j c, In (i, j, c) l ->
     exists c', In (i, j, c') l /\ cell g' i j = Some (Some c')).
Proof.
  induction l as [|[[i0 j0] c0] l IH]; intros g g' Hs H; cbn [draw] in H.
  - inversion H; subst g'. split; [reflexivity|]. intros i j c [].
  - unfold rbind in H. destruct (set_cell g i0 j0 c0) as [g1|] eqn:Hset; [|discriminate].
    assert (Hb : i0 < height /\ j0 < width).
    { destruct (lt_dec i0 height) as [Hi|Hi]; [destruct (lt_dec j0 width) as [Hj|Hj]|];
        [tauto| |];
        rewrite (set_cell_Raise width height g i0 j0 c0 Hs) in Hset by tauto;
        discriminate. }
    destruct (set_cell_Ok width height g i0 j0 c0 Hs (proj1 Hb) (proj2 Hb))
      as (g1' & Hset' & Hs1 & Hhere & Hother).
    rewrite Hset in Hset'. inversion Hset'; subst g1'. clear Hset'.
    destruct (IH g1 g' Hs1 H) as [Hkeep Hwr]. split.
    + intros i j Hno. rewrite Hkeep.
      * apply Hother. intros E. inversion E; subst.
        apply (Hno c0). left. reflexivity.
      * intros c Hc. apply (Hno c). right. assumption.
    + intros i j c Hin.
      destruct (written_dec l i j) as [[c1 Hc1]|Hno].
      * destruct (Hwr i j c1 Hc1) as (c' & Hc' & Hcell).
        exists c'. split; [right; assumption|assumption].
      * destruct Hin as [E|Hin]; [|destruct (Hno c Hin)].
        inversion E; subst. exists c. split; [left; reflexivity|].
        rewrite Hkeep by assumption. assumption.
Qed.

Lemma draw_cases width height l : forall g,
  shape width height g ->
  (exists g', draw l g = Ok g' /\
              forall i j c, In (i, j, c) l -> i < height /\ j < width) \/
  draw l g = Raise IndexError.
Proof.
  induction l as [|[[i j] c] l IH]; intros g Hs; cbn [draw].
  - left. exists g. split; [reflexivity|]. intros i j c [].
  - destruct (lt_dec i height) as [Hi|Hi]; [destruct (lt_dec j width) as [Hj|Hj]|].
    + destruct (set_cell_Ok width height g i j c Hs Hi Hj) as (g1 & -> & Hs1 & _).
      cbn [rbind]. destruct (IH g1 Hs1) as [(g' & Hg' & Hall)|Hraise].
      * left. exists g'. split; [assumption|].
        intros i' j' c' [E|H]; [inversion E; subst; auto|exact (Hall i' j' c' H)].
      * right. assumption.
    + right. rewrite (set_cell_Raise width height g i j c Hs) by tauto. reflexivity.
    + right. rewrite (set_cell_Raise width height g i j c Hs) by tauto. reflexivity.
Qed.

(** X16: [letter_grid] returns an array of [height] rows of [width]
    cells when the slot of every assigned word lies within the array,
    and raises IndexError when the slot of some word does not. *)
Theorem letter_grid_bounds (width height : nat) (a : assignment) :
  ((forall variable w, In (variable, w) a -> in_grid width height variable w) ->
   exists g, letter_grid width height a = Ok g /\
             List.length g = height /\
             Forall (fun row => List.length row = width) g) /\
  ((exists variable w, In (variable, w) a /\ ~ in_grid width height variable w) ->
   letter_grid width height a = Raise IndexError).
Proof.
  unfold letter_grid. rewrite place_words_draw. split.
  - intros H.
    destruct (draw_Ok width height (strokes a) _ (shape_blank width height)
                (proj1 (strokes_in_grid width height a) H)) as (g & Hg & Hs).
    exists g. split; [assumption|]. exact Hs.
  - intros (variable & w & Hin & Hout).
    destruct (draw_cases width height (strokes a) _ (shape_blank width height))
      as [(g & _ & Hall)|Hraise]; [|assumption].
    exfalso. apply Hout.
    exact (proj2 (strokes_in_grid width height a) Hall variable w Hin).
Qed.

(** X17: in the array that [letter_grid] returns, a cell that no word
    of the assignment covers holds None, a cell that some word covers
    holds a letter that a word of the assignment puts there, and when
    the words that cover a cell agree on its letter every covered cell
    holds the letter of each word that covers it. *)
Theorem letter_grid_cells (width height : nat) (a : assignment) (g : grid) :
  letter_grid width height a = Ok g ->
  (forall i j, i < height -> j < width ->
     (forall c, ~ writes a i j c) -> cell g i j = Some None) /\
  (forall i j c, writes a i j c ->
     exists c', writes a i j c' /\ cell g i j = Some (Some c')) /\
  ((forall i j c c', writes a i j c -> writes a i j c' -> c = c') ->
   forall i j c, writes a i j c -> cell g i j = Some (Some c)).
Proof.
  unfold letter_grid. rewrite place_words_draw. intros H.
  destruct (draw_cells width height (strokes a) _ g (shape_blank width height) H)
    as [Hkeep Hwr].
  split; [|split].
  - intros i j Hi Hj Hno. rewrite Hkeep.
    + apply cell_blank; assumption.
    + intros c Hc. apply (Hno c). apply in_strokes. assumption.
  - intros i j c Hw. apply in_strokes in Hw.
    destruct (Hwr i j c Hw) as (c' & Hc' & Hcell).
    exists c'. split; [apply in_strokes; assumption|assumption].
  - intros Hagree i j c Hw. pose proof Hw as Hw'. apply in_strokes in Hw'.
    destruct (Hwr i j c Hw') as (c' & Hc' & Hcell).
    apply in_strokes in Hc'. rewrite (Hagree i j c c' Hw Hc'). assumption.
Qed.

(** ** The further properties on the worked instances *)

Lemma ac3_only_removes_witness :
  exists removed,
    dom_of Example.clash_failed Example.u
    = filter (fun w => negb (mem_word w removed)) (dom_of Example.clash_checked Example.u).
Proof.
  assert (Hrun : ac3 None Example.clash_checked = Ok (false, Example.clash_failed)).
  { vm_compute. reflexivity. }
  exact (proj1 (proj2 (proj2 (ac3_only_removes None _ _ _ Hrun))) Example.u).
Defined.

Lemma ac3_result_witness :
  exists x, In x (dict_keys (domains Example.clash_checked)) /\
            dom_of Example.clash_failed x = [].
Proof.
  assert (Hrun : ac3 None Example.clash_checked = Ok (false, Example.clash_failed)).
  { vm_compute. reflexivity. }
  exact (ac3_result None _ false _ Hrun).
Defined.

Lemma enforce_node_consistency_filters_witness :
  exists s',
    enforce_node_consistency (init Example.cw) = Ok (tt, s') /\
    crossword s' = crossword (init Example.cw) /\
    dict_keys (domains s') = dict_keys (domains (init Example.cw)) /\
    forall v, dom_of s' v
              = filter (fun w => Nat.eqb (String.length w) (var_length v))
                       (dom_of (init Example.cw) v).
Proof.
  apply (enforce_node_consistency_filters (init Example.cw)).
  apply init_is_set. repeat constructor; simpl; intuition discriminate.
Defined.

Lemma ac3_keeps_solutions_witness :
  supports Example.pruned Cases.pick /\ true = true.
Proof.
  apply (ac3_keeps_solutions Example.pruned true Example.pruned Cases.pick).
  - reflexivity.
  - vm_compute. reflexivity.
  - intros x y i j [<-|[<-|[]]] [<-|[<-|[]]] Hne Hov; try congruence;
      vm_compute in Hov; inversion Hov; subst;
      apply agree_b_true; reflexivity.
  - intros v [<-|[<-|[]]]; simpl; auto.
Defined.

Lemma backtrack_exhaustive_witness :
  ~ solution (crossword (init Example.fork)) Cases.all_aba.
Proof.
  apply (backtrack_exhaustive [] (init Example.fork) (init Example.fork) Cases.all_aba).
  - apply symmetric_overlaps_b_sound. vm_compute. reflexivity.
  - apply init_ok.
  - constructor.
  - intros v [].
  - vm_compute. reflexivity.
  - intros v w H. discriminate.
  - intros v [<-|[<-|[<-|[]]]]; simpl; auto.
Defined.

Lemma solve_complete_witness : ~ solution Example.fork Cases.fill.
Proof.
  apply (solve_complete Example.fork (init Example.fork) Cases.fill).
  - apply symmetric_overlaps_b_sound. vm_compute. reflexivity.
  - vm_compute. reflexivity.
  - intros v [<-|[<-|[<-|[]]]]; simpl; auto.
Defined.

Lemma solve_words_from_domains_witness :
  In "abc"%string (dom_of Example.pruned Example.x) /\
  In "abc"%string (words Example.cw) /\
  String.length "abc" = var_length Example.x.
Proof.
  apply (solve_words_from_domains Example.cw Example.solution Example.pruned).
  - vm_compute. reflexivity.
  - reflexivity.
Defined.

Lemma select_unassigned_variable_mrv_witness :
  exists v,
    select_unassigned_variable Cases.narrowed [] = Ok v /\
    In v (dict_keys (domains Cases.narrowed)) /\ ~ In v (dict_keys (@nil (Var * word))) /\
    forall u, In u (dict_keys (domains Cases.narrowed)) ->
              ~ In u (dict_keys (@nil (Var * word))) ->
      List.length (dom_of Cases.narrowed v) <= List.length (dom_of Cases.narrowed u) /\
      (List.length (dom_of Cases.narrowed u) = List.length (dom_of Cases.narrowed v) ->
       List.length (neighbors (crossword Cases.narrowed) u)
       <= List.length (neighbors (crossword Cases.narrowed) v)).
Proof.
  apply (proj2 (select_unassigned_variable_mrv Cases.narrowed [])).
  exists Example.x. split; [left; reflexivity|intros []].
Defined.

Lemma assignment_complete_iff_witness :
  exists b,
    assignment_complete Example.solution Example.pruned = Ok (b, Example.pruned) /\
    (b = true <->
     forall v, In v (variables (crossword Example.pruned)) ->
               In v (dict_keys Example.solution)).
Proof.
  apply (assignment_complete_iff Example.solution Example.pruned).
  - repeat constructor; simpl; intuition discriminate.
  - repeat constructor; simpl; intuition discriminate.
  - intros v H. exact H.
Defined.

Lemma order_domain_values_stable_witness :
  filter (fun w => Nat.eqb (lcv_score Example.pruned Example.x [] w) 2)
         ["bcd"; "bef"; "bgh"; "abc"; "ade"]%string
  = filter (fun w => Nat.eqb (lcv_score Example.pruned Example.x [] w) 2)
           (dom_of Example.pruned Example.x).
Proof.
  assert (H : order_domain_values Example.pruned Example.x []
              = Ok ["bcd"; "bef"; "bgh"; "abc"; "ade"]%string).
  { vm_compute. reflexivity. }
  exact (proj2 (order_domain_values_stable Example.pruned Example.x [] _ 2 H)).
Defined.

Lemma order_domain_values_no_neighbor_witness :
  (forall w, eliminate_values Example.pruned Example.x w [(Example.y, "ade"%string)] = Ok 0) /\
  order_domain_values Example.pruned Example.x [(Example.y, "ade"%string)]
  = Ok ["abc"; "ade"; "bcd"; "bef"; "bgh"]%string.
Proof.
  apply (order_domain_values_no_neighbor Example.pruned Example.x).
  - intros n Hn. vm_compute in Hn. destruct Hn as [<-|[]]. left. reflexivity.
  - reflexivity.
Defined.

Lemma ac3_loop_terminates_witness :
  ac3_loop 100 [(Example.u, Example.v)] Example.clash_checked <> Raise OutOfFuel.
Proof.
  apply (ac3_loop_terminates 100 [(Example.u, Example.v)] Example.clash_checked).
  simpl. lia.
Defined.

Lemma backtrack_depth_witness :
  backtrack_rec 3 [] Example.pruned = backtrack [] Example.pruned /\
  backtrack [] Example.pruned <> Raise OutOfFuel.
Proof.
  apply (backtrack_depth 3 [] Example.pruned). vm_compute. lia.
Defined.

Lemma solve_returns_witness :
  exists r s',
    solve (init Example.cw) = Ok (r, s') /\
    crossword s' = Example.cw /\ dict_keys (domains s') = variables Example.cw.
Proof.
  apply (solve_returns Example.cw).
  split; [|split; [|split]].
  - repeat constructor; simpl; intuition discriminate.
  - repeat constructor; simpl; intuition discriminate.
  - apply symmetric_overlaps_b_sound. vm_compute. reflexivity.
  - apply in_range_overlaps_b_sound. vm_compute. reflexivity.
Defined.

Lemma ac3_from_variable_witness : arc_consistent Cases.narrowed_done.
Proof.
  apply (ac3_from_variable Cases.narrowed Example.x [(Example.y, Example.x)]
                           Cases.narrowed_done).
  - apply symmetric_overlaps_b_sound. vm_compute. reflexivity.
  - left. reflexivity.
  - vm_compute. reflexivity.
  - intros x y ix iy [<-|[<-|[]]] [<-|[<-|[]]] Hne Hyv Hov; try congruence.
    vm_compute in Hov. inversion Hov; subst.
    intros w [<-|[<-|[]]].
    + exists "abc"%string. split; [simpl; auto|]. apply agree_b_true. reflexivity.
    + exists "abc"%string. split; [simpl; auto|]. apply agree_b_true. reflexivity.
  - vm_compute. reflexivity.
Defined.

Lemma letter_grid_bounds_witness :
  (exists g, letter_grid 3 3 Example.solution = Ok g /\
             List.length g = 3 /\
             Forall (fun row => List.length row = 3) g) /\
  letter_grid 2 3 Example.solution = Raise IndexError.
Proof.
  split.
  - apply (proj1 (letter_grid_bounds 3 3 Example.solution)).
    intros variable w [E|[E|[]]]; inversion E; subst;
      intros k Hk; simpl in *; lia.
  - apply (proj2 (letter_grid_bounds 2 3 Example.solution)).
    exists Example.x, "abc"%string. split; [left; reflexivity|].
    intros H. specialize (H 2 ltac:(simpl; lia)). simpl in H. lia.
Defined.

Lemma letter_grid_cells_witness :
  exists c', writes Example.solution 0 1 c' /\
             cell Cases.grid3 0 1 = Some (Some c').
Proof.
  assert (H : letter_grid 3 3 Example.solution = Ok Cases.grid3).
  { vm_compute. reflexivity. }
  apply (proj1 (proj2 (letter_grid_cells 3 3 Example.solution Cases.grid3 H))
           0 1 "b"%char).
  exists Example.x, "abc"%string, 1. split; [left; reflexivity|].
  split; reflexivity.
Defined.

(** * Independence of the iteration order of the sets *)

(** ** The methods in the stored order *)

Lemma ac3_loop_in_stored fuel : forall q s,
  ac3_loop_in neighbors fuel q s = ac3_loop fuel q s.
Proof.
  induction fuel as [|fuel IH]; intros q s; simpl; [reflexivity|].
  destruct q as [|[x y] rest]; [reflexivity|].
  unfold bind. destruct (revise x y s) as [[b s1]|e]; [|reflexivity].
  destruct b; [|apply IH].
  destruct (domain x s1) as [[dx s2]|e]; [|reflexivity].
  destruct (Nat.eqb (List.length dx) 0); [reflexivity|]. apply IH.
Qed.

Lemma consistent_vars_in_stored cw a vs :
  consistent_vars_in neighbors cw a vs = consistent_vars cw a vs.
Proof.
  induction vs as [|var vs IH]; simpl; [reflexivity|].
  unfold rbind. destruct (lookup a var); [|reflexivity].
  destruct (negb _); [reflexivity|].
  destruct (consistent_neighbors cw a var (neighbors cw var)) as [[|]|]; auto.
Qed.

Lemma backtrack_rec_in_stored fuel : forall a s,
  backtrack_rec_in neighbors stored_order fuel a s = backtrack_rec fuel a s.
Proof.
  induction fuel as [|fuel IH]; intros a s; simpl; [reflexivity|].
  unfold backtrack_body_in, backtrack_body.
  apply bind_ext. intros complete s1 _. destruct complete; [reflexivity|].
  apply bind_ext. intros variable s2 _.
  apply bind_ext. intros d s3 _.
  apply first_some_ext with (I := fun _ => True); [|auto|exact I].
  intros w s4 _ _. unfold bind, reads, consistent_in, consistent.
  rewrite consistent_vars_in_stored.
  destruct (_ <? _); simpl; [reflexivity|].
  destruct (consistent_vars _ _ _) as [[|]|]; simpl; [apply IH|reflexivity|reflexivity].
Qed.

(** with both sets iterated in the stored order, the methods of this
    part are the methods of the first part *)
Lemma solve_in_stored s : solve_in neighbors stored_order s = solve s.
Proof.
  unfold solve_in, solve.
  apply bind_ext. intros u s1 _.
  unfold bind. unfold ac3_in, ac3, bind.
  change (get_arc_queue_in neighbors None s1) with (get_arc_queue None s1).
  destruct (get_arc_queue None s1) as [[q s2]|e]; [|reflexivity].
  rewrite ac3_loop_in_stored.
  destruct (ac3_loop (ac3_fuel s2 q) q s2) as [[b s3]|e]; [|reflexivity].
  unfold backtrack_in, backtrack. apply backtrack_rec_in_stored.
Qed.

(** ** The worklist loop in any order *)

Lemma arcs_ok_incl cw q q' :
  (forall a, In a q' -> In a q) -> arcs_ok cw q -> arcs_ok cw q'.
Proof. intros Hsub Hq x y Hin. apply Hq, Hsub, Hin. Qed.

Lemma arc_inv_incl s q q' :
  (forall a, In a q -> In a q') -> arc_inv s q -> arc_inv s q'.
Proof.
  intros Hsub Hinv x y ix iy Hx Hy Hxy Hov.
  destruct (Hinv x y ix iy Hx Hy Hxy Hov) as [Hin|Hok]; [left; auto|right; assumption].
Qed.

(** a revision removes no word of an arc-consistent store that lies
    within the current one *)
Lemma revise_within x y s b s1 r :
  x <> y -> In x (variables (crossword s)) -> In y (variables (crossword s)) ->
  revise x y s = Ok (b, s1) ->
  crossword r = crossword s -> arc_consistent r -> within r s -> within r s1.
Proof.
  intros Hxy Hx Hy H Hcr Hac Hin.
  destruct (overlaps (crossword s) x y) as [[ox oy]|] eqn:Hov.
  - destruct (revise_some _ _ _ _ _ _ _ Hxy Hov H)
      as (dx & Hdx & Hc & Hk & Ho & Hv & _).
    intros v. destruct (Var_eq_dec v x) as [->|Hne].
    + intros w Hw. rewrite (dom_of_get _ _ _ Hv). apply filter_In. split.
      * rewrite <- (dom_of_get _ _ _ Hdx). apply (Hin x). assumption.
      * apply supported_b_true.
        rewrite <- Hcr in Hx, Hy, Hov.
        destruct (Hac x y ox oy Hx Hy Hxy Hov w Hw) as (v & Hv' & Hag).
        exists v. split; [apply (Hin y); assumption|assumption].
    + rewrite (dom_of_same s s1 v (Ho v Hne)). apply Hin.
  - rewrite (revise_none _ _ _ Hov) in H. inversion H; subst. assumption.
Qed.

Section AnyOrder.
Variable cw : Crossword.
Variable nb : Crossword -> Var -> list Var.
Hypothesis Hnb : neighbors_order cw nb.

Lemma in_nb var v : In v (nb cw var) <-> In v (neighbors cw var).
Proof.
  split; apply Permutation_in; [apply Hnb|apply Permutation_sym, Hnb].
Qed.

Lemma in_enqueued_in x y a :
  In a (enqueued_in nb cw x y) <-> In a (enqueued cw x y).
Proof.
  unfold enqueued_in, enqueued. rewrite !in_map_iff.
  split; intros (n & E & Hn); exists n; (split; [assumption|]);
    apply filter_In in Hn as [Hn Hy]; apply filter_In; (split; [|assumption]);
    apply in_nb; assumption.
Qed.

Lemma enqueued_in_length x y :
  List.length (enqueued_in nb cw x y) <= List.length (variables cw).
Proof.
  unfold enqueued_in. rewrite length_map.
  etransitivity; [apply filter_length_le|].
  rewrite (Permutation_length (Hnb x)). apply neighbors_length.
Qed.

Lemma arcs_ok_step_in x y rest :
  arcs_ok cw ((x, y) :: rest) -> arcs_ok cw (rest ++ enqueued_in nb cw x y).
Proof.
  intros H. apply arcs_ok_incl with (q := rest ++ enqueued cw x y).
  - intros a Ha. apply in_app_or in Ha as [Ha|Ha]; apply in_or_app;
      [left; assumption|right; apply in_enqueued_in; assumption].
  - apply arcs_ok_step. assumption.
Qed.

(** the loop returns within its bound and keeps the store in shape *)
Lemma ac3_loop_in_returns fuel : forall q s,
  in_range_overlaps cw -> store_inv cw s -> arcs_ok cw q ->
  total_size (domains s) * S (List.length (variables cw)) + List.length q < fuel ->
  exists b s', ac3_loop_in nb fuel q s = Ok (b, s') /\ store_inv cw s'.
Proof.
  induction fuel as [|fuel IH]; intros q s Hrange Hinv Hq Hlt; [lia|]. simpl.
  destruct q as [|[x y] rest]; [eexists; eexists; split; [reflexivity|assumption]|].
  destruct (Hq x y (or_introl eq_refl)) as (Hx & Hy & Hxy).
  destruct (revise_total_inv cw x y s Hrange Hinv Hx Hy Hxy) as (b & s1 & Hrev).
  pose proof (revise_keeps_inv cw x y s b s1 Hxy Hinv Hrev) as Hinv1.
  destruct (revise_size _ _ _ _ _ Hrev) as (_ & _ & Hle & Hstrict).
  rewrite (bind_of_Ok _ _ _ _ _ Hrev). simpl in Hlt.
  destruct b.
  - pose proof Hinv1 as (Hc1 & Hok1 & Hset1 & Hnode1).
    assert (Hkx : In x (dict_keys (domains s1))) by (rewrite Hok1, Hc1; assumption).
    destruct (in_keys_dict_get _ _ Hkx) as [dx Hdx].
    rewrite (bind_of_Ok _ _ _ _ _ (domain_of_get _ _ _ Hdx)).
    destruct (Nat.eqb (List.length dx) 0).
    + eexists; eexists. split; [reflexivity|assumption].
    + rewrite Hc1. apply IH; [assumption|assumption|apply arcs_ok_step_in; assumption|].
      rewrite length_app. pose proof (enqueued_in_length x y).
      specialize (Hstrict eq_refl). nia.
  - apply IH; [assumption|assumption|eapply arcs_ok_tail; eassumption|]. nia.
Qed.

(** it only removes words, and after False some domain is empty *)
Lemma ac3_loop_in_pruned fuel : forall q s b s',
  ac3_loop_in nb fuel q s = Ok (b, s') ->
  pruned_from s s' /\ (b = false -> exists x, dict_get (domains s') x = Some []).
Proof.
  induction fuel as [|fuel IH]; intros q s b s' H; simpl in H; [discriminate|].
  destruct q as [|[x y] rest].
  - apply ret_Ok in H as [-> ->]. split; [apply pruned_from_refl|discriminate].
  - apply bind_Ok in H as (b1 & s1 & Hrev & H).
    destruct (revise_pruned _ _ _ _ _ Hrev) as (Hp1 & _ & _).
    destruct b1.
    + apply bind_Ok in H as (dx & s2 & Hdx & H).
      apply domain_Ok in Hdx as [Hdx ->].
      destruct dx as [|w0 dx]; simpl in H.
      * apply ret_Ok in H as [-> ->]. split; [assumption|]. intros _. exists x. assumption.
      * destruct (IH _ _ _ _ H) as (Hp & Hb).
        split; [eapply pruned_from_trans; eassumption|assumption].
    + destruct (IH _ _ _ _ H) as (Hp & Hb).
      split; [eapply pruned_from_trans; eassumption|assumption].
Qed.

(** after True the store is arc consistent *)
Lemma ac3_loop_in_sound fuel : forall q s s',
  crossword s = cw -> symmetric_overlaps cw ->
  arcs_ok cw q -> arc_inv s q ->
  ac3_loop_in nb fuel q s = Ok (true, s') ->
  arc_consistent s'.
Proof.
  induction fuel as [|fuel IH]; intros q s s' Hcw Hsym Hq Hinv H; simpl in H.
  - discriminate.
  - destruct q as [|[x y] rest].
    + apply ret_Ok in H as [_ ->].
      intros x y ix iy Hx Hy Hxy Hov.
      destruct (Hinv x y ix iy Hx Hy Hxy Hov) as [[]|Hok]. exact Hok.
    + destruct (Hq x y (or_introl eq_refl)) as (Hx & Hy & Hxy).
      rewrite <- Hcw in Hx, Hy, Hsym.
      apply bind_Ok in H as (b & s1 & Hrev & H).
      destruct (overlaps (crossword s) x y) as [[ox oy]|] eqn:Hov.
      * destruct (revise_some _ _ _ _ _ _ _ Hxy Hov Hrev)
          as (dx & Hdx & Hc & Hk & Ho & Hv & Hb & _).
        assert (Hcw1 : crossword s1 = cw) by congruence.
        destruct b.
        -- apply bind_Ok in H as (dx1 & s2 & Hdx1 & H).
           apply domain_Ok in Hdx1 as [Hdx1 ->].
           destruct (Nat.eqb (List.length dx1) 0).
           { apply ret_Ok in H as [E _]. discriminate. }
           assert (Hinv0 : arc_inv s1 (rest ++ enqueued (crossword s) x y)).
           { eapply arc_inv_revised; eauto. }
           rewrite Hcw1 in H. rewrite Hcw in Hinv0, Hsym.
           apply (IH _ _ _ Hcw1 Hsym (arcs_ok_step_in x y rest Hq)); [|exact H].
           revert Hinv0. apply arc_inv_incl. intros a Ha.
           apply in_app_or in Ha as [Ha|Ha]; apply in_or_app;
             [left; assumption|right; apply in_enqueued_in; assumption].
        -- assert (Hinv1 : arc_inv s1 rest).
           { eapply arc_inv_unrevised; eauto. }
           rewrite Hcw in Hsym.
           apply (IH _ _ _ Hcw1 Hsym (arcs_ok_tail _ _ _ Hq) Hinv1 H).
      * rewrite (revise_none _ _ _ Hov) in Hrev. inversion Hrev; subst b s1.
        rewrite Hcw in Hsym.
        apply (IH rest s s' Hcw Hsym (arcs_ok_tail _ _ _ Hq)); [|exact H].
        intros a b i j Ha Hb Hab Hovab.
        destruct (Hinv a b i j Ha Hb Hab Hovab) as [[E|Hin]|Hok]; auto.
        inversion E; subst a b. congruence.
Qed.

(** it removes no word of an arc-consistent store within the current one *)
Lemma ac3_loop_in_within fuel r : forall q s b s',
  crossword s = cw -> arcs_ok cw q ->
  ac3_loop_in nb fuel q s = Ok (b, s') ->
  crossword r = cw -> arc_consistent r -> within r s -> within r s'.
Proof.
  induction fuel as [|fuel IH]; intros q s b s' Hcw Hq H Hcr Hac Hin; simpl in H;
    [discriminate|].
  destruct q as [|[x y] rest].
  - apply ret_Ok in H as [_ ->]. assumption.
  - destruct (Hq x y (or_introl eq_refl)) as (Hx & Hy & Hxy).
    apply bind_Ok in H as (b1 & s1 & Hrev & H).
    assert (Hin1 : within r s1).
    { apply (revise_within x y s b1 s1 r); try assumption; congruence. }
    destruct (revise_size _ _ _ _ _ Hrev) as (Hc & _).
    assert (Hcw1 : crossword s1 = cw) by congruence.
    destruct b1.
    + apply bind_Ok in H as (dx & s2 & Hdx & H).
      apply domain_Ok in Hdx as [Hdx ->].
      destruct (Nat.eqb (List.length dx) 0).
      * apply ret_Ok in H as [_ ->]. assumption.
      * rewrite Hcw1 in H.
        apply (IH _ _ _ _ Hcw1 (arcs_ok_step_in x y rest Hq) H); assumption.
    + apply (IH _ _ _ _ Hcw1 (arcs_ok_tail _ _ _ Hq) H); assumption.
Qed.

Lemma in_arc_queue_in x y :
  In (x, y) (flat_map (fun var => map (fun neighbor => (var, neighbor)) (nb cw var))
                      (variables cw)) <->
  In x (variables cw) /\ In y (neighbors cw x).
Proof.
  rewrite in_flat_map. split.
  - intros (v & Hv & Hin). apply in_map_iff in Hin as (n & E & Hn).
    inversion E; subst. split; [assumption|]. apply in_nb. assumption.
  - intros [Hx Hy]. exists x. split; [assumption|].
    apply in_map_iff. exists y. split; [reflexivity|]. apply in_nb. assumption.
Qed.

(** [ac3()] in any order of the neighbors: it returns, it only removes
    words, after True the store is arc consistent, after False a domain
    is empty, and no word of an arc-consistent store within the initial
    one is removed *)
Lemma ac3_in_run s :
  well_formed cw -> store_inv cw s ->
  exists b s',
    ac3_in nb None s = Ok (b, s') /\
    store_inv cw s' /\ pruned_from s s' /\
    (b = true -> arc_consistent s') /\
    (b = false -> has_empty s') /\
    (forall r, crossword r = cw -> arc_consistent r -> within r s -> within r s').
Proof.
  intros (HndV & HndW & Hsym & Hrange) Hinv.
  pose proof Hinv as (Hc & Hok & _).
  unfold ac3_in, get_arc_queue_in. unfold bind at 1. rewrite Hc.
  set (q := flat_map _ (variables cw)).
  assert (Hq : arcs_ok cw q).
  { intros x y Hin. apply in_arc_queue_in in Hin as [Hx Hy].
    apply in_neighbors in Hy as (Hy & Hne & _). auto. }
  assert (Hqinv : arc_inv s q).
  { intros x y ix iy Hx Hy Hxy Hov. rewrite Hc in Hx, Hy, Hov.
    left. apply in_arc_queue_in. split; [assumption|].
    apply in_neighbors. repeat split; [assumption|congruence|].
    rewrite (Hsym x y ix iy Hx Hy Hov). discriminate. }
  destruct (ac3_loop_in_returns (ac3_fuel s q) q s Hrange Hinv Hq) as (b & s' & Hrun & Hinv').
  { unfold ac3_fuel. rewrite Hc. lia. }
  exists b, s'. split; [exact Hrun|]. split; [exact Hinv'|].
  destruct (ac3_loop_in_pruned _ _ _ _ _ Hrun) as [Hp Hfalse].
  split; [exact Hp|]. split; [|split].
  - intros ->. apply (ac3_loop_in_sound _ _ _ _ Hc Hsym Hq Hqinv Hrun).
  - intros E. destruct (Hfalse E) as [x Hx]. exists x.
    split; [eapply dict_get_in_keys; eassumption|apply dom_of_get; assumption].
  - intros r Hcr Hac Hin.
    apply (ac3_loop_in_within _ r _ _ _ _ Hc Hq Hrun Hcr Hac Hin).
Qed.
End AnyOrder.

(** ** The result of the propagation does not depend on the order *)

Lemma dict_ext {A} (d1 d2 : list (Var * A)) :
  dict_keys d1 = dict_keys d2 -> NoDup (dict_keys d1) ->
  (forall k, In k (dict_keys d1) -> dict_get d1 k = dict_get d2 k) ->
  d1 = d2.
Proof.
  revert d2. induction d1 as [|[k a] d1 IH]; intros [|[k' a'] d2] Hk Hnd Hget;
    try discriminate; [reflexivity|].
  simpl in Hk. inversion Hk as [[Ek Hk']]. subst k'.
  inversion Hnd as [|? ? Hnot Hnd']; subst.
  pose proof (Hget k (or_introl eq_refl)) as Hhead. simpl in Hhead.
  destruct (Var_eq_dec k k) as [_|Hne]; [|congruence].
  inversion Hhead; subst a'. f_equal.
  apply IH; [assumption|assumption|].
  intros k' Hin. specialize (Hget k' (or_intror Hin)). simpl in Hget.
  destruct (Var_eq_dec k k') as [->|_]; [contradiction|assumption].
Qed.

Lemma filter_same {A} (p1 p2 : A -> bool) l :
  incl (filter p1 l) (filter p2 l) -> incl (filter p2 l) (filter p1 l) ->
  filter p1 l = filter p2 l.
Proof.
  intros H12 H21. apply filter_ext_in. intros a Ha.
  destruct (p1 a) eqn:E1, (p2 a) eqn:E2; try reflexivity.
  - assert (Hin : In a (filter p2 l)) by (apply H12, filter_In; auto).
    apply filter_In in Hin as [_ Hin]. congruence.
  - assert (Hin : In a (filter p1 l)) by (apply H21, filter_In; auto).
    apply filter_In in Hin as [_ Hin]. congruence.
Qed.

(** two stores pruned from the same one, each within the other, are the
    same store *)
Lemma pruned_same s s1 s2 :
  NoDup (dict_keys (domains s)) ->
  pruned_from s s1 -> pruned_from s s2 ->
  within s1 s2 -> within s2 s1 -> s1 = s2.
Proof.
  intros Hnd Hp1 Hp2 H12 H21.
  pose proof Hp1 as (Hc1 & Hk1 & Hv1). pose proof Hp2 as (Hc2 & Hk2 & Hv2).
  assert (Hdom : domains s1 = domains s2).
  { apply dict_ext; [congruence|rewrite Hk1; assumption|].
    intros k Hk. rewrite Hk1 in Hk.
    destruct (in_keys_dict_get _ _ Hk) as [d Hd].
    destruct (pruned_from_dom s s1 k Hp1) as [r1 E1].
    destruct (pruned_from_dom s s2 k Hp2) as [r2 E2].
    specialize (H12 k). specialize (H21 k).
    rewrite E1, E2 in H12, H21. rewrite (dom_of_get _ _ _ Hd) in H12, H21.
    destruct (Hv1 k) as [r1' G1]. destruct (Hv2 k) as [r2' G2].
    rewrite Hd in G1, G2. simpl in G1, G2.
    unfold dom_of in E1, E2. rewrite G1, Hd in E1. rewrite G2, Hd in E2.
    rewrite G1, G2, E1, E2. f_equal. apply filter_same; assumption. }
  destruct s1 as [c1 d1], s2 as [c2 d2]. simpl in *. congruence.
Qed.

Lemma has_empty_within r s :
  dict_keys (domains r) = dict_keys (domains s) ->
  within r s -> has_empty s -> has_empty r.
Proof.
  intros Hk Hin (x & Hx & Hdom). exists x. split; [rewrite Hk; assumption|].
  specialize (Hin x). rewrite Hdom in Hin.
  destruct (dom_of r x) as [|w d]; [reflexivity|].
  destruct (Hin w (or_introl eq_refl)).
Qed.

(** two runs of [ac3()] on the same store, in any two orders of the
    neighbors, leave the same store, unless both leave an empty domain *)
Lemma ac3_in_confluent cw nb1 nb2 s b1 s1 b2 s2 :
  well_formed cw -> store_inv cw s ->
  neighbors_order cw nb1 -> neighbors_order cw nb2 ->
  ac3_in nb1 None s = Ok (b1, s1) -> ac3_in nb2 None s = Ok (b2, s2) ->
  s1 = s2 \/ (has_empty s1 /\ has_empty s2).
Proof.
  intros Hwf Hinv Hnb1 Hnb2 H1 H2.
  destruct (ac3_in_run cw nb1 Hnb1 s Hwf Hinv)
    as (b1' & s1' & E1 & Hinv1 & Hp1 & Ht1 & Hf1 & Hw1).
  destruct (ac3_in_run cw nb2 Hnb2 s Hwf Hinv)
    as (b2' & s2' & E2 & Hinv2 & Hp2 & Ht2 & Hf2 & Hw2).
  rewrite H1 in E1. rewrite H2 in E2.
  inversion E1; subst b1' s1'. inversion E2; subst b2' s2'. clear E1 E2.
  pose proof Hinv as (Hc & Hok & _).
  pose proof Hinv1 as (Hc1 & _). pose proof Hinv2 as (Hc2 & _).
  pose proof Hwf as (HndV & _).
  assert (Hin1 : within s1 s) by (intros v; apply pruned_from_incl; assumption).
  assert (Hin2 : within s2 s) by (intros v; apply pruned_from_incl; assumption).
  assert (Hk12 : dict_keys (domains s1) = dict_keys (domains s2)).
  { destruct Hp1 as (_ & -> & _). destruct Hp2 as (_ & -> & _). reflexivity. }
  destruct b1, b2.
  - left. apply (pruned_same s); try assumption.
    + rewrite Hok, Hc. assumption.
    + apply Hw2; auto.
    + apply Hw1; auto.
  - right. split; [|auto].
    apply (has_empty_within s1 s2); [assumption| |auto]. apply Hw2; auto.
  - right. split; [auto|].
    apply (has_empty_within s2 s1); [congruence| |auto]. apply Hw1; auto.
  - right. auto.
Qed.

(** ** The consistency test does not depend on the order *)

Lemma consistent_neighbors_order cw a var ns ns' :
  symmetric_overlaps cw -> in_range_overlaps cw -> assignment_fits cw a ->
  In var (dict_keys a) -> incl ns (neighbors cw var) ->
  (forall n, In n ns' <-> In n ns) ->
  consistent_neighbors cw a var ns' = consistent_neighbors cw a var ns.
Proof.
  intros Hsym Hrange Hfits Hvar Hns Hsame.
  assert (Hns' : incl ns' (neighbors cw var)).
  { intros n Hn. apply Hns, Hsame, Hn. }
  destruct (consistent_neighbors_total cw a var ns Hsym Hrange Hfits Hvar Hns) as [b Hb].
  destruct (consistent_neighbors_total cw a var ns' Hsym Hrange Hfits Hvar Hns') as [b' Hb'].
  rewrite Hb, Hb'. f_equal.
  assert (Hiff : consistent_neighbors cw a var ns' = Ok true <->
                 consistent_neighbors cw a var ns = Ok true).
  { rewrite !consistent_neighbors_true. split; intros H n Hn; apply H, Hsame, Hn. }
  rewrite Hb, Hb' in Hiff.
  destruct b, b'; try reflexivity.
  - destruct Hiff as [_ Hiff]. specialize (Hiff eq_refl). discriminate.
  - destruct Hiff as [Hiff _]. specialize (Hiff eq_refl). discriminate.
Qed.

Section ConsistentAnyOrder.
Variable cw : Crossword.
Variable nb : Crossword -> Var -> list Var.
Hypothesis Hnb : neighbors_order cw nb.
Hypothesis Hsym : symmetric_overlaps cw.
Hypothesis Hrange : in_range_overlaps cw.

Lemma consistent_vars_in_eq a vs :
  assignment_fits cw a -> incl vs (dict_keys a) ->
  consistent_vars_in nb cw a vs = consistent_vars cw a vs.
Proof.
  intros Hfits. induction vs as [|var vs IH]; intros Hvs; simpl; [reflexivity|].
  assert (Hvar : In var (dict_keys a)) by (apply Hvs; left; reflexivity).
  assert (Hvs' : incl vs (dict_keys a)).
  { intros v Hv. apply Hvs. right. assumption. }
  rewrite (consistent_neighbors_order cw a var (neighbors cw var) (nb cw var)
             Hsym Hrange Hfits Hvar (incl_refl _) (in_nb cw nb Hnb var)).
  rewrite (IH Hvs'). reflexivity.
Qed.

(** on an assignment that fits the crossword, [consistent] returns the
    same in any order of the neighbors *)
Lemma consistent_in_eq a :
  assignment_fits cw a -> consistent_in nb cw a = consistent cw a.
Proof.
  intros Hfits. unfold consistent_in, consistent.
  rewrite (consistent_vars_in_eq a (dict_keys a) Hfits (incl_refl _)). reflexivity.
Qed.
End ConsistentAnyOrder.

(** ** The search in any order *)

Lemma select_in_cases sel s a :
  set_order sel ->
  (unassigned s a = [] /\ select_unassigned_variable_in sel s a = Raise ValueError) \/
  (exists v, select_unassigned_variable_in sel s a = Ok v /\ In v (unassigned s a)).
Proof.
  intros Hsel. unfold select_unassigned_variable_in.
  pose proof (Hsel (unassigned s a)) as Hperm.
  destruct (sel (unassigned s a)) as [|v0 vs] eqn:E.
  - left. split; [|reflexivity]. apply Permutation_nil. assumption.
  - right.
    assert (Hkeys : forall v, In v (v0 :: vs) -> In v (dict_keys (domains s))).
    { intros v Hv. apply (Permutation_in _ Hperm) in Hv.
      apply unassigned_keys in Hv. tauto. }
    destruct (in_keys_dict_get _ _ (Hkeys v0 (or_introl eq_refl))) as [d0 Hd0].
    rewrite (select_key_Ok _ _ _ Hd0). simpl.
    destruct (min_by_key_spec s vs v0
                (List.length d0, List.length (neighbors (crossword s) v0))
                (fun v Hv => Hkeys v (or_intror Hv)))
      as (v & Hmin & Hin & _).
    exists v. split; [assumption|].
    apply (Permutation_in _ Hperm).
    destruct Hin as [->|Hin]; [left; reflexivity|right; assumption].
Qed.

Lemma first_some_spec {A R} (body : A -> M (option R))
    (P : A -> Prop) (Q : R -> Prop) s l :
  (forall a, In a l ->
     exists r, body a s = Ok (r, s) /\
               match r with Some v => Q v | None => P a end) ->
  exists r, first_some body l s = Ok (r, s) /\
            match r with Some v => Q v | None => forall a, In a l -> P a end.
Proof.
  induction l as [|a l IH]; intros Hbody; simpl.
  - exists None. split; [reflexivity|]. intros a [].
  - destruct (Hbody a (or_introl eq_refl)) as (r & Hr & Hspec).
    rewrite (bind_of_Ok _ _ _ _ _ Hr). destruct r as [v|].
    + exists (Some v). split; [reflexivity|assumption].
    + destruct (IH (fun a' Ha' => Hbody a' (or_intror Ha'))) as (r & Hr' & Hspec').
      exists r. split; [assumption|]. destruct r; [assumption|].
      intros a' [<-|Ha']; auto.
Qed.

Lemma first_some_same {A R} (body1 body2 : A -> M (option R)) s l :
  (forall a, In a l ->
     body1 a s = body2 a s /\ exists r, body1 a s = Ok (r, s)) ->
  first_some body1 l s = first_some body2 l s.
Proof.
  induction l as [|a l IH]; intros Hbody; simpl; [reflexivity|].
  destruct (Hbody a (or_introl eq_refl)) as (Heq & r & Hr).
  unfold bind. rewrite <- Heq, Hr. destruct r; [reflexivity|].
  apply IH. intros a' Ha'. apply Hbody. right. assumption.
Qed.

Lemma bind_same {A B} (m1 m2 : M A) (k1 k2 : A -> M B) s :
  m1 s = m2 s ->
  (forall a s1, m1 s = Ok (a, s1) -> k1 a s1 = k2 a s1) ->
  bind m1 k1 s = bind m2 k2 s.
Proof.
  intros Hm Hk. unfold bind. rewrite <- Hm.
  destruct (m1 s) as [[a s1]|e]; [apply Hk|]; reflexivity.
Qed.

Lemma assignment_fits_set cw s a v w d :
  store_inv cw s -> assignment_fits cw a ->
  In v (unassigned s a) -> dict_get (domains s) v = Some d -> In w d ->
  assignment_fits cw (dict_set a v w).
Proof.
  intros (Hc & Hok & Hset & Hnode) (Hnd & Hincl & Hfit) Hv Hd Hw.
  apply unassigned_keys in Hv as [Hkey Hfresh].
  assert (HvV : In v (variables cw)) by (rewrite <- Hc, <- Hok; assumption).
  assert (Hkeys : dict_keys (dict_set a v w) = dict_keys a ++ [v]).
  { apply dict_keys_set_absent. apply dict_get_None. assumption. }
  split; [|split].
  - rewrite Hkeys. apply NoDup_app; [assumption|repeat constructor; intros []|].
    intros v' Hv' [<-|[]]. contradiction.
  - rewrite Hkeys. intros v' Hv'. apply in_app_or in Hv' as [Hv'|[<-|[]]]; auto.
  - intros v' w' Hget. destruct (Var_eq_dec v' v) as [->|Hne'].
    + rewrite dict_get_set_eq in Hget. inversion Hget; subst w'. eauto.
    + rewrite dict_get_set_neq in Hget by assumption. eauto.
Qed.

Section SearchAnyOrder.
Variable cw : Crossword.
Variable nb : Crossword -> Var -> list Var.
Variable sel : list Var -> list Var.
Hypothesis Hwf : well_formed cw.
Hypothesis Hnb : neighbors_order cw nb.
Hypothesis Hsel : set_order sel.

(** the search, in any order of the sets: it returns within its bound
    and leaves the object alone; an assignment it returns is complete
    and consistent, extends the one given and takes its other words
    from the domains; and when it returns None no solution in the
    domains extends the assignment given *)
Lemma backtrack_rec_in_spec fuel : forall a s,
  store_inv cw s -> assignment_fits cw a -> consistent cw a = Ok true ->
  List.length (unassigned s a) < fuel ->
  exists r,
    backtrack_rec_in nb sel fuel a s = Ok (r, s) /\
    match r with
    | Some res =>
        assignment_fits cw res /\ consistent cw res = Ok true /\
        List.length (dict_keys res) = List.length (variables cw) /\
        (forall v w, dict_get res v = Some w ->
                     dict_get a v = Some w \/ In w (dom_of s v))
    | None => forall f, part_of a f -> supports s f -> ~ solution cw f
    end.
Proof.
  induction fuel as [|fuel IH]; intros a s Hinv Hfits Hcons Hfuel; [lia|].
  pose proof Hwf as (HndV & HndW & Hsym & Hrange).
  pose proof Hinv as (Hc & Hok & Hset & Hnode).
  pose proof Hfits as (Hnd & Hincl & Hfit).
  cbn [backtrack_rec_in]. unfold backtrack_body_in.
  assert (Hcomp : assignment_complete a s =
                  Ok (Nat.eqb (List.length (dict_keys a)) (List.length (variables cw)), s)).
  { unfold assignment_complete. rewrite Hc. reflexivity. }
  rewrite (bind_of_Ok _ _ _ _ _ Hcomp).
  destruct (Nat.eqb (List.length (dict_keys a)) (List.length (variables cw))) eqn:Hlen.
  { exists (Some a). split; [reflexivity|]. apply Nat.eqb_eq in Hlen.
    repeat split; auto. }
  apply Nat.eqb_neq in Hlen.
  pose proof (unassigned_nonempty cw s a HndV Hc Hok Hnd Hincl Hlen) as Hne.
  destruct (select_in_cases sel s a Hsel) as [[E _]|(v & Hselv & Hv)]; [contradiction|].
  rewrite (bind_of_Ok _ _ _ _ _
             (reads_of_Ok (fun self => select_unassigned_variable_in sel self a) _ _ Hselv)).
  pose proof Hv as Hv'. apply unassigned_keys in Hv' as [Hkey Hfresh].
  assert (HvV : In v (variables cw)) by (rewrite <- Hc, <- Hok; assumption).
  destruct (in_keys_dict_get _ _ Hkey) as [d Hd].
  rewrite (bind_of_Ok _ _ _ _ _ (domain_of_get _ _ _ Hd)).
  match goal with
  | |- exists r, first_some ?body d s = _ /\ _ =>
      destruct (first_some_spec body
        (fun w => forall f, part_of (dict_set a v w) f -> supports s f -> ~ solution cw f)
        (fun res =>
           assignment_fits cw res /\ consistent cw res = Ok true /\
           List.length (dict_keys res) = List.length (variables cw) /\
           (forall v w, dict_get res v = Some w ->
                        dict_get a v = Some w \/ In w (dom_of s v)))
        s d) as (r & Hr & Hspec)
  end.
  - intros w Hw.
    pose proof (assignment_fits_set cw s a v w d Hinv Hfits Hv Hd Hw) as Hfits'.
    destruct (consistent_total cw (dict_set a v w) Hsym Hrange Hfits') as [ok Hok'].
    assert (Hread : reads (fun self => consistent_in nb (crossword self) (dict_set a v w)) s
                    = Ok (ok, s)).
    { apply reads_of_Ok. rewrite Hc.
      rewrite (consistent_in_eq cw nb Hnb Hsym Hrange _ Hfits'). assumption. }
    rewrite (bind_of_Ok _ _ _ _ _ Hread).
    destruct ok.
    + pose proof (unassigned_shrinks s a v w Hv) as Hless.
      destruct (IH (dict_set a v w) s Hinv Hfits' Hok' ltac:(lia)) as (r & Hr & Hspec).
      exists r. split; [assumption|].
      destruct r as [res|]; [|exact Hspec].
      destruct Hspec as (Hf & Hcs & Hl & Hwords).
      split; [assumption|]. split; [assumption|]. split; [assumption|].
      intros v' w' Hget. destruct (Hwords v' w' Hget) as [Hset'|Hdom]; [|right; assumption].
      destruct (Var_eq_dec v' v) as [->|Hne'].
      * rewrite dict_get_set_eq in Hset'. inversion Hset'; subst w'.
        right. rewrite (dom_of_get _ _ _ Hd). assumption.
      * rewrite dict_get_set_neq in Hset' by assumption. left. assumption.
    + exists None. split; [reflexivity|].
      intros f Hpart Hsup Hsol.
      destruct Hfits' as (Hnd' & Hincl' & _).
      pose proof (consistent_of_solution cw _ f Hsym Hnd' Hincl' Hpart Hsol) as Hyes.
      congruence.
  - exists r. split; [assumption|].
    destruct r as [res|]; [exact Hspec|].
    intros f Hpart Hsup Hsol.
    assert (Hfv : In (f v) d).
    { rewrite <- (dom_of_get _ _ _ Hd). apply Hsup. rewrite Hc. assumption. }
    apply (Hspec (f v) Hfv f); [|assumption|assumption].
    apply part_of_set; assumption.
Qed.
End SearchAnyOrder.

(** two runs of the search on the same store, in any two orders of the
    neighbors and in orders of the unassigned variables that agree,
    return the same *)
Lemma backtrack_rec_in_order cw nb1 sel1 nb2 sel2 fuel : forall a s,
  well_formed cw ->
  neighbors_order cw nb1 -> neighbors_order cw nb2 ->
  set_order sel1 -> set_order sel2 -> same_order cw sel1 sel2 ->
  store_inv cw s -> assignment_fits cw a -> consistent cw a = Ok true ->
  List.length (unassigned s a) < fuel ->
  backtrack_rec_in nb1 sel1 fuel a s = backtrack_rec_in nb2 sel2 fuel a s.
Proof.
  induction fuel as [|fuel IH];
    intros a s Hwf Hnb1 Hnb2 Hsel1 Hsel2 Hsame Hinv Hfits Hcons Hfuel; [lia|].
  pose proof Hwf as (HndV & HndW & Hsym & Hrange).
  pose proof Hinv as (Hc & Hok & Hset & Hnode).
  cbn [backtrack_rec_in]. unfold backtrack_body_in.
  apply bind_ext. intros complete s1 Hcomp.
  unfold assignment_complete in Hcomp. inversion Hcomp; subst complete s1; clear Hcomp.
  destruct (Nat.eqb _ _); [reflexivity|].
  assert (Eun : sel1 (unassigned s a) = sel2 (unassigned s a)).
  { apply Hsame. intros v Hv. apply unassigned_keys in Hv as [Hv _].
    rewrite <- Hc, <- Hok. assumption. }
  apply bind_same.
  { unfold reads, select_unassigned_variable_in. rewrite Eun. reflexivity. }
  intros v s1 Hselv. apply reads_Ok in Hselv as [Hselv ->].
  destruct (select_in_cases sel1 s a Hsel1) as [[_ E]|(v' & E & Hv)]; [congruence|].
  rewrite Hselv in E. inversion E; subst v'. clear E.
  apply bind_ext. intros d s1 Hd. apply domain_Ok in Hd as [Hd ->].
  apply first_some_same. intros w Hw.
  pose proof (assignment_fits_set cw s a v w d Hinv Hfits Hv Hd Hw) as Hfits'.
  destruct (consistent_total cw (dict_set a v w) Hsym Hrange Hfits') as [ok Hok'].
  assert (Hread1 : reads (fun self => consistent_in nb1 (crossword self) (dict_set a v w)) s
                   = Ok (ok, s)).
  { apply reads_of_Ok. rewrite Hc.
    rewrite (consistent_in_eq cw nb1 Hnb1 Hsym Hrange _ Hfits'). assumption. }
  assert (Hread2 : reads (fun self => consistent_in nb2 (crossword self) (dict_set a v w)) s
                   = Ok (ok, s)).
  { apply reads_of_Ok. rewrite Hc.
    rewrite (consistent_in_eq cw nb2 Hnb2 Hsym Hrange _ Hfits'). assumption. }
  rewrite (bind_of_Ok _ _ _ _ _ Hread1), (bind_of_Ok _ _ _ _ _ Hread2).
  destruct ok.
  - pose proof (unassigned_shrinks s a v w Hv) as Hless.
    split.
    + apply IH; try assumption. lia.
    + destruct (backtrack_rec_in_spec cw nb1 sel1 Hwf Hnb1 Hsel1 fuel
                  (dict_set a v w) s Hinv Hfits' Hok' ltac:(lia)) as (r & Hr & _).
      exists r. assumption.
  - split; [reflexivity|]. exists None. reflexivity.
Qed.

(** ** What a run of [solve()] returns, in any order *)

Lemma dict_get_map_keys {A} (g : Var -> A) l v :
  dict_get (map (fun v => (v, g v)) l) v =
  if in_dec Var_eq_dec v l then Some (g v) else None.
Proof.
  induction l as [|v0 l IH]; simpl; [reflexivity|].
  destruct (Var_eq_dec v0 v) as [->|Hne]; [reflexivity|].
  rewrite IH. destruct (in_dec Var_eq_dec v l); [reflexivity|reflexivity].
Qed.

Lemma dom_store_of cw f v :
  dom_of (store_of cw f) v = if in_dec Var_eq_dec v (variables cw) then [f v] else [].
Proof.
  unfold dom_of, store_of. simpl. rewrite (dict_get_map_keys (fun v => [f v])).
  destruct (in_dec Var_eq_dec v (variables cw)); reflexivity.
Qed.

Lemma store_of_arc_consistent cw f :
  overlaps_agree cw f -> arc_consistent (store_of cw f).
Proof.
  intros Hagree x y ix iy Hx Hy Hxy Hov w Hw. simpl in Hx, Hy, Hov.
  rewrite dom_store_of in *.
  destruct (in_dec Var_eq_dec x (variables cw)); [|contradiction].
  destruct (in_dec Var_eq_dec y (variables cw)); [|contradiction].
  destruct Hw as [<-|[]]. exists (f y). split; [left; reflexivity|].
  apply Hagree; assumption.
Qed.

Lemma within_store_of cw f s :
  crossword s = cw -> (within (store_of cw f) s <-> supports s f).
Proof.
  intros Hc. split.
  - intros H v Hv. rewrite Hc in Hv. apply (H v). rewrite dom_store_of.
    destruct (in_dec Var_eq_dec v (variables cw)); [left; reflexivity|contradiction].
  - intros H v w Hw. rewrite dom_store_of in Hw.
    destruct (in_dec Var_eq_dec v (variables cw)) as [Hv|]; [|destruct Hw].
    destruct Hw as [<-|[]]. apply H. rewrite Hc. assumption.
Qed.

(** a complete assignment that [consistent] accepts is a solution *)
Lemma solution_of_consistent cw a :
  symmetric_overlaps cw -> assignment_fits cw a ->
  consistent cw a = Ok true ->
  List.length (dict_keys a) = List.length (variables cw) ->
  (forall v, In v (variables cw) -> dict_get a v = Some (choice_of a v)) /\
  solution cw (choice_of a).
Proof.
  intros Hsym (Hnd & Hincl & Hfit) Hcons Hlen.
  assert (Hall : forall v, In v (variables cw) -> dict_get a v = Some (choice_of a v)).
  { intros v Hv.
    assert (Hk : In v (dict_keys a)).
    { apply (NoDup_length_incl (l := dict_keys a) (l' := variables cw));
        [assumption|lia|assumption|assumption]. }
    destruct (in_keys_dict_get _ _ Hk) as [w Hw].
    unfold choice_of. rewrite Hw. reflexivity. }
  split; [exact Hall|].
  unfold consistent in Hcons.
  destruct (List.length (nodup string_dec (dict_values a)) <? List.length (dict_values a))
    eqn:Htest; [discriminate|].
  apply values_distinct_test in Htest.
  pose proof (proj1 (values_NoDup_injective a Hnd) Htest) as Hinj.
  rewrite consistent_vars_true in Hcons.
  split; [|split].
  - intros v1 v2 H1 H2 E. apply (Hinj v1 v2 (choice_of a v1)).
    + apply Hall. assumption.
    + rewrite E. apply Hall. assumption.
  - intros v Hv. apply Hfit. apply Hall. assumption.
  - intros x y i j Hx Hy Hxy Hov.
    pose proof (Hall x Hx) as Hgx. pose proof (Hall y Hy) as Hgy.
    pose proof (dict_get_in_keys _ _ _ Hgx) as Hkx.
    pose proof (dict_get_in_keys _ _ _ Hgy) as Hky.
    destruct (Hcons x Hkx) as (_ & _ & _ & Hn).
    rewrite consistent_neighbors_true in Hn.
    destruct (Hn y) as (i' & j' & wv & wn & E & Hgx' & Hgy' & Hag).
    + apply in_neighbors. split; [assumption|]. split; [congruence|].
      rewrite (Hsym x y i j Hx Hy Hov). discriminate.
    + apply dict_mem_true. assumption.
    + congruence.
Qed.

(** the store after [enforce_node_consistency] on a fresh object *)
Lemma enforce_init cw :
  well_formed cw ->
  exists s0,
    enforce_node_consistency (init cw) = Ok (tt, s0) /\
    store_inv cw s0 /\
    (forall v, incl (dom_of s0 v) (words cw)) /\
    (forall f, (forall v, In v (variables cw) -> In (f v) (words cw)) ->
               solution cw f -> supports s0 f).
Proof.
  intros (HndV & HndW & Hsym & Hrange).
  destruct (enforce_node_consistency_total (init cw) (init_is_set cw HndW)) as [s0 Hnode].
  destruct (enforce_node_consistency_spec _ _ _ Hnode) as (Hc0 & Hk0 & Hv0).
  exists s0. split; [assumption|]. split; [|split].
  - split; [exact Hc0|]. split; [eapply creator_ok_same; eauto; apply init_ok|].
    split; [|eapply node_consistent_after; eassumption].
    intros v d Hd. rewrite Hv0 in Hd.
    destruct (dict_get (domains (init cw)) v) as [d0|] eqn:Hd0; [|discriminate].
    simpl in Hd. inversion Hd; subst d. apply NoDup_filter.
    eapply init_is_set; eassumption.
  - intros v w Hw. apply (init_dom cw v). unfold dom_of in *. rewrite Hv0 in Hw.
    destruct (dict_get (domains (init cw)) v) as [d0|]; [|destruct Hw].
    simpl in Hw. apply filter_In in Hw. tauto.
  - intros f Hwords (_ & Hlen & _).
    apply (enforce_supports _ _ _ f Hnode Hlen (init_supports cw f Hwords)).
Qed.

Section RunAnyOrder.
Variable cw : Crossword.
Variable nb : Crossword -> Var -> list Var.
Variable sel : list Var -> list Var.
Hypothesis Hwf : well_formed cw.
Hypothesis Hnb : neighbors_order cw nb.
Hypothesis Hsel : set_order sel.

(** a run of [solve()], in any order of the sets: it returns, with None
    when the propagation left an empty domain, and with None exactly
    when the crossword has no solution in its vocabulary *)
Lemma solve_in_run s0 :
  enforce_node_consistency (init cw) = Ok (tt, s0) ->
  store_inv cw s0 ->
  (forall v, incl (dom_of s0 v) (words cw)) ->
  (forall f, (forall v, In v (variables cw) -> In (f v) (words cw)) ->
             solution cw f -> supports s0 f) ->
  exists b s' r,
    ac3_in nb None s0 = Ok (b, s') /\
    store_inv cw s' /\
    backtrack_in nb sel [] s' = Ok (r, s') /\
    solve_in nb sel (init cw) = Ok (r, s') /\
    (has_empty s' -> r = None) /\
    (r = None <-> ~ solvable cw).
Proof.
  intros Hnode Hinv0 Hvocab Hsup0.
  pose proof Hwf as (HndV & HndW & Hsym & Hrange).
  destruct (ac3_in_run cw nb Hnb s0 Hwf Hinv0)
    as (b & s' & Hac3 & Hinv & Hp & _ & _ & Hwithin).
  pose proof Hinv as (Hc & Hok & _).
  assert (Hfits : assignment_fits cw []).
  { split; [constructor|]. split; [intros ? []|]. intros ? ? E. discriminate. }
  destruct (backtrack_rec_in_spec cw nb sel Hwf Hnb Hsel
              (S (List.length (unassigned s' []))) [] s' Hinv Hfits
              (consistent_nil cw) ltac:(lia)) as (r & Hr & Hspec).
  exists b, s', r. split; [assumption|]. split; [assumption|].
  split; [exact Hr|]. split.
  { unfold solve_in. rewrite (bind_of_Ok _ _ _ _ _ Hnode).
    rewrite (bind_of_Ok _ _ _ _ _ Hac3). exact Hr. }
  assert (Hsome : forall res, r = Some res ->
            (forall v, In v (variables cw) ->
                       dict_get res v = Some (choice_of res v) /\
                       In (choice_of res v) (dom_of s' v)) /\
            solution cw (choice_of res)).
  { intros res ->. destruct Hspec as (Hf & Hcs & Hl & Hwords).
    destruct (solution_of_consistent cw res Hsym Hf Hcs Hl) as [Hall Hsol].
    split; [|assumption]. intros v Hv. split; [auto|].
    destruct (Hwords v _ (Hall v Hv)) as [E|Hin]; [discriminate|assumption]. }
  split.
  - intros (x & Hx & Hdom). destruct r as [res|]; [|reflexivity].
    destruct (Hsome res eq_refl) as [Hall _].
    rewrite Hok, Hc in Hx. destruct (Hall x Hx) as [_ Hin].
    rewrite Hdom in Hin. destruct Hin.
  - split.
    + intros -> (f & Hwords & Hsol).
      apply (Hspec f); [intros ? ? E; discriminate| |assumption].
      apply (within_store_of cw f s' Hc).
      apply Hwithin; [reflexivity| |].
      * apply store_of_arc_consistent. destruct Hsol as (_ & _ & Hagree). assumption.
      * apply within_store_of; [destruct Hinv0; assumption|]. apply Hsup0; assumption.
    + intros Hno. destruct r as [res|]; [|reflexivity].
      exfalso. apply Hno.
      destruct (Hsome res eq_refl) as [Hall Hsol].
      exists (choice_of res). split; [|assumption].
      intros v Hv. destruct (Hall v Hv) as [_ Hin].
      apply (Hvocab v). apply (pruned_from_incl s0 s' v Hp). assumption.
Qed.
End RunAnyOrder.

(** C10: [solve()] is deterministic once the order in which its sets
    iterate is fixed, and that order is all that a run adds to the
    instance.  On a well-formed crossword, take two runs in which the
    sets built during the run ([neighbors(var)] and the set of the
    unassigned variables) iterate in any orders.  Both runs return, an
    assignment or None.  When the set of the unassigned variables
    iterates in the same order in both runs (the tie-break of
    [select_unassigned_variable]), they return the same outcome, the
    same assignment or None both times, whatever the orders of the
    neighbors.  In any case either both return an assignment or both
    return None, and None is returned exactly when the crossword has no
    solution in its vocabulary. *)
Theorem solve_deterministic (cw : Crossword)
    (nb1 nb2 : Crossword -> Var -> list Var) (sel1 sel2 : list Var -> list Var) :
  well_formed cw ->
  neighbors_order cw nb1 -> neighbors_order cw nb2 ->
  set_order sel1 -> set_order sel2 ->
  exists r1 r2,
    outcome (solve_in nb1 sel1 (init cw)) = Ok r1 /\
    outcome (solve_in nb2 sel2 (init cw)) = Ok r2 /\
    (same_order cw sel1 sel2 -> r1 = r2) /\
    (r1 = None <-> r2 = None) /\
    (r1 = None <-> ~ solvable cw).
Proof.
  intros Hwf Hnb1 Hnb2 Hsel1 Hsel2.
  destruct (enforce_init cw Hwf) as (s0 & Hnode & Hinv0 & Hvocab & Hsup0).
  destruct (solve_in_run cw nb1 sel1 Hwf Hnb1 Hsel1 s0 Hnode Hinv0 Hvocab Hsup0)
    as (b1 & s1 & r1 & Hac1 & Hinv1 & Hbt1 & Hrun1 & Hempty1 & Hnone1).
  destruct (solve_in_run cw nb2 sel2 Hwf Hnb2 Hsel2 s0 Hnode Hinv0 Hvocab Hsup0)
    as (b2 & s2 & r2 & Hac2 & Hinv2 & Hbt2 & Hrun2 & Hempty2 & Hnone2).
  exists r1, r2. rewrite Hrun1, Hrun2.
  split; [reflexivity|]. split; [reflexivity|]. split; [|split].
  - intros Hsame.
    destruct (ac3_in_confluent cw nb1 nb2 s0 b1 s1 b2 s2 Hwf Hinv0 Hnb1 Hnb2 Hac1 Hac2)
      as [E|[He1 He2]].
    + subst s2. unfold backtrack_in in Hbt1, Hbt2.
      assert (Hfits : assignment_fits cw []).
      { split; [constructor|]. split; [intros ? []|]. intros ? ? E. discriminate. }
      rewrite (backtrack_rec_in_order cw nb1 sel1 nb2 sel2
                 (S (List.length (unassigned s1 []))) [] s1 Hwf Hnb1 Hnb2
                 Hsel1 Hsel2 Hsame Hinv1 Hfits (consistent_nil cw) ltac:(lia)) in Hbt1.
      congruence.
    + rewrite (Hempty1 He1), (Hempty2 He2). reflexivity.
  - rewrite Hnone1, Hnone2. reflexivity.
  - exact Hnone1.
Qed.

(** the order in which the set of the unassigned variables iterates
    does change the assignment returned: on [Example.cw] the stored
    order gives abc to [x], the reverse order gives abc to [y] *)
Lemma solve_depends_on_the_order :
  outcome (solve_in neighbors stored_order (init Example.cw))
  = Ok (Some [(Example.x, "abc"%string); (Example.y, "ade"%string)]) /\
  outcome (solve_in neighbors reverse_order (init Example.cw))
  = Ok (Some [(Example.y, "abc"%string); (Example.x, "ade"%string)]).
Proof. split; vm_compute; reflexivity. Qed.

Lemma solve_deterministic_witness :
  exists r1 r2,
    outcome (solve_in neighbors reverse_order (init Example.cw)) = Ok r1 /\
    outcome (solve_in reverse_neighbors reverse_order (init Example.cw)) = Ok r2 /\
    r1 = r2 /\
    (r1 = None <-> r2 = None) /\
    (r1 = None <-> ~ solvable Example.cw).
Proof.
  assert (Hwf : well_formed Example.cw).
  { split; [|split; [|split]].
    - repeat constructor; simpl; intuition discriminate.
    - repeat constructor; simpl; intuition discriminate.
    - apply symmetric_overlaps_b_sound. vm_compute. reflexivity.
    - apply in_range_overlaps_b_sound. vm_compute. reflexivity. }
  assert (Hnb1 : neighbors_order Example.cw neighbors).
  { intros var. apply Permutation_refl. }
  assert (Hnb2 : neighbors_order Example.cw reverse_neighbors).
  { intros var. apply Permutation_sym, Permutation_rev. }
  assert (Hsel : set_order reverse_order).
  { intros l. apply Permutation_sym, Permutation_rev. }
  destruct (solve_deterministic Example.cw neighbors reverse_neighbors
              reverse_order reverse_order Hwf Hnb1 Hnb2 Hsel Hsel)
    as (r1 & r2 & H1 & H2 & Hsame & Hiff & Hsol).
  exists r1, r2. split; [exact H1|]. split; [exact H2|].
  split; [|split; assumption].
  apply Hsame. intros l _. reflexivity.
Defined.
